(** * Ainario: the storyboard orchestrator and the example-scene preview flow

    A shallow embedding of [handleGenerateStoryboard] (App component) and
    [handleGenerateScene] (AnimateImagePage component), together with the
    parts of the JavaScript runtime they rely on: strings as sequences of
    UTF-16 code units, [String.prototype.trim], the two clean-up regular
    expressions, the marker regular expression with [String.prototype.split],
    [Promise.allSettled], [JSON.parse] and [JSON.stringify]. *)

From Stdlib Require Import NArith ZArith Ascii String Lia Decimal.
From stdpp Require Import base list numbers.

Local Open Scope list_scope.

(** ** JavaScript strings *)

(** A JavaScript string is a sequence of UTF-16 code units. *)
Definition jsstring := list N.

(** A source literal made of ASCII characters. *)
Definition lit (s : string) : jsstring := map N_of_ascii (list_ascii_of_string s).
Arguments lit : simpl never.

Definition LF : N := 10.

(** Truthiness of a string: only the empty string is falsy. *)
Definition nonempty (s : jsstring) : bool :=
  match s with [] => false | _ :: _ => true end.

Definition jsstring_eqb (a b : jsstring) : bool := bool_decide (a = b).

(** WhiteSpace and LineTerminator code units of ECMAScript, the ones
    [String.prototype.trim] removes. *)
Definition is_white_space (c : N) : bool :=
  ((9 <=? c) && (c <=? 13) || (c =? 32) || (c =? 160) || (c =? 5760)
   || (8192 <=? c) && (c <=? 8202) || (c =? 8232) || (c =? 8233)
   || (c =? 8239) || (c =? 8287) || (c =? 12288) || (c =? 65279))%N.

(** LineTerminator: what the regular expression atom [.] refuses. *)
Definition is_line_terminator (c : N) : bool :=
  ((c =? 10) || (c =? 13) || (c =? 8232) || (c =? 8233))%N.

Definition is_digit (c : N) : bool := ((48 <=? c) && (c <=? 57))%N.

Fixpoint trimStart (s : jsstring) : jsstring :=
  match s with
  | [] => []
  | c :: r => if is_white_space c then trimStart r else s
  end.

Definition trimEnd (s : jsstring) : jsstring := rev (trimStart (rev s)).

(** [s.trim()] *)
Definition trim (s : jsstring) : jsstring := trimEnd (trimStart s).

(** [p] stripped from the front of [s], when [s] starts with [p]. *)
Fixpoint strip_prefix (p s : jsstring) : option jsstring :=
  match p with
  | [] => Some s
  | a :: p' =>
      match s with
      | [] => None
      | b :: s' => if (a =? b)%N then strip_prefix p' s' else None
      end
  end.

Definition starts_with (p s : jsstring) : bool :=
  match strip_prefix p s with Some _ => true | None => false end.

(** Decimal digits of a natural number, as the template literal
    [${index + 1}] prints it. *)
Fixpoint uint_digits (d : Decimal.uint) : jsstring :=
  match d with
  | Nil => []
  | D0 d => 48%N :: uint_digits d
  | D1 d => 49%N :: uint_digits d
  | D2 d => 50%N :: uint_digits d
  | D3 d => 51%N :: uint_digits d
  | D4 d => 52%N :: uint_digits d
  | D5 d => 53%N :: uint_digits d
  | D6 d => 54%N :: uint_digits d
  | D7 d => 55%N :: uint_digits d
  | D8 d => 56%N :: uint_digits d
  | D9 d => 57%N :: uint_digits d
  end.

Definition nat_to_string (n : nat) : jsstring := uint_digits (Nat.to_uint n).

(** [parts.join(sep)] for an array of strings. *)
Fixpoint join (sep : jsstring) (parts : list jsstring) : jsstring :=
  match parts with
  | [] => []
  | [p] => p
  | p :: rest => p ++ sep ++ join sep rest
  end.

(** ** The two clean-up regular expressions of the JSON post-processing *)

Definition json_fence : jsstring := lit "```json".
Definition fence : jsstring := lit "```".

(** [s.replace(/```json\n?/, '')]: the first occurrence of the opening
    marker, with the line feed right after it when there is one, is removed. *)
Fixpoint strip_json_fence (s : jsstring) : jsstring :=
  match strip_prefix json_fence s with
  | Some r =>
      match r with
      | c :: r' => if (c =? LF)%N then r' else r
      | [] => []
      end
  | None =>
      match s with
      | [] => []
      | c :: s' => c :: strip_json_fence s'
      end
  end.

(** [s.replace(/```$/, '')]: without the multiline flag [$] is the end of
    the input, so three back-ticks are removed only when they are the very
    last characters. *)
Fixpoint strip_final_fence (s : jsstring) : jsstring :=
  match s with
  | [] => []
  | c :: r => if jsstring_eqb s fence then [] else c :: strip_final_fence r
  end.

(** ** The marker regular expression [/--- (?:SCENE|PROMPT) \d+.*---/] *)

Fixpoint digits_prefix (s : jsstring) : jsstring * jsstring :=
  match s with
  | [] => ([], [])
  | c :: r =>
      if is_digit c then
        let '(d, r') := digits_prefix r in (c :: d, r')
      else ([], s)
  end.

(** End offset of the last [---] on the first line of [s]: the greedy [.*]
    stays on the line and gives back characters until [---] follows. *)
Fixpoint last_dashes_end (s : jsstring) : option nat :=
  match s with
  | [] => None
  | c :: r =>
      if is_line_terminator c then None
      else match last_dashes_end r with
           | Some n => Some (S n)
           | None => if starts_with (lit "---") s then Some 3 else None
           end
  end.

(** Length of the match of the marker expression at the start of [s]. *)
Definition match_marker (s : jsstring) : option nat :=
  s1 ← strip_prefix (lit "--- ") s;
  '(w, s2) ← match strip_prefix (lit "SCENE") s1 with
             | Some r => Some (5, r)
             | None => match strip_prefix (lit "PROMPT") s1 with
                       | Some r => Some (6, r)
                       | None => None
                       end
             end;
  s3 ← strip_prefix (lit " ") s2;
  let '(d, s4) := digits_prefix s3 in
  match d with
  | [] => None
  | _ :: _ => n ← last_dashes_end s4; Some (4 + w + 1 + length d + n)
  end.

(** [s.split(re)] for the marker expression.  [skip] counts the characters of
    the current match still to be dropped, [piece] is the current piece in
    reverse.  The expression never matches the empty string, so every match
    closes a piece, and the last piece runs to the end of the input. *)
Fixpoint split_go (s : jsstring) (skip : nat) (piece : jsstring) : list jsstring :=
  match s with
  | [] => [rev piece]
  | c :: r =>
      match skip with
      | S k => split_go r k piece
      | O =>
          match match_marker s with
          | Some (S n) => rev piece :: split_go r n []
          | _ => split_go r 0 (c :: piece)
          end
      end
  end.

Definition split_markers (s : jsstring) : list jsstring := split_go s 0 [].

(** ** Numbers of the JavaScript runtime

    JSON numbers are IEEE-754 doubles.  Their reading and printing is
    kept as an interface: every statement below holds for whatever the
    runtime's conversions are. *)
Record NumberModel := {
  number : Type;
  (** the Number value of a JSON numeric literal *)
  number_of_literal : jsstring -> number;
  (** [Number::toString] *)
  number_to_string : number -> jsstring;
  (** neither NaN nor an infinity *)
  number_is_finite : number -> bool;
  (** [ToBoolean]: neither zero nor NaN *)
  number_truthy : number -> bool;
  (** [n > 0] *)
  number_positive : number -> bool;
  (** [StringToNumber], the coercion of a string in a comparison *)
  string_to_number : jsstring -> number;
}.

(** ** JSON values, [JSON.parse] and [JSON.stringify] *)

Section JSON.
Context (NM : NumberModel).

(** A value [JSON.parse] can return.  An object is the list of its own
    properties in the order [Object.keys] and [JSON.stringify] enumerate them:
    array-index keys in ascending order first, then the other keys in the order
    they were created. *)
Local Unset Elimination Schemes.
Inductive JSValue :=
| JNull
| JBool (b : bool)
| JNumber (n : number NM)
| JString (s : jsstring)
| JArray (elements : list JSValue)
| JObject (properties : list (jsstring * JSValue)).
Local Set Elimination Schemes.

(** *** Property keys *)

Definition digits_value (s : jsstring) : N :=
  fold_left (fun acc c => (acc * 10 + (c - 48))%N) s 0%N.

(** An array index is a canonical numeric string below [2^32 - 1]. *)
Definition array_index (k : jsstring) : option N :=
  match k with
  | [] => None
  | c :: r =>
      if forallb is_digit k
         && ((negb (c =? 48)%N) || negb (nonempty r))
         && (digits_value k <=? 4294967294)%N
      then Some (digits_value k) else None
  end.

(** [a] is enumerated no later than [b]. *)
Definition key_before (a b : jsstring) : bool :=
  match array_index a, array_index b with
  | Some x, Some y => (x <=? y)%N
  | Some _, None => true
  | None, None => true
  | None, Some _ => false
  end.

(** [O[k]] for an own property. *)
Fixpoint get_own (k : jsstring) (props : list (jsstring * JSValue)) : option JSValue :=
  match props with
  | [] => None
  | (k', v) :: rest => if jsstring_eqb k' k then Some v else get_own k rest
  end.

Fixpoint replace_own (k : jsstring) (v : JSValue) (props : list (jsstring * JSValue))
  : list (jsstring * JSValue) :=
  match props with
  | [] => []
  | (k', v') :: rest =>
      if jsstring_eqb k' k then (k', v) :: rest else (k', v') :: replace_own k v rest
  end.

Fixpoint insert_own (k : jsstring) (v : JSValue) (props : list (jsstring * JSValue))
  : list (jsstring * JSValue) :=
  match props with
  | [] => [(k, v)]
  | (k', v') :: rest =>
      if key_before k' k then (k', v') :: insert_own k v rest
      else (k, v) :: props
  end.

(** [CreateDataProperty(O, k, v)]: an existing property keeps its place and
    takes the new value, a new one is created. *)
Definition define_own (k : jsstring) (v : JSValue) (props : list (jsstring * JSValue))
  : list (jsstring * JSValue) :=
  match get_own k props with
  | Some _ => replace_own k v props
  | None => insert_own k v props
  end.

(** *** Lexical elements *)

Definition is_json_space (c : N) : bool :=
  ((c =? 9) || (c =? 10) || (c =? 13) || (c =? 32))%N.

Fixpoint skip_ws (s : jsstring) : jsstring :=
  match s with
  | [] => []
  | c :: r => if is_json_space c then skip_ws r else s
  end.

Definition lex_int (s : jsstring) : option (jsstring * jsstring) :=
  match s with
  | [] => None
  | c :: r =>
      if (c =? 48)%N then Some ([c], r)
      else if is_digit c then
        let '(d, r') := digits_prefix r in Some (c :: d, r')
      else None
  end.

Definition lex_frac (s : jsstring) : option (jsstring * jsstring) :=
  match s with
  | [] => Some ([], [])
  | c :: r =>
      if (c =? 46)%N then
        match digits_prefix r with
        | ([], _) => None
        | (d, r') => Some (c :: d, r')
        end
      else Some ([], s)
  end.

Definition lex_sign (s : jsstring) : jsstring * jsstring :=
  match s with
  | [] => ([], [])
  | c :: r => if ((c =? 43) || (c =? 45))%N then ([c], r) else ([], s)
  end.

Definition lex_exp (s : jsstring) : option (jsstring * jsstring) :=
  match s with
  | [] => Some ([], [])
  | c :: r =>
      if ((c =? 101) || (c =? 69))%N then
        let '(sg, r1) := lex_sign r in
        match digits_prefix r1 with
        | ([], _) => None
        | (d, r') => Some (c :: sg ++ d, r')
        end
      else Some ([], s)
  end.

Definition lex_minus (s : jsstring) : jsstring * jsstring :=
  match s with
  | [] => ([], [])
  | c :: r => if (c =? 45)%N then ([c], r) else ([], s)
  end.

(** The longest JSON number at the start of [s], and what follows it. *)
Definition lex_number (s : jsstring) : option (jsstring * jsstring) :=
  let '(sg, s1) := lex_minus s in
  '(i, s2) ← lex_int s1;
  '(f, s3) ← lex_frac s2;
  '(e, s4) ← lex_exp s3;
  Some (sg ++ i ++ f ++ e, s4).

Definition hex_value (c : N) : option N :=
  if is_digit c then Some (c - 48)%N
  else if ((97 <=? c) && (c <=? 102))%N then Some (c - 87)%N
  else if ((65 <=? c) && (c <=? 70))%N then Some (c - 55)%N
  else None.

Definition hex4_value (a b c d : N) : option N :=
  x ← hex_value a; y ← hex_value b; z ← hex_value c; w ← hex_value d;
  Some (((x * 16 + y) * 16 + z) * 16 + w)%N.

Definition simple_escape (c : N) : option N :=
  if (c =? 34)%N then Some 34%N
  else if (c =? 92)%N then Some 92%N
  else if (c =? 47)%N then Some 47%N
  else if (c =? 98)%N then Some 8%N
  else if (c =? 102)%N then Some 12%N
  else if (c =? 110)%N then Some 10%N
  else if (c =? 114)%N then Some 13%N
  else if (c =? 116)%N then Some 9%N
  else None.

(** The characters of a string literal after its opening quote; [acc] is
    the text read so far, in reverse. *)
Fixpoint parse_string_body (s acc : jsstring) : option (jsstring * jsstring) :=
  match s with
  | [] => None
  | c :: r =>
      if (c =? 34)%N then Some (rev acc, r)
      else if (c =? 92)%N then
        match r with
        | [] => None
        | e :: r2 =>
            if (e =? 117)%N then
              match r2 with
              | h1 :: h2 :: h3 :: h4 :: r3 =>
                  match hex4_value h1 h2 h3 h4 with
                  | Some u => parse_string_body r3 (u :: acc)
                  | None => None
                  end
              | _ => None
              end
            else
              match simple_escape e with
              | Some u => parse_string_body r2 (u :: acc)
              | None => None
              end
        end
      else if (c <? 32)%N then None
      else parse_string_body r (c :: acc)
  end.

(** *** The parser *)

Inductive ParseResult :=
| Parsed (v : JSValue) (rest : jsstring)
| SyntaxError
| OutOfFuel.

Fixpoint parse_value (fuel : nat) (s : jsstring) {struct fuel} : ParseResult :=
  match fuel with
  | O => OutOfFuel
  | S fuel' =>
      match skip_ws s with
      | [] => SyntaxError
      | c :: r =>
          if (c =? 123)%N then
            match skip_ws r with
            | [] => SyntaxError
            | c' :: r' =>
                if (c' =? 125)%N then Parsed (JObject []) r'
                else parse_members fuel' [] r
            end
          else if (c =? 91)%N then
            match skip_ws r with
            | [] => SyntaxError
            | c' :: r' =>
                if (c' =? 93)%N then Parsed (JArray []) r'
                else parse_elements fuel' [] r
            end
          else if (c =? 34)%N then
            match parse_string_body r [] with
            | Some (t, r') => Parsed (JString t) r'
            | None => SyntaxError
            end
          else
            match strip_prefix (lit "true") (c :: r) with
            | Some r' => Parsed (JBool true) r'
            | None =>
            match strip_prefix (lit "false") (c :: r) with
            | Some r' => Parsed (JBool false) r'
            | None =>
            match strip_prefix (lit "null") (c :: r) with
            | Some r' => Parsed JNull r'
            | None =>
            match lex_number (c :: r) with
            | Some (t, r') => Parsed (JNumber (number_of_literal NM t)) r'
            | None => SyntaxError
            end end end end
      end
  end
with parse_elements (fuel : nat) (acc : list JSValue) (s : jsstring) {struct fuel}
  : ParseResult :=
  match fuel with
  | O => OutOfFuel
  | S fuel' =>
      match parse_value fuel' s with
      | Parsed v r =>
          match skip_ws r with
          | [] => SyntaxError
          | c :: r' =>
              if (c =? 44)%N then parse_elements fuel' (v :: acc) r'
              else if (c =? 93)%N then Parsed (JArray (rev (v :: acc))) r'
              else SyntaxError
          end
      | other => other
      end
  end
with parse_members (fuel : nat) (acc : list (jsstring * JSValue)) (s : jsstring)
  {struct fuel} : ParseResult :=
  match fuel with
  | O => OutOfFuel
  | S fuel' =>
      match skip_ws s with
      | [] => SyntaxError
      | q :: r =>
          if (q =? 34)%N then
            match parse_string_body r [] with
            | None => SyntaxError
            | Some (k, r1) =>
                match skip_ws r1 with
                | [] => SyntaxError
                | c1 :: r2 =>
                    if (c1 =? 58)%N then
                      match parse_value fuel' r2 with
                      | Parsed v r3 =>
                          match skip_ws r3 with
                          | [] => SyntaxError
                          | c3 :: r4 =>
                              if (c3 =? 44)%N then
                                parse_members fuel' (define_own k v acc) r4
                              else if (c3 =? 125)%N then
                                Parsed (JObject (define_own k v acc)) r4
                              else SyntaxError
                          end
                      | other => other
                      end
                    else SyntaxError
                end
            end
          else SyntaxError
      end
  end.

(** [JSON.parse(text)]: [None] is the thrown [SyntaxError].  The fuel, one
    more than twice the length of the text, is never exhausted. *)
Definition JSON_parse (text : jsstring) : option JSValue :=
  match parse_value (S (2 * length text)) text with
  | Parsed v rest => if nonempty (skip_ws rest) then None else Some v
  | _ => None
  end.

(** *** The serializer *)

Definition hex_digit (d : N) : N := if (d <? 10)%N then (48 + d)%N else (87 + d)%N.

Definition unicode_escape (c : N) : jsstring :=
  [92; 117; hex_digit (c / 4096); hex_digit ((c / 256) mod 16);
   hex_digit ((c / 16) mod 16); hex_digit (c mod 16)]%N.

Definition is_high_surrogate (c : N) : bool := ((55296 <=? c) && (c <=? 56319))%N.
Definition is_low_surrogate (c : N) : bool := ((56320 <=? c) && (c <=? 57343))%N.

Definition escape_unit (c : N) : jsstring :=
  if (c =? 8)%N then [92; 98]%N
  else if (c =? 9)%N then [92; 116]%N
  else if (c =? 10)%N then [92; 110]%N
  else if (c =? 12)%N then [92; 102]%N
  else if (c =? 13)%N then [92; 114]%N
  else if (c =? 34)%N then [92; 34]%N
  else if (c =? 92)%N then [92; 92]%N
  else if (c <? 32)%N then unicode_escape c
  else [c].

(** The body of [QuoteJSONString]: a surrogate pair is copied, a lone
    surrogate is escaped. *)
Fixpoint quote_body (s : jsstring) : jsstring :=
  match s with
  | [] => []
  | c :: r =>
      if is_high_surrogate c then
        match r with
        | d :: r' =>
            if is_low_surrogate d then c :: d :: quote_body r'
            else unicode_escape c ++ quote_body r
        | [] => unicode_escape c
        end
      else if is_low_surrogate c then unicode_escape c ++ quote_body r
      else escape_unit c ++ quote_body r
  end.

Definition QuoteJSONString (s : jsstring) : jsstring := 34%N :: quote_body s ++ [34%N].

(** The second and later entries of an array or object, each after a comma
    and a line break. *)
Definition serialize_more {A} (item : A -> jsstring) (inner : jsstring)
  : list A -> jsstring :=
  fix more (l : list A) : jsstring :=
    match l with
    | [] => []
    | y :: l' => [44; 10]%N ++ inner ++ item y ++ more l'
    end.

Definition gap : jsstring := [32; 32]%N.

(** [SerializeJSONProperty] with a gap of two spaces. *)
Fixpoint serialize (indent : jsstring) (v : JSValue) {struct v} : jsstring :=
  match v with
  | JNull => lit "null"
  | JBool true => lit "true"
  | JBool false => lit "false"
  | JNumber n => if number_is_finite NM n then number_to_string NM n else lit "null"
  | JString s => QuoteJSONString s
  | JArray [] => lit "[]"
  | JArray (x :: xs) =>
      [91; 10]%N ++ (indent ++ gap) ++ serialize (indent ++ gap) x
      ++ serialize_more (serialize (indent ++ gap)) (indent ++ gap) xs
      ++ [10%N] ++ indent ++ [93%N]
  | JObject [] => lit "{}"
  | JObject ((k, x) :: ps) =>
      [123; 10]%N ++ (indent ++ gap)
      ++ QuoteJSONString k ++ [58; 32]%N ++ serialize (indent ++ gap) x
      ++ serialize_more
           (fun p : jsstring * JSValue =>
              QuoteJSONString (fst p) ++ [58; 32]%N ++ serialize (indent ++ gap) (snd p))
           (indent ++ gap) ps
      ++ [10%N] ++ indent ++ [125%N]
  end.

(** [JSON.stringify(value, null, 2)] *)
Definition JSON_stringify (v : JSValue) : jsstring := serialize [] v.

(** *** Vocabulary of the statements about JSON *)

(** A number that the serializer prints as a JSON number which reads back
    as the same number.  Of the doubles, these are the finite ones other
    than negative zero. *)
Definition number_rereads (n : number NM) : Prop :=
  number_is_finite NM n = true
  ∧ lex_number (number_to_string NM n) = Some (number_to_string NM n, [])
  ∧ number_of_literal NM (number_to_string NM n) = n.

(** Every number inside [v] reads back. *)
Fixpoint numbers_reread (v : JSValue) : Prop :=
  match v with
  | JNumber n => number_rereads n
  | JArray l =>
      (fix all (l : list JSValue) : Prop :=
         match l with
         | [] => True
         | x :: l' => numbers_reread x ∧ all l'
         end) l
  | JObject ps =>
      (fix all (l : list (jsstring * JSValue)) : Prop :=
         match l with
         | [] => True
         | p :: l' => numbers_reread (snd p) ∧ all l'
         end) ps
  | _ => True
  end.

(** Keys without repetition, in enumeration order. *)
Fixpoint keys_ordered (ks : list jsstring) : Prop :=
  match ks with
  | [] => True
  | k :: rest => Forall (λ k', k' ≠ k ∧ key_before k k' = true) rest ∧ keys_ordered rest
  end.

(** The properties of every object inside [v] are in enumeration order,
    as the parser leaves them. *)
Fixpoint properties_ordered (v : JSValue) : Prop :=
  match v with
  | JArray l =>
      (fix all (l : list JSValue) : Prop :=
         match l with
         | [] => True
         | x :: l' => properties_ordered x ∧ all l'
         end) l
  | JObject ps =>
      keys_ordered (map fst ps)
      ∧ (fix all (l : list (jsstring * JSValue)) : Prop :=
           match l with
           | [] => True
           | p :: l' => properties_ordered (snd p) ∧ all l'
           end) ps
  | _ => True
  end.

(** What may follow a serialized value: nothing, a comma or a line feed. *)
Definition ends_value (rest : jsstring) : Prop :=
  match rest with
  | [] => True
  | c :: _ => c = 44%N ∨ c = 10%N
  end.

(** A character that continues a number. *)
Definition extends_number (c : N) : bool :=
  (is_digit c || (c =? 46) || (c =? 101) || (c =? 69))%N.

(** What may follow a number for it to be read whole. *)
Definition stops_number (rest : jsstring) : Prop :=
  match rest with [] => True | c :: _ => extends_number c = false end.

(** JSON white space only. *)
Definition spaces (ws : jsstring) : Prop := Forall (λ c, is_json_space c = true) ws.

(** The serialization of [v], at any indentation and before anything that
    may follow a value, is parsed as [v] with what follows left over. *)
Definition parses_back (v : JSValue) : Prop :=
  ∀ indent rest fuel,
    properties_ordered v → numbers_reread v → spaces indent → ends_value rest →
    2 * length (serialize indent v ++ rest) < fuel →
    parse_value fuel (serialize indent v ++ rest) = Parsed v rest.

End JSON.

Arguments JNull {NM}.
Arguments JBool {NM} b.
Arguments JNumber {NM} n.
Arguments JString {NM} s.
Arguments JArray {NM} elements.
Arguments JObject {NM} properties.
Arguments Parsed {NM} v rest.
Arguments SyntaxError {NM}.
Arguments OutOfFuel {NM}.
Arguments get_own {NM} k props.
Arguments replace_own {NM} k v props.
Arguments insert_own {NM} k v props.
Arguments define_own {NM} k v props.
Arguments number_rereads {NM} n.
Arguments numbers_reread {NM} v.
Arguments properties_ordered {NM} v.
Arguments parses_back {NM} v.

(** A whole-number instance of the number interface, used to run the
    definitions on concrete inputs: a literal stands for its integer part. *)
Definition whole_of_literal (t : jsstring) : Z :=
  match t with
  | c :: r =>
      if (c =? 45)%N then (- Z.of_N (digits_value (fst (digits_prefix r))))%Z
      else Z.of_N (digits_value (fst (digits_prefix t)))
  | [] => 0%Z
  end.

Definition whole_to_string (z : Z) : jsstring :=
  (if (z <? 0)%Z then [45%N] else []) ++ nat_to_string (Z.abs_nat z).

Definition WholeNumbers : NumberModel := {|
  number := Z;
  number_of_literal := whole_of_literal;
  number_to_string := whole_to_string;
  number_is_finite := fun _ => true;
  number_truthy := fun z => negb (z =? 0)%Z;
  number_positive := fun z => (0 <? z)%Z;
  string_to_number := fun s => whole_of_literal (trim s);
|}.

(** ** The generative service and the browser, as the code sees them *)

(** How a promise settles. *)
Inductive Outcome (A : Type) :=
| Fulfilled (value : A)
| Rejected (reason : jsstring).
Arguments Fulfilled {A} value.
Arguments Rejected {A} reason.

Record File := { file_name : jsstring; file_type : jsstring }.

(** [Part] of the client library: a text or an inlined image. *)
Inductive Part :=
| TextPart (text : jsstring)
| InlineData (mimeType data : jsstring).

(** The two system instructions of the storyboard recipe are fixed texts;
    they are referred to by the names the code gives them. *)
Inductive SystemInstruction :=
| classicSystemInstruction
| jsonSystemInstruction.

Inductive PromptFormat := classic | json.

Inductive AspectRatio := Ratio_16_9 | Ratio_4_3.

Record ContentRequest := {
  content_model : jsstring;
  content_parts : list Part;
  content_systemInstruction : option SystemInstruction;
}.

Record ImagesRequest := {
  images_model : jsstring;
  images_prompt : jsstring;
  images_numberOfImages : nat;
  images_outputMimeType : jsstring;
  images_aspectRatio : AspectRatio;
}.

(** A request sent to the service. *)
Inductive Call :=
| GenerateContent (request : ContentRequest)
| GenerateImages (request : ImagesRequest).

(** What the world outside the orchestrator answers.  [generateImages] is
    asked with the slot of the scene the call is made for, so that two calls
    with the same prompt may be answered differently.  [settle_order] lists
    the slots of the per-scene promises in the order in which they settle. *)
Record Service := {
  (** the base64 payload that [FileReader.readAsDataURL] delivers *)
  read_image_data : File -> Outcome jsstring;
  (** [response.text] of [ai.models.generateContent] *)
  generateContent : ContentRequest -> Outcome jsstring;
  (** [response.generatedImages?.[0]?.image?.imageBytes] of
      [ai.models.generateImages], [None] for undefined *)
  generateImages : nat -> ImagesRequest -> Outcome (option jsstring);
  settle_order : list nat;
}.

(** *** [Promise.allSettled] *)

(** The promise in slot [i] settles: its outcome is stored in slot [i] of
    the result array. *)
Definition settle {A} (promises : list (Outcome A))
  (values : list (option (Outcome A))) (i : nat) : list (option (Outcome A)) :=
  match promises !! i with
  | Some o => <[i := Some o]> values
  | None => values
  end.

(** The joint promise resolves with the result array once no slot is
    pending; [None] when some promise never settles. *)
Definition allSettled {A} (promises : list (Outcome A)) (order : list nat)
  : option (list (Outcome A)) :=
  mapM id (foldl (settle promises) (replicate (length promises) None) order).

(** How an async function ends. *)
Inductive Completion (A : Type) :=
| Returned (result : A)
| Threw (message : jsstring)
| Pending.
Arguments Returned {A} result.
Arguments Threw {A} message.
Arguments Pending {A}.

(** ** App: the storyboard orchestrator *)

Definition image_request (prompt : jsstring) (aspectRatio : AspectRatio) : ImagesRequest :=
  {| images_model := lit "imagen-3.0-generate-002";
     images_prompt := prompt;
     images_numberOfImages := 1;
     images_outputMimeType := lit "image/jpeg";
     images_aspectRatio := aspectRatio |}.

(** [generateImage(prompt, aspectRatio)], called for slot [slot]. *)
Definition generateImage (svc : Service) (slot : nat) (prompt : jsstring)
  (aspectRatio : AspectRatio) : Outcome jsstring :=
  match generateImages svc slot (image_request prompt aspectRatio) with
  | Fulfilled (Some image) =>
      if nonempty image then Fulfilled image
      else Rejected (lit "No images generated from prompt.")
  | Fulfilled None => Rejected (lit "No images generated from prompt.")
  | Rejected e => Rejected e
  end.

Definition style_analysis_instruction : jsstring :=
  lit "You are a master art director creating a prompt for an AI image generator. Based on the provided image, describe its visual style using a concise, comma-separated list of keywords. Focus on mood, color palette, lighting, and key artistic characteristics.".

Definition style_analysis_request (imageFile : File) (data : jsstring) : ContentRequest :=
  {| content_model := lit "gemini-2.5-flash";
     content_parts := [TextPart style_analysis_instruction;
                       InlineData (file_type imageFile) data];
     content_systemInstruction := None |}.

(** [analyzeImageStyle(imageFile)] with the requests it sends. *)
Definition analyzeImageStyle (svc : Service) (imageFile : File)
  : Outcome jsstring * list Call :=
  match read_image_data svc imageFile with
  | Rejected e => (Rejected e, [])
  | Fulfilled data =>
      (generateContent svc (style_analysis_request imageFile data),
       [GenerateContent (style_analysis_request imageFile data)])
  end.

Definition No_Style : jsstring := lit "No Style".

Definition no_style_sentence : jsstring :=
  lit "No specific cinematic style has been selected; rely on the reference image (if provided) and scene descriptions for style cues.".

Definition add_scene_message : jsstring :=
  lit "Please add at least one scene to the storyboard.".

Definition storyboard_failure_lines : list jsstring :=
  [lit "Failed to generate storyboard.";
   lit "Please check your connection or API key and try again."].

Definition storyboard_failure_message : jsstring := lit "Could not generate storyboard.".

Definition framing_instruction : jsstring :=
  lit "Based on the following storyboard scenes (text and images), and adhering to the specified cinematic and technical guidance, create a series of detailed, individual shot prompts for a video generation model.".

(** The style guide before the reference image is looked at. *)
Definition named_style_guide (selectedStyle : jsstring) : jsstring :=
  if jsstring_eqb selectedStyle No_Style then no_style_sentence
  else lit "Cinematic Style: " ++ selectedStyle ++ lit ".".

(** Step 1: the style guide, the keywords taken from the reference image,
    and the requests sent. *)
Definition style_step (svc : Service) (imageFile : option File) (selectedStyle : jsstring)
  : jsstring * jsstring * list Call :=
  match imageFile with
  | None => (named_style_guide selectedStyle, [], [])
  | Some file =>
      match analyzeImageStyle svc file with
      | (Fulfilled imageStyle, sent) =>
          (named_style_guide selectedStyle
             ++ [LF] ++ lit "Reference Image Style: " ++ imageStyle,
           imageStyle, sent)
      | (Rejected _, sent) => (named_style_guide selectedStyle, [], sent)
      end
  end.

Definition styleForPrompt (selectedStyle imageStyleKeywords : jsstring) : jsstring :=
  join (lit ", ")
    (List.filter nonempty
       [if jsstring_eqb selectedStyle No_Style then [] else selectedStyle;
        imageStyleKeywords]).

Definition fullPrompt (selectedStyle imageStyleKeywords scene : jsstring) : jsstring :=
  (if nonempty (styleForPrompt selectedStyle imageStyleKeywords)
   then styleForPrompt selectedStyle imageStyleKeywords ++ lit ", " else [])
  ++ lit "cinematic shot depicting " ++ trim scene.

(** Step 2, one scene: the promise the callback of [scenes.map] returns and
    the request it sends. *)
Definition imagePromise (svc : Service) (selectedStyle imageStyleKeywords : jsstring)
  (index : nat) (scene : jsstring) : Outcome (option jsstring) * list Call :=
  if nonempty (trim scene) then
    (match generateImage svc index
             (fullPrompt selectedStyle imageStyleKeywords scene) Ratio_4_3 with
     | Fulfilled image => Fulfilled (Some image)
     | Rejected e => Rejected e
     end,
     [GenerateImages
        (image_request (fullPrompt selectedStyle imageStyleKeywords scene) Ratio_4_3)])
  else (Fulfilled None, []).

(** [imageResults.map(...)]: a rejected promise leaves [null]. *)
Definition image_of_result (result : Outcome (option jsstring)) : option jsstring :=
  match result with
  | Fulfilled value => value
  | Rejected _ => None
  end.

(** Step 3: [scenes.forEach((scene, index) => ...)] pushing onto
    [promptParts]; [index] is the index of the head of [scenes]. *)
Fixpoint push_scenes (sceneImages : list (option jsstring)) (index : nat)
  (scenes : list jsstring) (promptParts : list Part) : list Part :=
  match scenes with
  | [] => promptParts
  | scene :: rest =>
      push_scenes sceneImages (S index) rest
        (if nonempty (trim scene) then
           let withText :=
             promptParts
             ++ [TextPart (lit "Scene " ++ nat_to_string (index + 1)
                           ++ lit ": " ++ trim scene)] in
           match sceneImages !! index with
           | Some (Some imageBase64) =>
               if nonempty imageBase64
               then withText ++ [InlineData (lit "image/jpeg") imageBase64]
               else withText
           | _ => withText
           end
         else promptParts)
  end.

Definition build_promptParts (styleGuide : jsstring) (scenes : list jsstring)
  (sceneImages : list (option jsstring)) : list Part :=
  push_scenes sceneImages 0 scenes
    [TextPart framing_instruction;
     TextPart (lit "--- STYLE GUIDANCE ---" ++ [LF] ++ styleGuide)].

Definition master_request (promptFormat : PromptFormat) (promptParts : list Part)
  : ContentRequest :=
  {| content_model := lit "gemini-2.5-flash";
     content_parts := promptParts;
     content_systemInstruction :=
       Some (match promptFormat with
             | json => jsonSystemInstruction
             | classic => classicSystemInstruction
             end) |}.

Record Storyboard := {
  prompts : jsstring;
  sceneImages : list (option jsstring);
}.

(** One run of the orchestrator: how it ended, the [generationError] state
    it left, and the requests it sent, in order. *)
Record Run := {
  completion : Completion Storyboard;
  generationError : option (list jsstring);
  calls : list Call;
}.

Section App.
Context (NM : NumberModel).

(** The clean-up of the model's text before it is parsed. *)
Definition clean_json_text (text : jsstring) : jsstring :=
  trim (strip_final_fence (strip_json_fence text)).

(** Step 4, after the response: the text handed back as [prompts]. *)
Definition postprocess (promptFormat : PromptFormat) (text : jsstring) : jsstring :=
  match promptFormat with
  | json =>
      match JSON_parse NM (clean_json_text text) with
      | Some parsedJson => JSON_stringify NM parsedJson
      | None => clean_json_text text
      end
  | classic => text
  end.

Definition handleGenerateStoryboard (svc : Service) (scenes : list jsstring)
  (imageFile : option File) (selectedStyle : jsstring) (promptFormat : PromptFormat)
  : Run :=
  let nonEmptyScenes := List.filter (fun s => nonempty (trim s)) scenes in
  if (length nonEmptyScenes =? 0)%nat then
    {| completion := Threw add_scene_message;
       generationError := Some [add_scene_message];
       calls := [] |}
  else
    let '(styleGuide, imageStyleKeywords, sent1) :=
      style_step svc imageFile selectedStyle in
    let imagePromises :=
      imap (imagePromise svc selectedStyle imageStyleKeywords) scenes in
    let sent2 := sent1 ++ concat (snd <$> imagePromises) in
    match allSettled (fst <$> imagePromises) (settle_order svc) with
    | None => {| completion := Pending; generationError := None; calls := sent2 |}
    | Some imageResults =>
        let sceneImages := image_of_result <$> imageResults in
        let request :=
          master_request promptFormat (build_promptParts styleGuide scenes sceneImages) in
        match generateContent svc request with
        | Fulfilled text =>
            {| completion :=
                 Returned {| prompts := postprocess promptFormat text;
                             sceneImages := sceneImages |};
               generationError := None;
               calls := sent2 ++ [GenerateContent request] |}
        | Rejected _ =>
            {| completion := Threw storyboard_failure_message;
               generationError := Some storyboard_failure_lines;
               calls := sent2 ++ [GenerateContent request] |}
        end
    end.

End App.

(** [handleAnimate(prompt, imageFile)] of the App: the state it leaves and the
    request it sends.  The image file is not passed on to the service. *)
Record AnimateRun := {
  generatedResult : option (jsstring * jsstring);
  animate_generationError : option (list jsstring);
  animate_calls : list Call;
}.

Definition image_failure_lines : list jsstring :=
  [lit "Image generation failed.";
   lit "Please check your API key or try a different prompt."].

Definition handleAnimate (svc : Service) (prompt : jsstring) (imageFile : option File)
  : AnimateRun :=
  match generateImage svc 0 prompt Ratio_16_9 with
  | Fulfilled imageBase64 =>
      {| generatedResult := Some (lit "data:image/jpeg;base64," ++ imageBase64, prompt);
         animate_generationError := None;
         animate_calls := [GenerateImages (image_request prompt Ratio_16_9)] |}
  | Rejected _ =>
      {| generatedResult := None;
         animate_generationError := Some image_failure_lines;
         animate_calls := [GenerateImages (image_request prompt Ratio_16_9)] |}
  end.

(** ** AnimateImagePage *)

(** The outputs the page keeps: the master prompt, the visual storyboard,
    and the busy flag of the storyboard panel. *)
Record PageState := {
  masterPrompt : jsstring;
  visualStoryboard : list (option jsstring);
  isGenerating : bool;
}.

Inductive VideoType := storyboard | logo | introOutro | musicVideo | cashCow.

(** An evaluation that may throw a [TypeError]. *)
Inductive Eval (A : Type) :=
| Value (a : A)
| TypeError.
Arguments Value {A} a.
Arguments TypeError {A}.

(** What a click on the example-scene button does. *)
Inductive SceneAction :=
| NothingToDo
| UncaughtTypeError
| Animate (finalPrompt : jsstring) (imageFile : option File).

Section AnimateImagePage.
Context (NM : NumberModel).

(** The handler of the storyboard panel's generate button: the outputs are
    cleared, then filled from the orchestrator's result when it returns. *)
Definition panel_handleGenerateStoryboard (svc : Service) (scenes : list jsstring)
  (imageFile : option File) (selectedStyle : jsstring) (promptFormat : PromptFormat)
  : PageState * Run :=
  let run := handleGenerateStoryboard NM svc scenes imageFile selectedStyle promptFormat in
  (match completion run with
   | Returned result =>
       {| masterPrompt := prompts result;
          visualStoryboard := sceneImages result;
          isGenerating := false |}
   | Threw _ =>
       {| masterPrompt := []; visualStoryboard := []; isGenerating := false |}
   | Pending =>
       {| masterPrompt := []; visualStoryboard := []; isGenerating := true |}
   end, run).

(** [ToBoolean] of a value that may be undefined. *)
Definition truthy (x : option (JSValue NM)) : bool :=
  match x with
  | None => false
  | Some JNull => false
  | Some (JBool b) => b
  | Some (JNumber n) => number_truthy NM n
  | Some (JString s) => nonempty s
  | Some (JArray _) => true
  | Some (JObject _) => true
  end.

(** [x.generation_prompt]: reading a property of [null] or [undefined]
    throws, primitives and arrays have no such property. *)
Definition generation_prompt_of (x : option (JSValue NM)) : Eval (option (JSValue NM)) :=
  match x with
  | None => TypeError
  | Some JNull => TypeError
  | Some (JObject props) => Value (get_own (lit "generation_prompt") props)
  | Some _ => Value None
  end.

Fixpoint join_elements (parts : list (Eval jsstring)) : Eval jsstring :=
  match parts with
  | [] => Value []
  | p :: rest =>
      match p, join_elements rest with
      | Value a, Value b =>
          Value (match rest with [] => a | _ :: _ => a ++ lit "," ++ b end)
      | _, _ => TypeError
      end
  end.

(** [ToString] of a parsed value.  An array is joined with commas, [null]
    elements giving the empty string; an object is [[object Object]] unless an
    own property hides [toString], which leaves nothing callable. *)
Fixpoint js_to_string (v : JSValue NM) : Eval jsstring :=
  match v with
  | JNull => Value (lit "null")
  | JBool true => Value (lit "true")
  | JBool false => Value (lit "false")
  | JNumber n => Value (number_to_string NM n)
  | JString s => Value s
  | JArray l =>
      join_elements
        (map (fun x => match x with
                       | JNull => Value []
                       | _ => js_to_string x
                       end) l)
  | JObject props =>
      match get_own (lit "toString") props with
      | Some _ => TypeError
      | None => Value (lit "[object Object]")
      end
  end.

(** [x > 0] for a parsed value [x]. *)
Definition gt_zero (x : JSValue NM) : Eval bool :=
  match x with
  | JNull => Value false
  | JBool b => Value b
  | JNumber n => Value (number_positive NM n)
  | JString s => Value (number_positive NM (string_to_number NM s))
  | JArray _ | JObject _ =>
      match js_to_string x with
      | Value s => Value (number_positive NM (string_to_number NM s))
      | TypeError => TypeError
      end
  end.

(** [parsed?.scenes] *)
Definition scenes_of (parsed : JSValue NM) : option (JSValue NM) :=
  match parsed with
  | JObject props => get_own (lit "scenes") props
  | _ => None
  end.

(** [scenes?.length > 0] *)
Definition length_positive (scenes : option (JSValue NM)) : Eval bool :=
  match scenes with
  | None => Value false
  | Some JNull => Value false
  | Some (JBool _) => Value false
  | Some (JNumber _) => Value false
  | Some (JString t) => Value (nonempty t)
  | Some (JArray l) => Value (match l with [] => false | _ :: _ => true end)
  | Some (JObject props) =>
      match get_own (lit "length") props with
      | None => Value false
      | Some x => gt_zero x
      end
  end.

(** [scenes[0]] *)
Definition first_of (scenes : option (JSValue NM)) : option (JSValue NM) :=
  match scenes with
  | Some (JString (c :: _)) => Some (JString [c])
  | Some (JArray (x :: _)) => Some x
  | Some (JObject props) => get_own (lit "0") props
  | _ => None
  end.

(** The value of [firstScenePrompt] at the end of the [try] block. *)
Definition firstScenePrompt (parsed : JSValue NM) : Eval (option (JSValue NM)) :=
  match parsed with
  | JArray (x :: _) => generation_prompt_of (Some x)
  | _ =>
      match length_positive (scenes_of parsed) with
      | Value true => generation_prompt_of (first_of (scenes_of parsed))
      | Value false => Value (Some (JString []))
      | TypeError => TypeError
      end
  end.

(** The [catch] block: the content of the first marked block. *)
Definition marker_prompt (masterPrompt : jsstring) : jsstring :=
  match split_markers masterPrompt with
  | _ :: first :: _ => trim first
  | _ => masterPrompt
  end.

(** The value of [finalPrompt] after the [try ... catch]. *)
Definition extracted_prompt (masterPrompt : jsstring) : JSValue NM :=
  match JSON_parse NM masterPrompt with
  | Some parsed =>
      match firstScenePrompt parsed with
      | Value (Some v) => if truthy (Some v) then v else JString masterPrompt
      | Value None => JString masterPrompt
      | TypeError => JString (marker_prompt masterPrompt)
      end
  | None => JString (marker_prompt masterPrompt)
  end.

Definition handleGenerateScene (masterPrompt : jsstring) (videoType : VideoType)
  (logoFile : option File) : SceneAction :=
  if nonempty masterPrompt then
    match extracted_prompt masterPrompt with
    | JString finalPrompt =>
        Animate (if nonempty (trim finalPrompt) then finalPrompt else masterPrompt)
                (match videoType with logo => logoFile | _ => None end)
    | _ => UncaughtTypeError
    end
  else NothingToDo.

(** The preview flow: the click, then [handleAnimate] in the App; the requests
    sent to the service. *)
Definition preview_calls (svc : Service) (masterPrompt : jsstring)
  (videoType : VideoType) (logoFile : option File) : list Call :=
  match handleGenerateScene masterPrompt videoType logoFile with
  | Animate finalPrompt imageFile => animate_calls (handleAnimate svc finalPrompt imageFile)
  | _ => []
  end.

End AnimateImagePage.

(** ** Vocabulary of the statements *)

(** A scene with text left after trimming. *)
Definition nonblank (scene : jsstring) : bool := nonempty (trim scene).

(** Every code unit is white space (this includes the empty string). *)
Definition all_white_space (s : jsstring) : bool := forallb is_white_space s.

(** Every per-scene promise settles at some point. *)
Definition every_promise_settles (svc : Service) (scenes : list jsstring) : Prop :=
  ∀ i, i < length scenes → i ∈ settle_order svc.

Definition is_GenerateImages (c : Call) : bool :=
  match c with GenerateImages _ => true | GenerateContent _ => false end.

(** The master-synthesis request is the one sent with a system instruction. *)
Definition is_master_call (c : Call) : bool :=
  match c with
  | GenerateContent request =>
      match content_systemInstruction request with Some _ => true | None => false end
  | GenerateImages _ => false
  end.

(** The style keywords the reference image contributed in step 1. *)
Definition imageStyleKeywords_of (svc : Service) (imageFile : option File)
  (selectedStyle : jsstring) : jsstring :=
  snd (fst (style_step svc imageFile selectedStyle)).

Definition styleGuide_of (svc : Service) (imageFile : option File)
  (selectedStyle : jsstring) : jsstring :=
  fst (fst (style_step svc imageFile selectedStyle)).

(** The outcome of the image call made for the scene in slot [index]. *)
Definition scene_call (svc : Service) (imageFile : option File) (selectedStyle : jsstring)
  (index : nat) (scene : jsstring) : Outcome jsstring :=
  generateImage svc index
    (fullPrompt selectedStyle (imageStyleKeywords_of svc imageFile selectedStyle) scene)
    Ratio_4_3.

(** The entry of the scene-image sequence for slot [index]. *)
Definition scene_image (svc : Service) (selectedStyle imageStyleKeywords : jsstring)
  (index : nat) (scene : jsstring) : option jsstring :=
  image_of_result (fst (imagePromise svc selectedStyle imageStyleKeywords index scene)).

(** The parts one scene contributes to the master request: nothing for a
    blank scene, else its text, followed by its preview image when the
    scene-image sequence holds one at the scene's index. *)
Definition scene_parts (sceneImages : list (option jsstring)) (index : nat)
  (scene : jsstring) : list Part :=
  if nonblank scene then
    TextPart (lit "Scene " ++ nat_to_string (index + 1) ++ lit ": " ++ trim scene)
    :: match sceneImages !! index with
       | Some (Some imageBase64) => [InlineData (lit "image/jpeg") imageBase64]
       | _ => []
       end
  else [].

(** Entries of a scene-image sequence are [null] or non-empty strings. *)
Definition images_truthy (images : list (option jsstring)) : Prop :=
  ∀ i image, images !! i = Some (Some image) → nonempty image = true.

(** [pattern] occurs in [s]. *)
Definition occurs_in (pattern s : jsstring) : Prop :=
  ∃ before after, s = before ++ pattern ++ after.

(** *** A scripted service and the scenario of the specification *)

Definition scripted_service (analysis : Outcome jsstring)
  (images : nat -> Outcome (option jsstring)) (master : Outcome jsstring)
  (order : list nat) : Service :=
  {| read_image_data := fun _ => Fulfilled (lit "QUJD");
     generateContent := fun request =>
       match content_systemInstruction request with
       | None => analysis
       | Some _ => master
       end;
     generateImages := fun slot _ => images slot;
     settle_order := order |}.

(** The scenario's service: the image call for slot 0 is refused, the others
    return an image; the promises settle in the order 2, 0, 1. *)
Definition scenario_service (analysis master : Outcome jsstring) : Service :=
  scripted_service analysis
    (fun slot => if (slot =? 0)%nat then Rejected (lit "quota exceeded")
                 else Fulfilled (Some (lit "SU1H")))
    master [2; 0; 1].

Definition scenario_scenes : list jsstring :=
  [lit "a lit candle in a dark room"; []; lit "a sunrise over mountains"].

Definition scenario_style : jsstring := lit "Noir Thriller".

Definition candle_and_blank : list jsstring :=
  [lit "a lit candle in a dark room"; []].

Definition classic_answer : jsstring := lit "--- SCENE 1 ---".

(** Everything answers, except the image call for slot 0. *)
Definition service_refusing_one_image : Service :=
  scenario_service (Fulfilled (lit "moody, high contrast")) (Fulfilled classic_answer).

(** The analysis of the reference image is refused. *)
Definition service_refusing_analysis : Service :=
  scenario_service (Rejected (lit "unavailable")) (Fulfilled classic_answer).

(** The master synthesis is refused. *)
Definition service_refusing_master : Service :=
  scenario_service (Fulfilled (lit "moody, high contrast")) (Rejected (lit "unavailable")).

(** A string between double quotes. *)
Definition quoted (s : jsstring) : jsstring := 34%N :: s ++ [34%N].

(** A classic-format master prompt with two scene blocks. *)
Definition two_block_text : jsstring :=
  lit "--- SCENE 1 ---" ++ [LF] ++ lit "A lit candle." ++ [LF]
  ++ lit "--- SCENE 2 ---" ++ [LF] ++ lit "A sunrise.".

(** A JSON master prompt whose first generation prompt is blank. *)
Definition blank_prompt_json : jsstring :=
  lit "[{" ++ quoted (lit "generation_prompt") ++ lit ": " ++ quoted (lit "   ") ++ lit "}]".

(** A JSON answer between code fences. *)
Definition fenced_json_answer : jsstring :=
  lit "```json" ++ [LF]
  ++ lit "[{" ++ quoted (lit "shot_number") ++ lit ": 1, "
  ++ quoted (lit "generation_prompt") ++ lit ": " ++ quoted (lit "A lit candle")
  ++ lit "}]" ++ lit "```".

Definition reference_image : File :=
  {| file_name := lit "reference.png"; file_type := lit "image/png" |}.

(** ** StoryboardGenerator: the scene list and the generate button *)

(** [l.filter((_, i) => keep(i))]; [i] is the index of the head of [l]. *)
Fixpoint filter_index {A} (keep : nat → bool) (i : nat) (l : list A) : list A :=
  match l with
  | [] => []
  | x :: rest =>
      if keep i then x :: filter_index keep (S i) rest
      else filter_index keep (S i) rest
  end.

(** [handleSceneChange(index, value)]: the copy of the array after
    [newScenes[index] = value].  An index past the end makes the array
    longer, and the indices skipped are holes ([None]). *)
Definition handleSceneChange (scenes : list jsstring) (index : nat) (value : jsstring)
  : list (option jsstring) :=
  <[index := Some value]>
    ((Some <$> scenes) ++ replicate (S index - length scenes) None).

(** [handleAddScene()] *)
Definition handleAddScene (scenes : list jsstring) : list jsstring := scenes ++ [[]].

(** [handleDeleteScene(index)]: the new [scenes] and [visualStoryboard]. *)
Definition handleDeleteScene (scenes : list jsstring)
  (visualStoryboard : list (option jsstring)) (index : nat)
  : list jsstring * list (option jsstring) :=
  let newScenes := filter_index (λ i, negb (i =? index)) 0 scenes in
  let newVisualStoryboard := filter_index (λ i, negb (i =? index)) 0 visualStoryboard in
  if (length newScenes =? 0) then ([[]], []) else (newScenes, newVisualStoryboard).

(** [scenes.every((scene) => scene.trim() === '')], which disables the
    generate button. *)
Definition allScenesEmpty (scenes : list jsstring) : bool :=
  forallb (λ scene, jsstring_eqb (trim scene) []) scenes.

(** What changes the scene list and the visual storyboard of the panel:
    the user's edits, and the generate handler, which replaces the visual
    storyboard.  The text inputs and the delete buttons are rendered from
    [scenes.map], one per index of the array. *)
Inductive SceneEdit :=
| ChangeScene (index : nat) (value : jsstring)
| AddScene
| DeleteScene (index : nat)
| Generated (visuals : list (option jsstring)).

(** One edit; [None] when no control is rendered for the index. *)
Definition edit_scenes (state : list jsstring * list (option jsstring)) (e : SceneEdit)
  : option (list jsstring * list (option jsstring)) :=
  match e with
  | ChangeScene index value =>
      if decide (index < length state.1) then
        newScenes ← mapM id (handleSceneChange state.1 index value);
        Some (newScenes, state.2)
      else None
  | AddScene => Some (handleAddScene state.1, state.2)
  | DeleteScene index =>
      if decide (index < length state.1) then
        Some (handleDeleteScene state.1 state.2 index)
      else None
  | Generated visuals => Some (state.1, visuals)
  end.

(** A sequence of edits, from the first to the last. *)
Fixpoint edit_all (state : list jsstring * list (option jsstring)) (edits : list SceneEdit)
  : option (list jsstring * list (option jsstring)) :=
  match edits with
  | [] => Some state
  | e :: rest =>
      match edit_scenes state e with
      | Some state' => edit_all state' rest
      | None => None
      end
  end.

(** The state a mounted panel starts from: one empty scene, no visuals. *)
Definition initial_scenes : list jsstring * list (option jsstring) := ([[]], []).



(** ** VideoTypeSelector and the outputs of the page *)

Record VideoTypeCard := {
  card_id : VideoType;
  card_name : jsstring;
  card_description : jsstring;
  card_enabled : bool;
}.

Definition types : list VideoTypeCard :=
  [ {| card_id := storyboard; card_name := lit "Cinematic Storyboard";
       card_description := lit "Create a narrative from scenes."; card_enabled := true |};
    {| card_id := logo; card_name := lit "Logo Animation";
       card_description := lit "Animate your brand identity."; card_enabled := true |};
    {| card_id := introOutro; card_name := lit "YouTube Intro/Outro";
       card_description := lit "Brand your channel videos."; card_enabled := true |};
    {| card_id := musicVideo; card_name := lit "Music Video";
       card_description := lit "Create visuals for your audio."; card_enabled := false |};
    {| card_id := cashCow; card_name := lit "Cash Cow Content";
       card_description := lit "Automated faceless videos."; card_enabled := false |} ].

#[global] Instance VideoType_eq_dec : EqDecision VideoType.
Proof. solve_decision. Defined.

(** The state of the page component. *)
Record Page := {
  page_masterPrompt : jsstring;
  page_visualStoryboard : list (option jsstring);
  page_videoType : VideoType;
  page_logoFile : option File;
}.

Definition initial_page : Page :=
  {| page_masterPrompt := []; page_visualStoryboard := [];
     page_videoType := storyboard; page_logoFile := None |}.

(** [setVideoType(type)] and the effect that depends on [videoType]: when
    the type changes the outputs are cleared. *)
Definition select_video_type (page : Page) (type : VideoType) : Page :=
  if decide (type = page_videoType page) then page
  else {| page_masterPrompt := []; page_visualStoryboard := [];
          page_videoType := type; page_logoFile := page_logoFile page |}.

(** A click on a card of the selector: [onSelect] is called for an enabled
    type only. *)
Definition click_card (page : Page) (type : VideoTypeCard) : Page :=
  if card_enabled type then select_video_type page (card_id type) else page.

(** What reaches the state of the page: a click on the [k]-th card, an edit
    of the prompt text area, and the callbacks handed to the generators. *)
Inductive PageEvent :=
| ClickCard (k : nat)
| EditPrompt (text : jsstring)
| PromptGenerated (prompt : jsstring)
| VisualsGenerated (visuals : list (option jsstring))
| LogoSelected (file : option File).

Definition page_step (page : Page) (e : PageEvent) : Page :=
  match e with
  | ClickCard k =>
      match types !! k with
      | Some type => click_card page type
      | None => page
      end
  | EditPrompt text | PromptGenerated text =>
      {| page_masterPrompt := text;
         page_visualStoryboard := page_visualStoryboard page;
         page_videoType := page_videoType page;
         page_logoFile := page_logoFile page |}
  | VisualsGenerated visuals =>
      {| page_masterPrompt := page_masterPrompt page;
         page_visualStoryboard := visuals;
         page_videoType := page_videoType page;
         page_logoFile := page_logoFile page |}
  | LogoSelected file =>
      {| page_masterPrompt := page_masterPrompt page;
         page_visualStoryboard := page_visualStoryboard page;
         page_videoType := page_videoType page;
         page_logoFile := file |}
  end.

(** [renderOutputSection()] returns the prompt text area, not [null]. *)
Definition renders_output (videoType : VideoType) : bool :=
  match videoType with
  | storyboard | logo | introOutro => true
  | musicVideo | cashCow => false
  end.

(** ** App: the recipes for logo animations and YouTube intros *)

Inductive Recipe := LogoAnimation | YouTubeIntro.

(** A request of one of the two recipes.  The system instruction is one of
    the two constant texts of the handler that sends it. *)
Record RecipeRequest := {
  recipe_model : jsstring;
  recipe_parts : list Part;
  recipe_systemInstruction : Recipe * SystemInstruction;
}.

Record RecipeService := {
  (** the base64 payload that [FileReader.readAsDataURL] delivers *)
  read_logo_data : File → Outcome jsstring;
  (** [response.text] of [ai.models.generateContent] *)
  recipe_generateContent : RecipeRequest → Outcome jsstring;
}.

(** [${promptFormat}] *)
Definition format_name (promptFormat : PromptFormat) : jsstring :=
  match promptFormat with classic => lit "classic" | json => lit "json" end.

Definition instruction_of (promptFormat : PromptFormat) : SystemInstruction :=
  match promptFormat with
  | json => jsonSystemInstruction
  | classic => classicSystemInstruction
  end.

Definition logo_promptText (animationStyle background sfx tagline : jsstring)
  (promptFormat : PromptFormat) : jsstring :=
  [LF] ++ lit "      Create a logo animation prompt series based on these details:"
  ++ [LF] ++ lit "      - Animation Style: " ++ animationStyle
  ++ [LF] ++ lit "      - Background Description: " ++ background
  ++ [LF] ++ lit "      - Sound Effects (SFX) Description: " ++ sfx
  ++ [LF] ++ lit "      - Tagline (optional): "
  ++ (if nonempty tagline then tagline else lit "None")
  ++ [LF] ++ lit "      - Output Format: " ++ format_name promptFormat
  ++ [LF] ++ lit "    ".

Definition logo_request (logoFile : File) (data : jsstring)
  (animationStyle background sfx tagline : jsstring) (promptFormat : PromptFormat)
  : RecipeRequest :=
  {| recipe_model := lit "gemini-2.5-flash";
     recipe_parts :=
       [TextPart (logo_promptText animationStyle background sfx tagline promptFormat);
        InlineData (file_type logoFile) data];
     recipe_systemInstruction := (LogoAnimation, instruction_of promptFormat) |}.

(** [handleGenerateLogoPrompt(...)] with the requests it sends. *)
Definition handleGenerateLogoPrompt (svc : RecipeService) (logoFile : File)
  (animationStyle background sfx tagline : jsstring) (promptFormat : PromptFormat)
  : Outcome jsstring * list RecipeRequest :=
  match read_logo_data svc logoFile with
  | Rejected e => (Rejected e, [])
  | Fulfilled data =>
      let request :=
        logo_request logoFile data animationStyle background sfx tagline promptFormat in
      (recipe_generateContent svc request, [request])
  end.

Definition intro_promptText (channelName videoTopic visualStyle energy specificElements
  : jsstring) (promptFormat : PromptFormat) : jsstring :=
  [LF] ++ lit "      Create a YouTube intro prompt series with the following specifications:"
  ++ [LF] ++ lit "      - Channel Name: " ++ channelName
  ++ [LF] ++ lit "      - Video Topic/Theme: " ++ videoTopic
  ++ [LF] ++ lit "      - Visual Style: " ++ visualStyle
  ++ [LF] ++ lit "      - Energy Level: " ++ energy
  ++ [LF] ++ lit "      - Specific Elements to Include: " ++ specificElements
  ++ [LF] ++ lit "      - Output Format: " ++ format_name promptFormat
  ++ [LF] ++ lit "    ".

Definition intro_request (channelName videoTopic visualStyle energy specificElements
  : jsstring) (promptFormat : PromptFormat) : RecipeRequest :=
  {| recipe_model := lit "gemini-2.5-flash";
     recipe_parts :=
       [TextPart (intro_promptText channelName videoTopic visualStyle energy
                    specificElements promptFormat)];
     recipe_systemInstruction := (YouTubeIntro, instruction_of promptFormat) |}.

(** [handleGenerateYouTubeIntroPrompt(...)] with the request it sends. *)
Definition handleGenerateYouTubeIntroPrompt (svc : RecipeService)
  (channelName videoTopic visualStyle energy specificElements : jsstring)
  (promptFormat : PromptFormat) : Outcome jsstring * list RecipeRequest :=
  let request :=
    intro_request channelName videoTopic visualStyle energy specificElements promptFormat in
  (recipe_generateContent svc request, [request]).

(** ** LogoAnimator and YouTubeIntroGenerator *)

(** [handleGenerate] of the logo panel: the master prompt of the page
    afterwards, given the one it holds before, and the requests sent. *)
Definition LogoAnimator_handleGenerate (svc : RecipeService) (logoFile : option File)
  (animationStyle background sfx tagline : jsstring) (promptFormat : PromptFormat)
  (masterPrompt : jsstring) : jsstring * list RecipeRequest :=
  match logoFile with
  | None => (masterPrompt, [])
  | Some file =>
      match handleGenerateLogoPrompt svc file animationStyle background sfx tagline
              promptFormat with
      | (Fulfilled prompt, sent) => (prompt, sent)
      | (Rejected _, sent) => ([], sent)
      end
  end.

(** [handleGenerate] of the intro panel. *)
Definition YouTubeIntroGenerator_handleGenerate (svc : RecipeService)
  (channelName videoTopic visualStyle energy specificElements : jsstring)
  (promptFormat : PromptFormat) : jsstring * list RecipeRequest :=
  match handleGenerateYouTubeIntroPrompt svc channelName videoTopic visualStyle energy
          specificElements promptFormat with
  | (Fulfilled prompt, sent) => (prompt, sent)
  | (Rejected _, sent) => ([], sent)
  end.

(** ** Vocabulary of the further statements *)

(** The service with its per-scene promises settling in another order. *)
Definition with_settle_order (svc : Service) (order : list nat) : Service :=
  {| read_image_data := read_image_data svc;
     generateContent := generateContent svc;
     generateImages := generateImages svc;
     settle_order := order |}.


Definition is_image_part (p : Part) : bool :=
  match p with InlineData _ _ => true | TextPart _ => false end.

Definition is_image (entry : option jsstring) : bool :=
  match entry with Some _ => true | None => false end.

(** A marker line: [--- SCENE 3 ---], [--- PROMPT 2: Reveal (2-4s) ---]. *)
Definition marker_line (word digits title : jsstring) : jsstring :=
  lit "--- " ++ word ++ lit " " ++ digits ++ title ++ lit "---".

Definition marker_word (word : jsstring) : Prop :=
  word = lit "SCENE" ∨ word = lit "PROMPT".

Definition no_line_terminator (s : jsstring) : bool :=
  forallb (λ c, negb (is_line_terminator c)) s.

(** A line the marker expression is written for. *)
Definition is_marker_line (m : jsstring) : Prop :=
  ∃ word digits title,
    m = marker_line word digits title
    ∧ marker_word word
    ∧ digits ≠ [] ∧ forallb is_digit digits = true
    ∧ no_line_terminator title = true.

(** The marker expression matches nowhere in [s]. *)
Definition no_marker (s : jsstring) : Prop :=
  ∀ i, i < length s → match_marker (drop i s) = None.

(** A parsed value of neither shape the example-scene button looks for: not
    a non-empty array, and without scenes. *)
Definition unrecognised {NM : NumberModel} (parsed : JSValue NM) : Prop :=
  match parsed with
  | JArray (_ :: _) => False
  | JObject properties =>
      get_own (lit "scenes") properties = None
      ∨ get_own (lit "scenes") properties = Some (JArray [])
  | _ => True
  end.

(** The first scene of a parsed value of one of the two shapes, when it is
    an object: its properties. *)
Definition first_scene {NM : NumberModel} (parsed : JSValue NM)
  : option (list (jsstring * JSValue NM)) :=
  match parsed with
  | JArray (JObject properties :: _) => Some properties
  | JObject wrapper =>
      match get_own (lit "scenes") wrapper with
      | Some (JArray (JObject properties :: _)) => Some properties
      | _ => None
      end
  | _ => None
  end.

(** The first scene of a parsed value of one of the two shapes is [null]. *)
Definition first_scene_is_null {NM : NumberModel} (parsed : JSValue NM) : Prop :=
  match parsed with
  | JArray (JNull :: _) => True
  | JObject wrapper =>
      match get_own (lit "scenes") wrapper with
      | Some (JArray (JNull :: _)) => True
      | _ => False
      end
  | _ => False
  end.

(** A text between the code-fence markers, the opening one on a line of
    its own. *)
Definition fenced (body : jsstring) : jsstring :=
  lit "```json" ++ [LF] ++ body ++ lit "```".

(** The characters a JSON value can end with: a closing bracket, brace or
    quote, a digit, and the last letter of [true], [false] and [null]. *)
Definition closes_value (c : N) : bool :=
  ((c =? 93) || (c =? 125) || (c =? 34) || is_digit c || (c =? 101) || (c =? 108))%N.

(** [s] runs to [r] over at least one character, and the last character
    before [r] is one that closes a value. *)
Definition ends_before (s r : jsstring) : Prop :=
  ∃ consumed c, s = consumed ++ c :: r ∧ closes_value c = true.

(** The check that the marker expression matches nowhere in [s]. *)
Definition marker_free (s : jsstring) : bool :=
  forallb (λ i, match match_marker (drop i s) with Some _ => false | None => true end)
    (seq 0 (length s)).

(** The check that [pattern] occurs in [s]. *)
Fixpoint occurs (pattern s : jsstring) : bool :=
  starts_with pattern s
  || match s with
     | [] => false
     | _ :: rest => occurs pattern rest
     end.

(** *** Further scenarios *)

(** Recipes whose logo file reads well and whose request is answered as
    scripted. *)
Definition scripted_recipes (answer : Outcome jsstring) : RecipeService :=
  {| read_logo_data := λ _, Fulfilled (lit "TE9HTw==");
     recipe_generateContent := λ _, answer |}.

Definition logo_file : File :=
  {| file_name := lit "logo.png"; file_type := lit "image/png" |}.

(** A classic answer of the logo recipe with two segments. *)
Definition intro_marker : jsstring := lit "--- PROMPT 1: Intro (0-2s) ---".
Definition reveal_marker : jsstring := lit "--- PROMPT 2: Reveal (2-4s) ---".

Definition intro_block : jsstring := lit "- Setting: a dark stage." ++ [LF].

Definition logo_answer : jsstring :=
  intro_marker ++ (LF :: intro_block) ++ reveal_marker ++ [LF] ++ lit "- Setting: light.".

(** A JSON array between code-fence markers, with a line break at the end. *)
Definition fenced_with_line_break : jsstring :=
  lit "```json" ++ [LF] ++ (lit "[1]" ++ [LF]) ++ lit "```" ++ [LF].

(** A JSON master prompt whose first generation prompt is a number. *)
Definition number_prompt_json : jsstring :=
  lit "[{" ++ quoted (lit "generation_prompt") ++ lit ": 5}]".

(** A JSON string that holds a marker line. *)
Definition marker_in_json_string : jsstring := quoted (lit "--- SCENE 1 --- a candle").
(** * Properties *)

(** ** Strings *)

Lemma trimStart_white_space (s : jsstring) :
  all_white_space s = true → trimStart s = [].
Proof.
  induction s as [|c r IH]; simpl; [done|].
  intros [Hc Hr]%andb_prop. rewrite Hc. auto.
Qed.

Lemma trim_white_space (s : jsstring) : all_white_space s = true → trim s = [].
Proof.
  intros H. unfold trim, trimEnd. by rewrite (trimStart_white_space s H).
Qed.

Lemma filter_nonblank_nil (scenes : list jsstring) :
  Forall (λ s, all_white_space s = true) scenes →
  List.filter (λ s, nonempty (trim s)) scenes = [].
Proof.
  induction 1 as [|s l Hs _ IH]; simpl; [done|].
  by rewrite (trim_white_space s Hs).
Qed.

(** ** [Promise.allSettled] *)

Lemma length_settle {A} (promises : list (Outcome A)) values i :
  length (settle promises values i) = length values.
Proof. unfold settle. destruct (promises !! i); [apply length_insert|done]. Qed.

Lemma settle_lookup {A} (promises : list (Outcome A)) order : ∀ values i,
  length values = length promises →
  foldl (settle promises) values order !! i
  = if decide (i ∈ order) then Some <$> promises !! i else values !! i.
Proof.
  induction order as [|j rest IH]; intros values i Hlen; simpl.
  - destruct (decide (i ∈ [])) as [Hin|]; [|done]. by apply not_elem_of_nil in Hin.
  - rewrite IH by (by rewrite length_settle).
    destruct (decide (i ∈ rest)) as [Hin|Hnin].
    + rewrite decide_True; [done|]. rewrite elem_of_cons. by right.
    + unfold settle. destruct (decide (i = j)) as [->|Hne].
      * rewrite decide_True by (rewrite elem_of_cons; by left).
        destruct (promises !! j) as [o|] eqn:Hj; simpl.
        -- apply list_lookup_insert_eq. rewrite Hlen. by eapply lookup_lt_Some.
        -- apply lookup_ge_None. rewrite Hlen. by apply lookup_ge_None.
      * rewrite decide_False by (rewrite elem_of_cons; tauto).
        destruct (promises !! j); [by apply list_lookup_insert_ne|done].
Qed.

Lemma length_foldl_settle {A} (promises : list (Outcome A)) order : ∀ values,
  length (foldl (settle promises) values order) = length values.
Proof.
  induction order as [|j rest IH]; intros values; simpl; [done|].
  by rewrite IH, length_settle.
Qed.

Lemma mapM_id_Some {A} (l : list A) : mapM id (Some <$> l) = Some l.
Proof. apply mapM_Some. induction l; constructor; auto. Qed.

(** The joint promise resolves with the outcomes in promise order, whatever
    the order in which the promises settle. *)
Lemma allSettled_resolves {A} (promises : list (Outcome A)) order :
  (∀ i, i < length promises → i ∈ order) →
  allSettled promises order = Some promises.
Proof.
  intros Hall. unfold allSettled.
  replace (foldl _ _ _) with (Some <$> promises); [apply mapM_id_Some|].
  apply list_eq. intros i. rewrite settle_lookup by apply length_replicate.
  rewrite list_lookup_fmap.
  destruct (decide (i ∈ order)) as [|Hnin]; [done|].
  destruct (decide (i < length promises)) as [Hlt|Hge]; [by destruct Hnin; auto|].
  assert (promises !! i = None) as -> by (apply lookup_ge_None; lia). simpl.
  symmetry. apply lookup_replicate_None. lia.
Qed.

(** When the joint promise resolves, it resolves with the outcomes in promise
    order. *)
Lemma allSettled_Some {A} (promises : list (Outcome A)) order results :
  allSettled promises order = Some results → results = promises.
Proof.
  unfold allSettled. intros H%mapM_Some.
  apply list_eq. intros i.
  pose proof (settle_lookup promises order (replicate (length promises) None) i
                (length_replicate _ _)) as Hi.
  destruct (results !! i) as [y|] eqn:Hy.
  - destruct (Forall2_lookup_r _ _ _ i y H Hy) as (x & Hx & Hxy). simpl in Hxy. subst x.
    rewrite Hx in Hi. destruct (decide (i ∈ order)).
    + destruct (promises !! i); simpl in Hi; congruence.
    + symmetry in Hi. apply lookup_replicate in Hi as [? _]. done.
  - destruct (promises !! i) as [o|] eqn:Ho; [|done].
    assert (i < length results) as Hlt; [|apply lookup_lt_is_Some in Hlt as [? ?]; congruence].
    apply Forall2_length in H. rewrite <- H, length_foldl_settle, length_replicate.
    by eapply lookup_lt_Some.
Qed.

(** ** The orchestrator *)

Section Orchestrator.
Context (NM : NumberModel) (svc : Service).
Implicit Types (scenes : list jsstring) (imageFile : option File)
  (selectedStyle : jsstring) (promptFormat : PromptFormat).

Lemma style_step_eta imageFile selectedStyle :
  style_step svc imageFile selectedStyle
  = (styleGuide_of svc imageFile selectedStyle,
     imageStyleKeywords_of svc imageFile selectedStyle,
     snd (style_step svc imageFile selectedStyle)).
Proof.
  unfold styleGuide_of, imageStyleKeywords_of.
  by destruct (style_step svc imageFile selectedStyle) as [[? ?] ?].
Qed.

(** The requests of step 1 carry no system instruction. *)
Lemma style_step_calls imageFile selectedStyle :
  Forall (λ c, is_GenerateImages c = false ∧ is_master_call c = false)
    (snd (style_step svc imageFile selectedStyle)).
Proof.
  unfold style_step, analyzeImageStyle. destruct imageFile as [file|]; simpl; [|constructor].
  destruct (read_image_data svc file); simpl; [|constructor].
  destruct (generateContent svc _); simpl; repeat constructor.
Qed.

Lemma sent_by_scenes selectedStyle kw scenes :
  concat (snd <$> imap (imagePromise svc selectedStyle kw) scenes)
  = (λ s, GenerateImages (image_request (fullPrompt selectedStyle kw s) Ratio_4_3))
      <$> List.filter nonblank scenes.
Proof.
  replace (snd <$> imap (imagePromise svc selectedStyle kw) scenes)
    with ((λ s, snd (imagePromise svc selectedStyle kw 0 s)) <$> scenes).
  - induction scenes as [|s l IH]; [done|].
    rewrite fmap_cons, concat_cons, IH. cbn [List.filter].
    unfold imagePromise, nonblank. by destruct (nonempty (trim s)).
  - apply list_eq. intros i.
    rewrite !list_lookup_fmap, list_lookup_imap.
    destruct (scenes !! i) as [s|]; simpl; [|done].
    unfold imagePromise. by destruct (nonempty (trim s)).
Qed.

Lemma sent_by_scenes_kinds selectedStyle kw scenes :
  Forall (λ c, is_GenerateImages c = true ∧ is_master_call c = false)
    (concat (snd <$> imap (imagePromise svc selectedStyle kw) scenes)).
Proof.
  rewrite sent_by_scenes. apply Forall_fmap, list.Forall_forall. by intros.
Qed.

Lemma scene_images_eq selectedStyle kw scenes :
  image_of_result <$> (fst <$> imap (imagePromise svc selectedStyle kw) scenes)
  = imap (scene_image svc selectedStyle kw) scenes.
Proof.
  apply list_eq. intros i.
  rewrite !list_lookup_fmap, !list_lookup_imap. by destruct (scenes !! i).
Qed.

Lemma no_nonblank_scene scenes :
  (length (List.filter (λ s, nonempty (trim s)) scenes) =? 0) = true ↔
  List.filter nonblank scenes = [].
Proof.
  change (λ s, nonempty (trim s)) with nonblank.
  destruct (List.filter nonblank scenes); simpl; split; done.
Qed.

(** The run of the orchestrator once validation has passed and every
    per-scene promise settles. *)
Lemma handleGenerateStoryboard_settled scenes imageFile selectedStyle promptFormat :
  List.filter nonblank scenes ≠ [] →
  every_promise_settles svc scenes →
  let kw := imageStyleKeywords_of svc imageFile selectedStyle in
  let images := imap (scene_image svc selectedStyle kw) scenes in
  let request :=
    master_request promptFormat
      (build_promptParts (styleGuide_of svc imageFile selectedStyle) scenes images) in
  handleGenerateStoryboard NM svc scenes imageFile selectedStyle promptFormat
  = {| completion :=
         match generateContent svc request with
         | Fulfilled text =>
             Returned {| prompts := postprocess NM promptFormat text;
                         sceneImages := images |}
         | Rejected _ => Threw storyboard_failure_message
         end;
       generationError :=
         match generateContent svc request with
         | Fulfilled _ => None
         | Rejected _ => Some storyboard_failure_lines
         end;
       calls :=
         snd (style_step svc imageFile selectedStyle)
         ++ concat (snd <$> imap (imagePromise svc selectedStyle kw) scenes)
         ++ [GenerateContent request] |}.
Proof.
  intros Hsome Hsettle kw images request.
  unfold handleGenerateStoryboard.
  destruct (length _ =? 0) eqn:Hlen; [by apply no_nonblank_scene in Hlen|].
  rewrite style_step_eta. fold kw.
  rewrite allSettled_resolves; cycle 1.
  { intros i. rewrite length_fmap, length_imap. apply Hsettle. }
  rewrite scene_images_eq. fold images. fold request.
  destruct (generateContent svc request); by rewrite <- app_assoc.
Qed.

(** The three ways a run can go. *)
Lemma handleGenerateStoryboard_cases scenes imageFile selectedStyle promptFormat :
  let run := handleGenerateStoryboard NM svc scenes imageFile selectedStyle promptFormat in
  let kw := imageStyleKeywords_of svc imageFile selectedStyle in
  let images := imap (scene_image svc selectedStyle kw) scenes in
  let request :=
    master_request promptFormat
      (build_promptParts (styleGuide_of svc imageFile selectedStyle) scenes images) in
  let sent :=
    snd (style_step svc imageFile selectedStyle)
    ++ concat (snd <$> imap (imagePromise svc selectedStyle kw) scenes) in
  (List.filter nonblank scenes = [] ∧
   run = {| completion := Threw add_scene_message;
            generationError := Some [add_scene_message];
            calls := [] |})
  ∨ (List.filter nonblank scenes ≠ [] ∧
     run = {| completion := Pending; generationError := None; calls := sent |})
  ∨ (List.filter nonblank scenes ≠ [] ∧
     run = {| completion :=
                match generateContent svc request with
                | Fulfilled text =>
                    Returned {| prompts := postprocess NM promptFormat text;
                                sceneImages := images |}
                | Rejected _ => Threw storyboard_failure_message
                end;
              generationError :=
                match generateContent svc request with
                | Fulfilled _ => None
                | Rejected _ => Some storyboard_failure_lines
                end;
              calls := sent ++ [GenerateContent request] |}).
Proof.
  intros run kw images request sent. subst run. unfold handleGenerateStoryboard.
  destruct (length _ =? 0) eqn:Hlen.
  { left. by apply no_nonblank_scene in Hlen. }
  right.
  assert (List.filter nonblank scenes ≠ []) as Hsome.
  { intros H. apply no_nonblank_scene in H. congruence. }
  rewrite style_step_eta. fold kw. fold sent.
  destruct (allSettled _ _) as [results|] eqn:Hsettled; [right|by left].
  apply allSettled_Some in Hsettled as ->.
  rewrite scene_images_eq. fold images. fold request.
  split; [done|]. by destruct (generateContent svc request).
Qed.

(** Before the master request, no request with a system instruction is sent. *)
Lemma sent_before_master imageFile selectedStyle kw scenes c :
  c ∈ snd (style_step svc imageFile selectedStyle)
      ++ concat (snd <$> imap (imagePromise svc selectedStyle kw) scenes) →
  is_master_call c = false.
Proof.
  rewrite elem_of_app. intros [Hc|Hc].
  - pose proof (style_step_calls imageFile selectedStyle) as H.
    rewrite list.Forall_forall in H. by destruct (H c Hc).
  - pose proof (sent_by_scenes_kinds selectedStyle kw scenes) as H.
    rewrite list.Forall_forall in H. by destruct (H c Hc).
Qed.

(** Whatever happens, the image requests sent are those of the non-blank
    scenes, in scene order. *)
Lemma image_calls_of_run scenes imageFile selectedStyle promptFormat :
  List.filter is_GenerateImages
    (calls (handleGenerateStoryboard NM svc scenes imageFile selectedStyle promptFormat))
  = (λ s, GenerateImages
            (image_request
               (fullPrompt selectedStyle
                  (imageStyleKeywords_of svc imageFile selectedStyle) s) Ratio_4_3))
      <$> List.filter nonblank scenes.
Proof.
  pose proof (style_step_calls imageFile selectedStyle) as Hstyle.
  assert (List.filter is_GenerateImages (snd (style_step svc imageFile selectedStyle)) = [])
    as Hnone.
  { induction Hstyle as [|c l [Hc _] _ IH]; simpl; [done|]. by rewrite Hc. }
  assert (∀ l : list Call, Forall (λ c, is_GenerateImages c = true) l →
            List.filter is_GenerateImages l = l) as Hall.
  { induction 1 as [|c l Hc _ IH]; simpl; [done|]. by rewrite Hc, IH. }
  unfold handleGenerateStoryboard.
  destruct (length _ =? 0) eqn:Hlen.
  { apply no_nonblank_scene in Hlen. by rewrite Hlen. }
  rewrite style_step_eta.
  set (kw := imageStyleKeywords_of svc imageFile selectedStyle).
  assert (List.filter is_GenerateImages
            (snd (style_step svc imageFile selectedStyle)
             ++ concat (snd <$> imap (imagePromise svc selectedStyle kw) scenes))
          = (λ s, GenerateImages (image_request (fullPrompt selectedStyle kw s) Ratio_4_3))
              <$> List.filter nonblank scenes) as Hsent.
  { rewrite List.filter_app, Hnone. simpl. rewrite Hall; [apply sent_by_scenes|].
    pose proof (sent_by_scenes_kinds selectedStyle kw scenes) as Hkinds.
    rewrite list.Forall_forall in Hkinds. apply list.Forall_forall. intros c Hc.
    by destruct (Hkinds c Hc). }
  destruct (allSettled _ _); simpl; [|done].
  destruct (generateContent svc _); simpl;
    by rewrite List.filter_app, Hsent; simpl; rewrite app_nil_r.
Qed.

End Orchestrator.

Lemma push_scenes_spec (images : list (option jsstring)) (scenes : list jsstring) :
  images_truthy images →
  ∀ index promptParts,
    push_scenes images index scenes promptParts
    = promptParts ++ concat (imap (λ i, scene_parts images (index + i)) scenes).
Proof.
  intros Himg.
  induction scenes as [|scene rest IH]; intros index promptParts; simpl.
  - by rewrite app_nil_r.
  - rewrite IH. rewrite Nat.add_0_r.
    rewrite (imap_ext (_ ∘ S) (λ i, scene_parts images (S index + i)) rest); cycle 1.
    { intros i x _. simpl. f_equal. lia. }
    rewrite app_assoc. f_equal.
    unfold scene_parts, nonblank. destruct (nonempty (trim scene)); [|by rewrite app_nil_r].
    destruct (images !! index) as [[img|]|] eqn:Hi; [rewrite (Himg _ _ Hi)|..];
      by rewrite <- ?app_assoc.
Qed.

Lemma scene_images_truthy (svc : Service) selectedStyle kw (scenes : list jsstring) :
  images_truthy (imap (scene_image svc selectedStyle kw) scenes).
Proof.
  intros i image. rewrite list_lookup_imap.
  destruct (scenes !! i) as [s|]; simpl; [|done].
  unfold scene_image, imagePromise, generateImage.
  destruct (nonempty (trim s)); simpl; [|done].
  destruct (generateImages svc i _) as [[img|]|]; simpl; try done.
  destruct (nonempty img) eqn:Hne; simpl; [|done]. by intros [= <-].
Qed.

Lemma build_promptParts_spec styleGuide (scenes : list jsstring) images :
  images_truthy images →
  build_promptParts styleGuide scenes images
  = TextPart framing_instruction
    :: TextPart (lit "--- STYLE GUIDANCE ---" ++ [LF] ++ styleGuide)
    :: concat (imap (scene_parts images) scenes).
Proof.
  intros Himg. unfold build_promptParts. by rewrite push_scenes_spec.
Qed.

Lemma nonblank_scene_passes_validation (scenes : list jsstring) i s :
  scenes !! i = Some s → nonblank s = true → List.filter nonblank scenes ≠ [].
Proof.
  intros Hi Hs Hnil.
  assert (In s (List.filter nonblank scenes)) as Hin.
  { apply List.filter_In. split; [|done]. apply list_elem_of_In. by eapply list_elem_of_lookup_2. }
  by rewrite Hnil in Hin.
Qed.

Lemma scene_image_spec (svc : Service) (imageFile : option File) selectedStyle i s :
  scene_image svc selectedStyle (imageStyleKeywords_of svc imageFile selectedStyle) i s
  = if nonblank s then
      match scene_call svc imageFile selectedStyle i s with
      | Fulfilled image => Some image
      | Rejected _ => None
      end
    else None.
Proof.
  unfold scene_image, imagePromise, scene_call, nonblank.
  destruct (nonempty (trim s)); [|done]. by destruct (generateImage _ _ _ _).
Qed.

Lemma filter_keeps_all {A} (f : A → bool) (l : list A) :
  length l = length (List.filter f l) ↔ Forall (λ x, f x = true) l.
Proof.
  induction l as [|x l IH]; cbn [List.filter length]; [by split; [constructor|]|].
  pose proof (List.filter_length_le f l) as Hle.
  rewrite list.Forall_cons. destruct (f x); cbn [length].
  - rewrite <- IH. split; [intros [= ?]; by split|intros [_ ?]; by f_equal].
  - split; [lia|intros [? _]; done].
Qed.


(** ** Trimming *)

Lemma trimStart_fixed (c : N) (r : jsstring) :
  is_white_space c = false → trimStart (c :: r) = c :: r.
Proof. intros H. simpl. by rewrite H. Qed.

Lemma trimStart_split (s : jsstring) :
  ∃ ws, s = ws ++ trimStart s ∧ all_white_space ws = true.
Proof.
  induction s as [|c r (ws & Hr & Hws)]; [by exists []|]. simpl.
  destruct (is_white_space c) eqn:Hc; [|by exists []].
  exists (c :: ws). split; [simpl; by f_equal|]. simpl. by rewrite Hc.
Qed.

Lemma trimStart_head (s : jsstring) :
  trimStart s = [] ∨ ∃ c r, trimStart s = c :: r ∧ is_white_space c = false.
Proof.
  induction s as [|c r IH]; [by left|]. simpl.
  destruct (is_white_space c) eqn:Hc; [done|]. right. by exists c, r.
Qed.

(** A prefix of a string that starts with text starts with text. *)
Lemma trimStart_prefix (p q : jsstring) :
  trimStart (p ++ q) = p ++ q → trimStart p = p.
Proof.
  destruct p as [|c p]; [done|]. simpl.
  destruct (is_white_space c) eqn:Hc; [|done]. intros H.
  destruct (trimStart_split (p ++ q)) as (ws & Hsplit & _).
  apply (f_equal length) in H. apply (f_equal length) in Hsplit.
  simpl in H. rewrite !length_app in *. lia.
Qed.

Lemma trim_idempotent (s : jsstring) : trim (trim s) = trim s.
Proof.
  unfold trim, trimEnd.
  set (u := trimStart s).
  assert (trimStart u = u) as Hu.
  { unfold u. destruct (trimStart_head s) as [->|(c & r & -> & Hc)]; [done|].
    by apply trimStart_fixed. }
  destruct (trimStart_split (rev u)) as (ws & Hsplit & _).
  set (w := trimStart (rev u)) in *.
  assert (trimStart w = w) as Hw.
  { unfold w. destruct (trimStart_head (rev u)) as [->|(c & r & -> & Hc)]; [done|].
    by apply trimStart_fixed. }
  assert (trimStart (rev w) = rev w) as ->.
  { apply (trimStart_prefix _ (rev ws)). rewrite <- rev_app_distr, <- Hsplit.
    by rewrite rev_involutive. }
  by rewrite rev_involutive, Hw.
Qed.

Lemma trim_nil : trim [] = [].
Proof. reflexivity. Qed.

(** ** Splitting at the markers *)

Lemma split_go_no_marker (pre s : jsstring) : ∀ piece,
  (∀ i, i < length pre → match_marker (drop i (pre ++ s)) = None) →
  split_go (pre ++ s) 0 piece = split_go s 0 (rev pre ++ piece).
Proof.
  induction pre as [|c pre IH]; intros piece Hnone; [done|].
  assert (match_marker (c :: pre ++ s) = None) as H0 by (apply (Hnone 0); simpl; lia).
  cbn [app split_go]. rewrite H0.
  rewrite IH.
  - simpl. by rewrite <- app_assoc.
  - intros i Hi. apply (Hnone (S i)). simpl. lia.
Qed.

Lemma split_go_skip (n : nat) : ∀ (s piece : jsstring),
  n ≤ length s → split_go s n piece = split_go (drop n s) 0 piece.
Proof.
  induction n as [|n IH]; intros s piece Hn; [by rewrite drop_0|].
  destruct s as [|c r]; [simpl in Hn; lia|]. simpl. apply IH. simpl in Hn. lia.
Qed.

Lemma last_dashes_end_app (p s : jsstring) n :
  last_dashes_end s = Some n →
  Forall (λ c, is_line_terminator c = false) p →
  last_dashes_end (p ++ s) = Some (length p + n).
Proof.
  intros Hs. induction 1 as [|c p Hc _ IH]; [done|].
  cbn [app last_dashes_end length]. by rewrite Hc, IH.
Qed.

Lemma dashes_found (s : jsstring) :
  starts_with (lit "---") s = true → is_Some (last_dashes_end s).
Proof.
  destruct s as [|c r]; [done|]. intros Hstart. cbn [last_dashes_end].
  assert (c = 45%N) as ->.
  { revert Hstart. unfold starts_with. change (lit "---") with [45; 45; 45]%N.
    cbn [strip_prefix]. by destruct (N.eqb_spec 45 c). }
  change (is_line_terminator 45) with false. cbv iota.
  destruct (last_dashes_end r); [eauto|]. rewrite Hstart. eauto.
Qed.

(** The marker expression matches at a scene marker, whatever follows. *)
Lemma match_marker_scene (digit : N) (s : jsstring) :
  is_digit digit = true →
  ∃ n, match_marker (lit "--- SCENE " ++ digit :: lit " ---" ++ s) = Some (S n).
Proof.
  intros Hdigit.
  change (lit "--- SCENE ") with [45; 45; 45; 32; 83; 67; 69; 78; 69; 32]%N.
  change (lit " ---") with [32; 45; 45; 45]%N.
  unfold match_marker.
  change (lit "--- ") with [45; 45; 45; 32]%N. change (lit "SCENE") with [83; 67; 69; 78; 69]%N.
  change (lit " ") with [32]%N.
  cbn [app strip_prefix N.eqb Pos.eqb mbind option_bind digits_prefix].
  rewrite Hdigit. change (is_digit 32) with false. cbv iota.
  destruct (dashes_found ([45; 45; 45]%N ++ s) eq_refl) as [n Hn].
  apply (last_dashes_end_app [32%N]) in Hn; [|by repeat constructor].
  cbn [app length] in Hn. rewrite Hn. cbn. eauto.
Qed.

Lemma starts_with_cons (a b : N) (p s : jsstring) :
  starts_with (a :: p) (b :: s) = (a =? b)%N && starts_with p s.
Proof. unfold starts_with. cbn [strip_prefix]. by destruct (a =? b)%N. Qed.

Lemma dashes_before_line_end (lt : N) (s : jsstring) :
  is_line_terminator lt = true →
  last_dashes_end ([32; 45; 45; 45]%N ++ lt :: s) = Some 4.
Proof.
  intros Hlt.
  assert ((45 =? lt)%N = false) as Hne by (apply N.eqb_neq; intros <-; done).
  assert (last_dashes_end (lt :: s) = None) as H0 by (cbn [last_dashes_end]; by rewrite Hlt).
  assert (last_dashes_end (45%N :: lt :: s) = None) as H1.
  { cbn [last_dashes_end] in *. change (is_line_terminator 45) with false. cbv iota.
    rewrite H0. change (lit "---") with [45; 45; 45]%N.
    by rewrite starts_with_cons, starts_with_cons, Hne, andb_false_r. }
  assert (last_dashes_end (45%N :: 45%N :: lt :: s) = None) as H2.
  { change (last_dashes_end (45%N :: 45%N :: lt :: s))
      with (if is_line_terminator 45 then None
            else match last_dashes_end (45%N :: lt :: s) with
                 | Some n => Some (S n)
                 | None => if starts_with (lit "---") (45%N :: 45%N :: lt :: s)
                           then Some 3 else None
                 end).
    rewrite H1. change (is_line_terminator 45) with false. cbv iota.
    change (lit "---") with [45; 45; 45]%N.
    by rewrite !starts_with_cons, Hne, !andb_false_r. }
  assert (last_dashes_end (45%N :: 45%N :: 45%N :: lt :: s) = Some 3) as H3.
  { change (last_dashes_end (45%N :: 45%N :: 45%N :: lt :: s))
      with (if is_line_terminator 45 then None
            else match last_dashes_end (45%N :: 45%N :: lt :: s) with
                 | Some n => Some (S n)
                 | None => if starts_with (lit "---") (45%N :: 45%N :: 45%N :: lt :: s)
                           then Some 3 else None
                 end).
    rewrite H2. reflexivity. }
  apply (last_dashes_end_app [32%N]) in H3; [exact H3|by repeat constructor].
Qed.

(** At a marker that ends its line the match is the marker itself. *)
Lemma match_marker_line (digit lt : N) (s : jsstring) :
  is_digit digit = true → is_line_terminator lt = true →
  match_marker (lit "--- SCENE " ++ digit :: lit " ---" ++ lt :: s) = Some 15.
Proof.
  intros Hdigit Hlt.
  change (lit "--- SCENE ") with [45; 45; 45; 32; 83; 67; 69; 78; 69; 32]%N.
  change (lit " ---") with [32; 45; 45; 45]%N.
  unfold match_marker.
  change (lit "--- ") with [45; 45; 45; 32]%N. change (lit "SCENE") with [83; 67; 69; 78; 69]%N.
  change (lit " ") with [32]%N.
  pose proof (dashes_before_line_end lt s Hlt) as Hend.
  cbn [app strip_prefix N.eqb Pos.eqb mbind option_bind digits_prefix] in Hend |- *.
  rewrite Hdigit. change (is_digit 32) with false. cbv iota.
  rewrite Hend. reflexivity.
Qed.

Lemma split_go_at_match (c : N) (r : jsstring) n piece :
  match_marker (c :: r) = Some (S n) →
  split_go (c :: r) 0 piece = rev piece :: split_go r n [].
Proof. intros H. cbn [split_go]. by rewrite H. Qed.

Lemma match_marker_1 (lt : N) (s : jsstring) :
  is_line_terminator lt = true →
  match_marker (lit "--- SCENE 1 ---" ++ lt :: s) = Some 15.
Proof. intros Hlt. exact (match_marker_line 49 lt s eq_refl Hlt). Qed.

Lemma match_marker_2 (s : jsstring) :
  ∃ n, match_marker (lit "--- SCENE 2 ---" ++ s) = Some (S n).
Proof. exact (match_marker_scene 50 s eq_refl). Qed.

(** The pieces of a text with two scene markers: what precedes the first
    marker, the first block, and at least one more piece. *)
Lemma split_two_blocks (before block' after : jsstring) (lt : N) :
  let block := lt :: block' in
  let text := before ++ lit "--- SCENE 1 ---" ++ block ++ lit "--- SCENE 2 ---" ++ after in
  (∀ i, i < length before → match_marker (drop i text) = None) →
  is_line_terminator lt = true →
  (∀ i, i < length block →
        match_marker (drop i (block ++ lit "--- SCENE 2 ---" ++ after)) = None) →
  ∃ rest, split_markers text = before :: block :: rest.
Proof.
  intros block text Hbefore Hlt Hblock. unfold split_markers, text.
  rewrite split_go_no_marker by exact Hbefore.
  rewrite app_nil_r.
  change (lit "--- SCENE 1 ---" ++ block ++ lit "--- SCENE 2 ---" ++ after)
    with (45%N :: (lit "-- SCENE 1 ---" ++ block ++ lit "--- SCENE 2 ---" ++ after)).
  rewrite (split_go_at_match _ _ 14); cycle 1.
  { exact (match_marker_1 lt (block' ++ lit "--- SCENE 2 ---" ++ after) Hlt). }
  rewrite split_go_skip; cycle 1.
  { rewrite length_app. change (length (lit "-- SCENE 1 ---")) with 14. lia. }
  change (drop 14 (lit "-- SCENE 1 ---" ++ block ++ lit "--- SCENE 2 ---" ++ after))
    with (block ++ lit "--- SCENE 2 ---" ++ after).
  rewrite split_go_no_marker by exact Hblock.
  rewrite app_nil_r.
  destruct (match_marker_2 after) as [n Hn].
  change (lit "--- SCENE 2 ---" ++ after) with (45%N :: (lit "-- SCENE 2 ---" ++ after)) in *.
  rewrite (split_go_at_match _ _ n) by exact Hn.
  rewrite !rev_involutive. eauto.
Qed.


(** ** JSON: lexical elements *)

Lemma strip_prefix_length (p s r : jsstring) :
  strip_prefix p s = Some r → length s = length p + length r.
Proof.
  revert s. induction p as [|a p IH]; intros s; simpl; [by intros [= ->]|].
  destruct s as [|b s]; [done|]. destruct (a =? b)%N; [|done].
  intros H%IH. simpl. lia.
Qed.

Lemma skip_ws_length (s : jsstring) : length (skip_ws s) ≤ length s.
Proof.
  induction s as [|c r IH]; simpl; [done|]. destruct (is_json_space c); simpl; lia.
Qed.

Lemma skip_ws_app (ws s : jsstring) :
  Forall (λ c, is_json_space c = true) ws → skip_ws (ws ++ s) = skip_ws s.
Proof. induction 1 as [|c ws Hc _ IH]; simpl; [done|]. by rewrite Hc. Qed.

Lemma skip_ws_head (c : N) (r : jsstring) :
  is_json_space c = false → skip_ws (c :: r) = c :: r.
Proof. intros H. simpl. by rewrite H. Qed.

Lemma digits_prefix_length (s d r : jsstring) :
  digits_prefix s = (d, r) → length s = length d + length r.
Proof.
  revert d r. induction s as [|c s IH]; intros d r; simpl; [by intros [= <- <-]|].
  destruct (is_digit c); [|by intros [= <- <-]].
  destruct (digits_prefix s) as [d' r'] eqn:Hs. intros [= <- <-].
  specialize (IH _ _ eq_refl). simpl. lia.
Qed.

Lemma digits_prefix_app (s d r rest : jsstring) :
  digits_prefix s = (d, r) →
  (r = [] → match rest with [] => True | c :: _ => is_digit c = false end) →
  digits_prefix (s ++ rest) = (d, r ++ rest).
Proof.
  revert d r. induction s as [|c s IH]; intros d r; simpl.
  - intros [= <- <-] Hrest. specialize (Hrest eq_refl).
    destruct rest as [|c rest]; [done|]. simpl. by rewrite Hrest.
  - destruct (is_digit c); [|by intros [= <- <-]].
    destruct (digits_prefix s) as [d' r'] eqn:Hs. intros [= <- <-] Hrest.
    by rewrite (IH _ _ eq_refl Hrest).
Qed.

Lemma stops_number_digit rest :
  stops_number rest → match rest with [] => True | c :: _ => is_digit c = false end.
Proof.
  destruct rest as [|c rest]; [done|]. unfold stops_number, extends_number.
  by destruct (is_digit c).
Qed.

Lemma lex_int_app (s i r rest : jsstring) :
  lex_int s = Some (i, r) → (r = [] → stops_number rest) →
  lex_int (s ++ rest) = Some (i, r ++ rest).
Proof.
  destruct s as [|c s]; [done|]. cbn [lex_int app].
  destruct (c =? 48)%N; [by intros [= <- <-]|].
  destruct (is_digit c); [|done].
  destruct (digits_prefix s) as [d r'] eqn:Hs. intros [= <- <-] Hrest.
  rewrite (digits_prefix_app _ _ _ rest Hs); [done|].
  intros Hr. by apply stops_number_digit, Hrest.
Qed.

Lemma lex_frac_app (s f r rest : jsstring) :
  lex_frac s = Some (f, r) → (r = [] → stops_number rest) →
  lex_frac (s ++ rest) = Some (f, r ++ rest).
Proof.
  destruct s as [|c s]; cbn [lex_frac app].
  - intros [= <- <-] Hrest. specialize (Hrest eq_refl).
    destruct rest as [|c rest]; [done|]. cbn [lex_frac].
    unfold stops_number, extends_number in Hrest.
    destruct (c =? 46)%N; [|done]. by rewrite !orb_true_r in Hrest.
  - destruct (c =? 46)%N; [|by intros [= <- <-]].
    destruct (digits_prefix s) as [d r'] eqn:Hs.
    destruct d as [|d0 d]; [done|]. intros [= <- <-] Hrest.
    rewrite (digits_prefix_app _ _ _ rest Hs); [done|].
    intros Hr. by apply stops_number_digit, Hrest.
Qed.

Lemma lex_exp_app (s e r rest : jsstring) :
  lex_exp s = Some (e, r) → (r = [] → stops_number rest) →
  lex_exp (s ++ rest) = Some (e, r ++ rest).
Proof.
  destruct s as [|c s]; cbn [lex_exp app].
  - intros [= <- <-] Hrest. specialize (Hrest eq_refl).
    destruct rest as [|c rest]; [done|]. cbn [lex_exp].
    unfold stops_number, extends_number in Hrest.
    destruct ((c =? 101) || (c =? 69))%N eqn:He; [|done].
    rewrite <- orb_assoc, He in Hrest. by rewrite orb_true_r in Hrest.
  - destruct ((c =? 101) || (c =? 69))%N; [|by intros [= <- <-]].
    destruct (lex_sign s) as [sg r1] eqn:Hsign.
    destruct (digits_prefix r1) as [d r'] eqn:Hd.
    destruct d as [|d0 d]; [done|]. intros [= <- <-] Hrest.
    assert (lex_sign (s ++ rest) = (sg, r1 ++ rest)) as ->.
    { destruct s as [|x s]; cbn [lex_sign app] in *.
      - injection Hsign as <- <-. simpl in Hd. discriminate Hd.
      - destruct ((x =? 43) || (x =? 45))%N; by injection Hsign as <- <-. }
    rewrite (digits_prefix_app _ _ _ rest Hd); [done|].
    intros Hr. by apply stops_number_digit, Hrest.
Qed.

(** A number read whole is read the same way before a delimiter. *)
Lemma lex_number_app (t tok rest : jsstring) :
  lex_number t = Some (tok, []) → stops_number rest →
  lex_number (t ++ rest) = Some (tok, rest).
Proof.
  unfold lex_number. intros H Hrest.
  destruct (lex_minus t) as [sg s1] eqn:Hminus.
  destruct (lex_int s1) as [[i s2]|] eqn:Hint; cbn [mbind option_bind] in H; [|done].
  destruct (lex_frac s2) as [[f s3]|] eqn:Hfrac; cbn [mbind option_bind] in H; [|done].
  destruct (lex_exp s3) as [[e s4]|] eqn:Hexp; cbn [mbind option_bind] in H; [|done].
  injection H as <- ->.
  assert (s1 ≠ []) as Hs1 by (by destruct s1).
  assert (lex_minus (t ++ rest) = (sg, s1 ++ rest)) as ->.
  { destruct t as [|c t]; cbn [lex_minus app] in *; [by injection Hminus as <- <-|].
    destruct (c =? 45)%N; by injection Hminus as <- <-. }
  rewrite (lex_int_app _ _ _ rest Hint) by done. cbn [mbind option_bind].
  rewrite (lex_frac_app _ _ _ rest Hfrac) by done. cbn [mbind option_bind].
  rewrite (lex_exp_app _ _ _ rest Hexp) by done. cbn [mbind option_bind]. done.
Qed.

Lemma lex_number_head (t tok r : jsstring) :
  lex_number t = Some (tok, r) →
  ∃ c t', t = c :: t' ∧ (c = 45%N ∨ is_digit c = true).
Proof.
  unfold lex_number. destruct t as [|c t]; [done|]. intros H. exists c, t. split; [done|].
  cbn [lex_minus] in H. destruct (N.eqb_spec c 45) as [->|Hc]; [by left|]. right.
  cbn [lex_int] in H. destruct (N.eqb_spec c 48) as [->|_]; [done|].
  by destruct (is_digit c).
Qed.

Lemma lex_number_length (t tok r : jsstring) :
  lex_number t = Some (tok, r) → length r < length t.
Proof.
  unfold lex_number. intros H.
  destruct (lex_minus t) as [sg s1] eqn:Hminus.
  destruct (lex_int s1) as [[i s2]|] eqn:Hint; cbn [mbind option_bind] in H; [|done].
  destruct (lex_frac s2) as [[f s3]|] eqn:Hfrac; cbn [mbind option_bind] in H; [|done].
  destruct (lex_exp s3) as [[e s4]|] eqn:Hexp; cbn [mbind option_bind] in H; [|done].
  injection H as _ ->.
  assert (length s1 ≤ length t) as H1.
  { destruct t as [|c t]; cbn [lex_minus] in Hminus; [by injection Hminus as _ <-|].
    destruct (c =? 45)%N; injection Hminus as _ <-; simpl; lia. }
  assert (length s2 < length s1) as H2.
  { destruct s1 as [|c s1]; [done|]. cbn [lex_int] in Hint.
    destruct (c =? 48)%N; [injection Hint as _ <-; simpl; lia|].
    destruct (is_digit c); [|done]. destruct (digits_prefix s1) as [d r'] eqn:Hd.
    injection Hint as _ <-. apply digits_prefix_length in Hd. simpl. lia. }
  assert (length s3 ≤ length s2) as H3.
  { destruct s2 as [|c s2]; cbn [lex_frac] in Hfrac; [by injection Hfrac as _ <-|].
    destruct (c =? 46)%N; [|by injection Hfrac as _ <-].
    destruct (digits_prefix s2) as [d r'] eqn:Hd. destruct d; [done|].
    injection Hfrac as _ <-. apply digits_prefix_length in Hd. simpl in *. lia. }
  assert (length r ≤ length s3) as H4.
  { destruct s3 as [|c s3]; cbn [lex_exp] in Hexp; [by injection Hexp as _ <-|].
    destruct ((c =? 101) || (c =? 69))%N; [|by injection Hexp as _ <-].
    destruct (lex_sign s3) as [sg' r1] eqn:Hsign.
    destruct (digits_prefix r1) as [d r'] eqn:Hd. destruct d; [done|].
    injection Hexp as _ <-. apply digits_prefix_length in Hd.
    assert (length r1 ≤ length s3).
    { destruct s3 as [|x s3]; cbn [lex_sign] in Hsign; [by injection Hsign as _ <-|].
      destruct ((x =? 43) || (x =? 45))%N; injection Hsign as _ <-; simpl; lia. }
    simpl in *. lia. }
  lia.
Qed.

(** ** JSON: string literals *)

Lemma parse_string_body_length (s : jsstring) : ∀ acc t r,
  parse_string_body s acc = Some (t, r) → length r < length s.
Proof.
  induction s as [s IH] using (induction_ltof1 _ (@length N)). unfold ltof in IH.
  intros acc t r. destruct s as [|c s]; [done|]. cbn [parse_string_body].
  destruct (c =? 34)%N; [intros [= _ <-]; simpl; lia|].
  destruct (c =? 92)%N.
  - destruct s as [|e s]; [done|].
    destruct (e =? 117)%N.
    + destruct s as [|h1 [|h2 [|h3 [|h4 s]]]]; try done.
      destruct (hex4_value h1 h2 h3 h4); [|done].
      intros H%IH; simpl in *; lia.
    + destruct (simple_escape e); [|done]. intros H%IH; simpl in *; lia.
  - destruct (c <? 32)%N; [done|]. intros H%IH; simpl in *; lia.
Qed.

Lemma hex_value_digit (d : N) : (d < 16)%N → hex_value (hex_digit d) = Some d.
Proof.
  intros Hd. unfold hex_digit, hex_value, is_digit.
  destruct (N.ltb_spec d 10).
  - replace ((48 <=? 48 + d) && (48 + d <=? 57))%N with true; [f_equal; lia|].
    symmetry. apply andb_true_intro. split; apply N.leb_le; lia.
  - replace ((48 <=? 87 + d) && (87 + d <=? 57))%N with false; cycle 1.
    { symmetry. apply andb_false_intro2. apply N.leb_gt. lia. }
    replace ((97 <=? 87 + d) && (87 + d <=? 102))%N with true; [f_equal; lia|].
    symmetry. apply andb_true_intro. split; apply N.leb_le; lia.
Qed.

Lemma hex4_value_escape (c : N) :
  (c < 65536)%N →
  hex4_value (hex_digit (c / 4096)) (hex_digit ((c / 256) mod 16))
    (hex_digit ((c / 16) mod 16)) (hex_digit (c mod 16)) = Some c.
Proof.
  intros Hc. unfold hex4_value.
  rewrite !hex_value_digit
    by (first [apply N.mod_lt; lia | apply N.Div0.div_lt_upper_bound; lia]).
  cbn [mbind option_bind]. f_equal.
  pose proof (N.div_mod c 16 ltac:(lia)) as H0.
  pose proof (N.div_mod (c / 16) 16 ltac:(lia)) as H1.
  pose proof (N.div_mod (c / 16 / 16) 16 ltac:(lia)) as H2.
  rewrite !N.Div0.div_div in H1, H2. change (16 * 16)%N with 256%N in *.
  rewrite !N.Div0.div_div in H2. change (256 * 16)%N with 4096%N in *.
  lia.
Qed.

Lemma parse_unicode_escape (c : N) (s acc : jsstring) :
  (c < 65536)%N →
  parse_string_body (unicode_escape c ++ s) acc = parse_string_body s (c :: acc).
Proof.
  intros Hc. unfold unicode_escape. cbn [app parse_string_body].
  change (92 =? 34)%N with false. change (92 =? 92)%N with true.
  change (117 =? 117)%N with true. cbv iota.
  by rewrite (hex4_value_escape c Hc).
Qed.

Lemma parse_plain_unit (c : N) (s acc : jsstring) :
  c ≠ 34%N → c ≠ 92%N → (32 <= c)%N →
  parse_string_body (c :: s) acc = parse_string_body s (c :: acc).
Proof.
  intros H1 H2 H3. cbn [parse_string_body].
  destruct (N.eqb_spec c 34); [done|]. destruct (N.eqb_spec c 92); [done|].
  destruct (N.ltb_spec c 32); [lia|done].
Qed.

Lemma parse_escape_unit (c : N) (s acc : jsstring) :
  is_high_surrogate c = false → is_low_surrogate c = false →
  parse_string_body (escape_unit c ++ s) acc = parse_string_body s (c :: acc).
Proof.
  intros _ _. unfold escape_unit.
  destruct (N.eqb_spec c 8) as [->|?]; [done|].
  destruct (N.eqb_spec c 9) as [->|?]; [done|].
  destruct (N.eqb_spec c 10) as [->|?]; [done|].
  destruct (N.eqb_spec c 12) as [->|?]; [done|].
  destruct (N.eqb_spec c 13) as [->|?]; [done|].
  destruct (N.eqb_spec c 34) as [->|?]; [done|].
  destruct (N.eqb_spec c 92) as [->|?]; [done|].
  destruct (N.ltb_spec c 32).
  - apply parse_unicode_escape. lia.
  - by apply parse_plain_unit.
Qed.

Lemma surrogate_bounds (c : N) :
  (is_high_surrogate c = true → (55296 <= c <= 56319)%N)
  ∧ (is_low_surrogate c = true → (56320 <= c <= 57343)%N).
Proof.
  unfold is_high_surrogate, is_low_surrogate.
  split; intros [H1 H2]%andb_prop; apply N.leb_le in H1, H2; lia.
Qed.

(** A quoted string is read back as the string. *)
Lemma parse_quote_body (s : jsstring) : ∀ acc rest,
  parse_string_body (quote_body s ++ 34%N :: rest) acc = Some (rev acc ++ s, rest).
Proof.
  induction s as [s IH] using (induction_ltof1 _ (@length N)). unfold ltof in IH.
  intros acc rest. destruct s as [|c s].
  { cbn [quote_body app parse_string_body]. change (34 =? 34)%N with true.
    by rewrite app_nil_r. }
  assert (parse_string_body (quote_body s ++ 34%N :: rest) (c :: acc)
          = Some (rev acc ++ c :: s, rest)) as Hnext.
  { rewrite IH by (simpl; lia). simpl. by rewrite <- app_assoc. }
  cbn [quote_body].
  destruct (is_high_surrogate c) eqn:Hhigh.
  - apply surrogate_bounds in Hhigh.
    destruct s as [|d s].
    + rewrite parse_unicode_escape by lia. exact Hnext.
    + destruct (is_low_surrogate d) eqn:Hlow.
      * apply surrogate_bounds in Hlow. cbn [app].
        rewrite !parse_plain_unit by lia.
        rewrite IH by (simpl; lia). simpl. by rewrite <- !app_assoc.
      * rewrite <- app_assoc, parse_unicode_escape by lia. exact Hnext.
  - destruct (is_low_surrogate c) eqn:Hlow.
    + apply surrogate_bounds in Hlow.
      rewrite <- app_assoc, parse_unicode_escape by lia. exact Hnext.
    + rewrite <- app_assoc, parse_escape_unit by done. exact Hnext.
Qed.

Lemma parse_quoted (s rest : jsstring) :
  parse_string_body (quote_body s ++ 34%N :: rest) [] = Some (s, rest).
Proof. by rewrite parse_quote_body. Qed.

(** ** JSON: own properties *)

Section Properties.
Context {NM : NumberModel}.
Implicit Types (ps acc : list (jsstring * JSValue NM)) (k : jsstring) (v : JSValue NM).

Lemma key_before_total (a b : jsstring) :
  key_before a b = false → key_before b a = true.
Proof.
  unfold key_before. destruct (array_index a), (array_index b); try done.
  intros H%N.leb_gt. apply N.leb_le. lia.
Qed.

Lemma key_before_trans (a b c : jsstring) :
  key_before a b = true → key_before b c = true → key_before a c = true.
Proof.
  unfold key_before. destruct (array_index a), (array_index b), (array_index c); try done.
  intros H1%N.leb_le H2%N.leb_le. apply N.leb_le. lia.
Qed.

Lemma get_own_None k ps :
  get_own k ps = None ↔ Forall (λ p, fst p ≠ k) ps.
Proof.
  induction ps as [|[k' v'] ps IH]; cbn [get_own]; [by split; [constructor|]|].
  unfold jsstring_eqb. case_bool_decide as Hk.
  - split; [done|]. intros [H _]%list.Forall_cons. done.
  - rewrite IH, list.Forall_cons. cbn [fst]. tauto.
Qed.

Lemma replace_own_keys k v ps : map fst (replace_own k v ps) = map fst ps.
Proof.
  induction ps as [|[k' v'] ps IH]; cbn [replace_own]; [done|].
  destruct (jsstring_eqb k' k); cbn [map fst]; by rewrite ?IH.
Qed.

Lemma insert_own_keys (P : jsstring → Prop) k v ps :
  Forall P (map fst (insert_own k v ps)) ↔ P k ∧ Forall P (map fst ps).
Proof.
  induction ps as [|[k' v'] ps IH]; cbn [insert_own map fst].
  - rewrite list.Forall_cons. done.
  - destruct (key_before k' k); cbn [map fst]; rewrite !list.Forall_cons; [rewrite IH|]; tauto.
Qed.

Lemma insert_own_ordered k v ps :
  Forall (λ p, fst p ≠ k) ps →
  keys_ordered (map fst ps) → keys_ordered (map fst (insert_own k v ps)).
Proof.
  induction ps as [|[k' v'] ps IH]; cbn [insert_own map fst keys_ordered].
  - intros _ _. split; [constructor|done].
  - intros Hfresh [Hhead Htail]. apply list.Forall_cons in Hfresh as [Hk' Hps]. cbn [fst] in Hk'.
    destruct (key_before k' k) eqn:Hbefore; cbn [map fst keys_ordered].
    + split; [|by apply IH]. apply insert_own_keys. split; [|done]. split; [congruence|done].
    + apply key_before_total in Hbefore. split; [|done].
      constructor; [done|].
      rewrite list.Forall_forall in Hhead. rewrite list.Forall_forall in Hps.
      apply list.Forall_forall. intros k'' Hin.
      destruct (Hhead k'' Hin) as [_ Hk'']. split.
      * apply list_elem_of_fmap in Hin as ([? ?] & -> & Hin). by apply (Hps _ Hin).
      * by eapply key_before_trans.
Qed.

(** The parser keeps the properties in enumeration order. *)
Lemma define_own_ordered k v acc :
  keys_ordered (map fst acc) → keys_ordered (map fst (define_own k v acc)).
Proof.
  intros Hacc. unfold define_own. destruct (get_own k acc) eqn:Hget.
  - by rewrite replace_own_keys.
  - apply insert_own_ordered; [by apply get_own_None|done].
Qed.

Lemma define_own_values (P : JSValue NM → Prop) k v acc :
  P v → Forall (λ p, P (snd p)) acc → Forall (λ p, P (snd p)) (define_own k v acc).
Proof.
  intros Hv Hacc. unfold define_own. destruct (get_own k acc) as [?|].
  - induction Hacc as [|[k' v'] ps Hp Hps IH]; cbn [replace_own]; [constructor|].
    destruct (jsstring_eqb k' k); constructor; done.
  - induction Hacc as [|[k' v'] ps Hp Hps IH]; cbn [insert_own]; [by repeat constructor|].
    destruct (key_before k' k); repeat constructor; done.
Qed.

(** A property that comes last in enumeration order is appended. *)
Lemma define_own_last k v acc :
  Forall (λ p, fst p ≠ k ∧ key_before (fst p) k = true) acc →
  define_own k v acc = acc ++ [(k, v)].
Proof.
  intros Hacc. unfold define_own.
  assert (get_own k acc = None) as ->.
  { apply get_own_None. eapply list.Forall_impl; [exact Hacc|]. by intros ? [? _]. }
  induction Hacc as [|[k' v'] ps [_ Hp] _ IH]; cbn [insert_own app]; [done|].
  cbn [fst] in Hp. by rewrite Hp, IH.
Qed.

Lemma keys_ordered_last k v acc rest :
  keys_ordered (map fst (acc ++ (k, v) :: rest)) →
  Forall (λ p, fst p ≠ k ∧ key_before (fst p) k = true) acc.
Proof.
  induction acc as [|[k' v'] acc IH]; cbn [app map fst keys_ordered]; [constructor|].
  intros [Hhead Htail]. constructor; [|by apply IH].
  rewrite list.Forall_forall in Hhead. cbn [fst].
  destruct (Hhead k) as [Hne Hbefore]; [|by split; [congruence|]].
  rewrite map_app. apply elem_of_app. right. cbn [map fst]. apply elem_of_cons. by left.
Qed.

End Properties.

(** ** JSON: the parser *)

Section Parser.
Context (NM : NumberModel).

Lemma skip_ws_cons_length (s r : jsstring) (c : N) :
  skip_ws s = c :: r → length r < length s.
Proof. intros H. pose proof (skip_ws_length s) as Hs. rewrite H in Hs. simpl in Hs. lia. Qed.

Ltac measure_step IHv IHe IHm :=
  match goal with
  | H : skip_ws _ = _ :: _ |- _ => apply skip_ws_cons_length in H
  | H : strip_prefix _ _ = Some _ |- _ => apply strip_prefix_length in H
  | H : parse_string_body _ _ = Some _ |- _ => apply parse_string_body_length in H
  | H : lex_number _ = Some _ |- _ => apply lex_number_length in H
  | H : parse_value _ _ _ = Parsed _ _ |- _ => apply IHv in H
  | H : parse_elements _ _ _ _ = Parsed _ _ |- _ => apply IHe in H
  | H : parse_members _ _ _ _ = Parsed _ _ |- _ => apply IHm in H
  end.

(** Whatever is parsed, input is consumed. *)
Lemma parse_consumes (fuel : nat) :
  (∀ s v r, parse_value NM fuel s = Parsed v r → length r < length s)
  ∧ (∀ acc s v r, parse_elements NM fuel acc s = Parsed v r → length r < length s)
  ∧ (∀ acc s v r, parse_members NM fuel acc s = Parsed v r → length r < length s).
Proof.
  induction fuel as [|fuel (IHv & IHe & IHm)]; [done|].
  split; [|split].
  - intros s v r. cbn [parse_value]. intros H.
    repeat case_match; try done; simplify_eq;
      repeat measure_step IHv IHe IHm; simpl in *; lia.
  - intros acc s v r. cbn [parse_elements]. intros H.
    repeat case_match; try done; simplify_eq;
      repeat measure_step IHv IHe IHm; simpl in *; lia.
  - intros acc s v r. cbn [parse_members]. intros H.
    repeat case_match; try done; simplify_eq;
      repeat measure_step IHv IHe IHm; simpl in *; lia.
Qed.

(** With more than twice the length of the input as fuel, the parser never
    runs out of it. *)
Lemma parse_fuel_enough (fuel : nat) :
  (∀ s, 2 * length s < fuel → parse_value NM fuel s ≠ OutOfFuel)
  ∧ (∀ acc s, 2 * length s + 1 < fuel → parse_elements NM fuel acc s ≠ OutOfFuel)
  ∧ (∀ acc s, 2 * length s + 1 < fuel → parse_members NM fuel acc s ≠ OutOfFuel).
Proof.
  induction fuel as [|fuel (IHv & IHe & IHm)]; [by repeat split; intros; lia|].
  destruct (parse_consumes fuel) as (Cv & Ce & Cm).
  split; [|split].
  - intros s Hs. cbn [parse_value].
    repeat case_match; try done; simplify_eq;
      first [apply IHe | apply IHm];
      repeat measure_step Cv Ce Cm; simpl in *; lia.
  - intros acc s Hs. cbn [parse_elements].
    destruct (parse_value NM fuel s) as [v r| |] eqn:Hv; [|done|by apply IHv in Hv; [|lia]].
    repeat case_match; try done; simplify_eq. apply IHe.
    repeat measure_step Cv Ce Cm; simpl in *; lia.
  - intros acc s Hs. cbn [parse_members].
    repeat case_match; try done; simplify_eq;
      try (apply IHm; repeat measure_step Cv Ce Cm; simpl in *; lia).
    match goal with H : parse_value _ _ _ = OutOfFuel |- _ => apply IHv in H; [done|] end.
    repeat measure_step Cv Ce Cm; simpl in *; lia.
Qed.

(** [JSON.parse] refuses a text only for its syntax. *)
Lemma JSON_parse_None (text : jsstring) :
  JSON_parse NM text = None →
  parse_value NM (S (2 * length text)) text = SyntaxError
  ∨ ∃ v rest, parse_value NM (S (2 * length text)) text = Parsed v rest
              ∧ skip_ws rest ≠ [].
Proof.
  unfold JSON_parse.
  destruct (parse_value NM (S (2 * length text)) text) as [v rest| |] eqn:Hparse.
  - destruct (skip_ws rest) eqn:Hrest; [done|]. intros _. right. exists v, rest.
    by rewrite Hrest.
  - by left.
  - destruct (proj1 (parse_fuel_enough (S (2 * length text))) text); [lia|done].
Qed.

End Parser.

(** ** JSON: values *)

Section Values.
Context (NM : NumberModel).
Implicit Types (v x : JSValue NM) (l xs : list (JSValue NM))
  (ps : list (jsstring * JSValue NM)).

Lemma JSValue_induction (P : JSValue NM → Prop) :
  P JNull → (∀ b, P (JBool b)) → (∀ n, P (JNumber n)) → (∀ s, P (JString s)) →
  (∀ l, Forall P l → P (JArray l)) →
  (∀ ps, Forall (λ p, P (snd p)) ps → P (JObject ps)) →
  ∀ v, P v.
Proof.
  intros Hnull Hbool Hnumber Hstring Harray Hobject.
  fix IH 1. intros [|b|n|s|l|ps].
  - exact Hnull.
  - apply Hbool.
  - apply Hnumber.
  - apply Hstring.
  - apply Harray. induction l as [|x l IHl]; constructor; [apply IH|exact IHl].
  - apply Hobject. induction ps as [|[k x] ps IHps]; constructor; [apply IH|exact IHps].
Qed.

Lemma properties_ordered_array l :
  properties_ordered (JArray l) ↔ Forall properties_ordered l.
Proof.
  induction l as [|x l IH]; [by split; [constructor|]|].
  change (properties_ordered (JArray (x :: l)))
    with (properties_ordered x ∧ properties_ordered (JArray l)).
  by rewrite IH, list.Forall_cons.
Qed.

Lemma properties_ordered_values ps :
  (fix all (l : list (jsstring * JSValue NM)) : Prop :=
     match l with
     | [] => True
     | p :: l' => properties_ordered (snd p) ∧ all l'
     end) ps
  ↔ Forall (λ p, properties_ordered (snd p)) ps.
Proof.
  induction ps as [|p ps IH]; [by split; [constructor|]|].
  rewrite list.Forall_cons, <- IH. done.
Qed.

Lemma properties_ordered_object ps :
  properties_ordered (JObject ps)
  ↔ keys_ordered (map fst ps) ∧ Forall (λ p, properties_ordered (snd p)) ps.
Proof. by rewrite <- properties_ordered_values. Qed.

Lemma numbers_reread_array l : numbers_reread (JArray l) ↔ Forall numbers_reread l.
Proof.
  induction l as [|x l IH]; [by split; [constructor|]|].
  change (numbers_reread (JArray (x :: l)))
    with (numbers_reread x ∧ numbers_reread (JArray l)).
  by rewrite IH, list.Forall_cons.
Qed.

Lemma numbers_reread_object ps :
  numbers_reread (JObject ps) ↔ Forall (λ p, numbers_reread (snd p)) ps.
Proof.
  induction ps as [|p ps IH]; [by split; [constructor|]|].
  change (numbers_reread (JObject (p :: ps)))
    with (numbers_reread (snd p) ∧ numbers_reread (JObject ps)).
  by rewrite IH, list.Forall_cons.
Qed.

(** The parser leaves the properties of every object in enumeration order. *)
Lemma parse_ordered (fuel : nat) :
  (∀ s v r, parse_value NM fuel s = Parsed v r → properties_ordered v)
  ∧ (∀ acc s v r, parse_elements NM fuel acc s = Parsed v r →
       Forall properties_ordered acc → properties_ordered v)
  ∧ (∀ acc s v r, parse_members NM fuel acc s = Parsed v r →
       keys_ordered (map fst acc) → Forall (λ p, properties_ordered (snd p)) acc →
       properties_ordered v).
Proof.
  induction fuel as [|fuel (IHv & IHe & IHm)]; [done|].
  split; [|split].
  - intros s v r. cbn [parse_value]. intros H.
    repeat case_match; try done; simplify_eq; try done.
    + eapply IHm; [done|done|constructor].
    + eapply IHe; [done|constructor].
  - intros acc s v r. cbn [parse_elements]. intros H Hacc.
    repeat case_match; try done; simplify_eq.
    + eapply IHe; [done|]. constructor; [by eapply IHv|done].
    + apply properties_ordered_array. apply list.Forall_app.
      split; [by apply List.Forall_rev|]. constructor; [by eapply IHv|constructor].
  - intros acc s v r. cbn [parse_members]. intros H Hkeys Hacc.
    repeat case_match; try done; simplify_eq.
    + eapply IHm; [done|by apply define_own_ordered|].
      apply define_own_values; [by eapply IHv|done].
    + apply properties_ordered_object. split; [by apply define_own_ordered|].
      apply define_own_values; [by eapply IHv|done].
Qed.

Lemma JSON_parse_ordered (text : jsstring) v :
  JSON_parse NM text = Some v → properties_ordered v.
Proof.
  unfold JSON_parse.
  destruct (parse_value NM _ text) as [v' rest| |] eqn:Hparse; [|done..].
  destruct (nonempty (skip_ws rest)); [done|]. intros [= <-].
  by eapply (proj1 (parse_ordered _)).
Qed.

End Values.

(** ** JSON: what is serialized parses back *)

Section RoundTrip.
Context (NM : NumberModel).
Implicit Types (v x : JSValue NM) (l xs : list (JSValue NM))
  (ps : list (jsstring * JSValue NM)).

Ltac flatten :=
  repeat first [rewrite <- app_assoc in * | progress cbn [app] in *].

Ltac lengths :=
  repeat first [rewrite length_app in * | progress cbn [length] in *]; lia.

Lemma parse_value_skip (ws s : jsstring) fuel :
  spaces ws → parse_value NM fuel (ws ++ s) = parse_value NM fuel s.
Proof. intros Hws. destruct fuel; [done|]. cbn [parse_value]. by rewrite skip_ws_app. Qed.

Lemma parse_value_skip_space (s : jsstring) fuel :
  parse_value NM fuel (32%N :: s) = parse_value NM fuel s.
Proof. apply (parse_value_skip [32%N]). by repeat constructor. Qed.

Lemma serialize_array indent x xs :
  serialize NM indent (JArray (x :: xs))
  = [91; 10]%N ++ (indent ++ gap) ++ serialize NM (indent ++ gap) x
    ++ serialize_more (serialize NM (indent ++ gap)) (indent ++ gap) xs
    ++ [10%N] ++ indent ++ [93%N].
Proof. reflexivity. Qed.

Lemma serialize_object indent k x ps :
  serialize NM indent (JObject ((k, x) :: ps))
  = [123; 10]%N ++ (indent ++ gap)
    ++ QuoteJSONString k ++ [58; 32]%N ++ serialize NM (indent ++ gap) x
    ++ serialize_more
         (λ p : jsstring * JSValue NM,
            QuoteJSONString (fst p) ++ [58; 32]%N ++ serialize NM (indent ++ gap) (snd p))
         (indent ++ gap) ps
    ++ [10%N] ++ indent ++ [125%N].
Proof. reflexivity. Qed.

Lemma number_start (c : N) :
  c = 45%N ∨ is_digit c = true →
  is_json_space c = false
  ∧ (c =? 123)%N = false ∧ (c =? 91)%N = false ∧ (c =? 34)%N = false
  ∧ (c =? 93)%N = false ∧ (c =? 125)%N = false
  ∧ (116 =? c)%N = false ∧ (102 =? c)%N = false ∧ (110 =? c)%N = false.
Proof.
  intros [->|H]; [by repeat split|].
  unfold is_digit in H. apply andb_prop in H as [H1%N.leb_le H2%N.leb_le].
  unfold is_json_space.
  repeat split; repeat (rewrite orb_false_iff; split); apply N.eqb_neq; lia.
Qed.

Lemma parse_value_number (c : N) (s : jsstring) fuel :
  c = 45%N ∨ is_digit c = true →
  parse_value NM (S fuel) (c :: s)
  = match lex_number (c :: s) with
    | Some (t, r) => Parsed (JNumber (number_of_literal NM t)) r
    | None => SyntaxError
    end.
Proof.
  intros Hc. destruct (number_start c Hc) as (H0 & H1 & H2 & H3 & _ & _ & H4 & H5 & H6).
  cbn [parse_value]. rewrite (skip_ws_head c s H0), H1, H2, H3.
  change (lit "true") with [116; 114; 117; 101]%N.
  change (lit "false") with [102; 97; 108; 115; 101]%N.
  change (lit "null") with [110; 117; 108; 108]%N.
  cbn [strip_prefix]. by rewrite H4, H5, H6.
Qed.

Lemma ends_value_stops_number (rest : jsstring) : ends_value rest → stops_number rest.
Proof. destruct rest as [|c rest]; [done|]. by intros [->| ->]. Qed.

(** A serialized value starts with a character that is neither white space
    nor a closing bracket. *)
Lemma serialize_head indent v :
  numbers_reread v →
  ∃ c r, serialize NM indent v = c :: r
         ∧ is_json_space c = false ∧ (c =? 93)%N = false ∧ (c =? 125)%N = false.
Proof.
  destruct v as [|[|]|n|s|[|x xs]|[|[k x] ps]]; intros Hv;
    try (eexists _, _; split; [reflexivity|done]).
  destruct Hv as (Hfinite & Hlex & _). cbn [serialize]. rewrite Hfinite.
  destruct (lex_number_head _ _ _ Hlex) as (c & t & -> & Hc).
  destruct (number_start c Hc) as (H0 & _ & _ & _ & H1 & H2 & _).
  by exists c, t.
Qed.

Lemma skip_to_closing (indent rest : jsstring) (c : N) :
  spaces indent → is_json_space c = false →
  skip_ws (10%N :: indent ++ c :: rest) = c :: rest.
Proof.
  intros Hindent Hc. change (10%N :: indent ++ c :: rest) with ((10%N :: indent) ++ c :: rest).
  rewrite skip_ws_app; [by apply skip_ws_head|]. by constructor.
Qed.

Lemma parse_elements_serialized xs : ∀ x acc ws inner indent rest fuel,
  Forall parses_back (x :: xs) →
  Forall properties_ordered (x :: xs) → Forall numbers_reread (x :: xs) →
  spaces ws → spaces inner → spaces indent → ends_value rest →
  2 * length (ws ++ serialize NM inner x
              ++ serialize_more (serialize NM inner) inner xs
              ++ [10%N] ++ indent ++ 93%N :: rest) + 1 < fuel →
  parse_elements NM fuel acc
    (ws ++ serialize NM inner x
     ++ serialize_more (serialize NM inner) inner xs
     ++ [10%N] ++ indent ++ 93%N :: rest)
  = Parsed (JArray (rev acc ++ x :: xs)) rest.
Proof.
  induction xs as [|y ys IH];
    intros x acc ws inner indent rest fuel Hback Hord Hnum Hws Hinner Hindent Hrest Hfuel;
    apply list.Forall_cons in Hback as [Hx Hback];
    apply list.Forall_cons in Hord as [Hxo Hord];
    apply list.Forall_cons in Hnum as [Hxn Hnum];
    (destruct fuel as [|fuel]; [lia|]); cbn [parse_elements];
    rewrite parse_value_skip by done.
  - cbn [serialize_more app] in *.
    rewrite (Hx inner _ fuel Hxo Hxn Hinner); cycle 1.
    { by right. }
    { lengths. }
    rewrite (skip_to_closing indent rest 93) by done.
    change (93 =? 44)%N with false. change (93 =? 93)%N with true. cbv iota.
    done.
  - change (serialize_more (serialize NM inner) inner (y :: ys))
      with ([44; 10]%N ++ inner ++ serialize NM inner y
            ++ serialize_more (serialize NM inner) inner ys) in *.
    rewrite <- !app_assoc in *. cbn [app] in *.
    rewrite (Hx inner _ fuel Hxo Hxn Hinner); cycle 1.
    { by left. }
    { lengths. }
    rewrite skip_ws_head by done.
    change (44 =? 44)%N with true. cbv iota.
    specialize (IH y (x :: acc) (10%N :: inner) inner indent rest fuel).
    cbn [app] in IH.
    rewrite IH;
      [cbn [rev]; by rewrite <- app_assoc|done|done|done|by constructor|done|done|done|].
    lengths.
Qed.

Lemma parse_members_serialized ps : ∀ k x acc ws inner indent rest fuel,
  Forall (λ p, parses_back (snd p)) ((k, x) :: ps) →
  Forall (λ p, properties_ordered (snd p)) ((k, x) :: ps) →
  Forall (λ p, numbers_reread (snd p)) ((k, x) :: ps) →
  keys_ordered (map fst (acc ++ (k, x) :: ps)) →
  spaces ws → spaces inner → spaces indent → ends_value rest →
  2 * length (ws ++ 34%N :: quote_body k ++ 34%N :: 58%N :: 32%N :: serialize NM inner x
              ++ serialize_more
                   (λ p : jsstring * JSValue NM,
                      QuoteJSONString (fst p) ++ [58; 32]%N ++ serialize NM inner (snd p))
                   inner ps
              ++ 10%N :: indent ++ 125%N :: rest) + 1 < fuel →
  parse_members NM fuel acc
    (ws ++ 34%N :: quote_body k ++ 34%N :: 58%N :: 32%N :: serialize NM inner x
     ++ serialize_more
          (λ p : jsstring * JSValue NM,
             QuoteJSONString (fst p) ++ [58; 32]%N ++ serialize NM inner (snd p))
          inner ps
     ++ 10%N :: indent ++ 125%N :: rest)
  = Parsed (JObject (acc ++ (k, x) :: ps)) rest.
Proof.
  induction ps as [|[k' y] ps IH];
    intros k x acc ws inner indent rest fuel Hback Hord Hnum Hkeys Hws Hinner Hindent
      Hrest Hfuel;
    apply list.Forall_cons in Hback as [Hx Hback];
    apply list.Forall_cons in Hord as [Hxo Hord];
    apply list.Forall_cons in Hnum as [Hxn Hnum];
    cbn [snd] in Hx, Hxo, Hxn;
    (destruct fuel as [|fuel]; [lia|]); cbn [parse_members];
    rewrite skip_ws_app, skip_ws_head by done;
    change (34 =? 34)%N with true; cbv iota;
    rewrite parse_quoted, skip_ws_head by done;
    change (58 =? 58)%N with true; cbv iota;
    rewrite parse_value_skip_space;
    pose proof (define_own_last k x acc (keys_ordered_last k x acc _ Hkeys)) as Hdefine.
  - cbn [serialize_more app] in *.
    rewrite (Hx inner _ fuel Hxo Hxn Hinner); cycle 1.
    { by right. }
    { lengths. }
    rewrite Hdefine.
    rewrite (skip_to_closing indent rest 125) by done.
    change (125 =? 44)%N with false. change (125 =? 125)%N with true. cbv iota.
    done.
  - change (serialize_more ?f inner ((k', y) :: ps))
      with ([44; 10]%N ++ inner
            ++ ((34%N :: quote_body k' ++ [34%N]) ++ [58; 32]%N ++ serialize NM inner y)
            ++ serialize_more f inner ps) in *.
    flatten.
    rewrite (Hx inner _ fuel Hxo Hxn Hinner); cycle 1.
    { by left. }
    { lengths. }
    rewrite Hdefine.
    rewrite skip_ws_head by done.
    change (44 =? 44)%N with true. cbv iota.
    replace (acc ++ (k, x) :: (k', y) :: ps) with ((acc ++ [(k, x)]) ++ (k', y) :: ps) in *
      by (by rewrite <- app_assoc).
    apply (IH k' y (acc ++ [(k, x)]) (10%N :: inner) inner indent rest fuel);
      [done|done|done|done|by constructor|done|done|done|].
    lengths.
Qed.

(** What the serializer prints, the parser reads back. *)
Lemma serialize_parses_back v : parses_back v.
Proof.
  induction v as [|b|n|s|l IH|ps IH] using JSValue_induction;
    intros indent rest fuel Hord Hnum Hindent Hrest Hfuel;
    (destruct fuel as [|fuel]; [lia|]).
  - reflexivity.
  - by destruct b.
  - destruct Hnum as (Hfinite & Hlex & Hvalue). cbn [serialize] in *. rewrite Hfinite in *.
    destruct (lex_number_head _ _ _ Hlex) as (c & t & Ht & Hc).
    rewrite Ht in *. cbn [app]. rewrite parse_value_number by done.
    change (c :: t ++ rest) with ((c :: t) ++ rest).
    rewrite (lex_number_app _ _ rest Hlex) by (by apply ends_value_stops_number).
    by rewrite Hvalue.
  - cbn [serialize parse_value]. unfold QuoteJSONString. cbn [app].
    rewrite skip_ws_head by done.
    change (34 =? 123)%N with false. change (34 =? 91)%N with false.
    change (34 =? 34)%N with true. cbv iota.
    rewrite <- app_assoc. cbn [app]. by rewrite parse_quoted.
  - destruct l as [|x xs]; [reflexivity|].
    apply properties_ordered_array in Hord. apply numbers_reread_array in Hnum.
    rewrite serialize_array in *. rewrite <- !app_assoc in *. cbn [app] in *.
    cbn [parse_value]. rewrite skip_ws_head by done.
    change (91 =? 123)%N with false. change (91 =? 91)%N with true. cbv iota.
    assert (spaces (indent ++ gap)) as Hinner.
    { apply list.Forall_app. split; [done|by repeat constructor]. }
    destruct (serialize_head (indent ++ gap) x) as (c & r & Hhead & Hc & Hclose & _).
    { by apply list.Forall_cons in Hnum as [? _]. }
    assert (skip_ws (10%N :: indent ++ gap ++ serialize NM (indent ++ gap) x
                     ++ serialize_more (serialize NM (indent ++ gap)) (indent ++ gap) xs
                     ++ 10%N :: indent ++ 93%N :: rest)
            = c :: r ++ serialize_more (serialize NM (indent ++ gap)) (indent ++ gap) xs
                     ++ 10%N :: indent ++ 93%N :: rest) as ->.
    { rewrite app_assoc.
      change (10%N :: (indent ++ gap) ++ ?t) with ((10%N :: indent ++ gap) ++ t).
      rewrite skip_ws_app by (by constructor). rewrite Hhead. cbn [app].
      by apply skip_ws_head. }
    rewrite Hclose.
    pose proof (parse_elements_serialized xs x [] (10%N :: indent ++ gap) (indent ++ gap)
                  indent rest fuel IH Hord Hnum) as Hloop.
    cbn [app rev] in Hloop. rewrite <- !app_assoc in Hloop.
    apply Hloop; [by constructor|done|done|done|].
    lengths.
  - destruct ps as [|[k x] ps]; [reflexivity|].
    apply properties_ordered_object in Hord as [Hkeys Hord].
    apply numbers_reread_object in Hnum.
    rewrite serialize_object in *. unfold QuoteJSONString at 1 in Hfuel.
    unfold QuoteJSONString at 1. rewrite <- !app_assoc in *. cbn [app] in *.
    rewrite <- !app_assoc in *. cbn [app] in *.
    cbn [parse_value]. rewrite skip_ws_head by done.
    change (123 =? 123)%N with true. cbv iota.
    assert (spaces (indent ++ gap)) as Hinner.
    { apply list.Forall_app. split; [done|by repeat constructor]. }
    match goal with
    | |- context [skip_ws (10%N :: indent ++ gap ++ 34%N :: ?t)] =>
        assert (skip_ws (10%N :: indent ++ gap ++ 34%N :: t) = 34%N :: t) as ->
    end.
    { rewrite app_assoc.
      match goal with
      | |- skip_ws (10%N :: (indent ++ gap) ++ ?t) = _ =>
          change (10%N :: (indent ++ gap) ++ t) with ((10%N :: indent ++ gap) ++ t)
      end.
      rewrite skip_ws_app by (by constructor). by apply skip_ws_head. }
    change (34 =? 125)%N with false. cbv iota.
    pose proof (parse_members_serialized ps k x [] (10%N :: indent ++ gap) (indent ++ gap)
                  indent rest fuel IH Hord Hnum Hkeys) as Hloop.
    cbn [app] in Hloop. rewrite <- !app_assoc in Hloop.
    apply Hloop; [by constructor|done|done|done|].
    lengths.
Qed.

(** [JSON.parse(JSON.stringify(v, null, 2))] is [v]. *)
Lemma JSON_parse_stringify v :
  properties_ordered v → numbers_reread v →
  JSON_parse NM (JSON_stringify NM v) = Some v.
Proof.
  intros Hord Hnum. unfold JSON_parse, JSON_stringify.
  pose proof (serialize_parses_back v [] [] (S (2 * length (serialize NM [] v)))
                Hord Hnum) as Hback.
  rewrite app_nil_r in Hback. rewrite Hback; [done|constructor|done|lia].
Qed.

End RoundTrip.

(** ** The clean-up of the model's text *)

Lemma strip_prefix_app (p s : jsstring) : strip_prefix p (p ++ s) = Some s.
Proof. induction p as [|a p IH]; [done|]. cbn [app strip_prefix]. by rewrite N.eqb_refl. Qed.

Lemma strip_json_fence_eq (s : jsstring) :
  strip_json_fence s
  = match strip_prefix json_fence s with
    | Some r =>
        match r with
        | c :: r' => if (c =? LF)%N then r' else r
        | [] => []
        end
    | None =>
        match s with
        | [] => []
        | c :: s' => c :: strip_json_fence s'
        end
    end.
Proof. by destruct s. Qed.

(** An opening marker at the very start goes with its line feed. *)
Lemma strip_json_fence_start (rest : jsstring) :
  strip_json_fence (json_fence ++ LF :: rest) = rest.
Proof. by rewrite strip_json_fence_eq, strip_prefix_app. Qed.

(** Three back-ticks at the very end go, whatever precedes them. *)
Lemma strip_final_fence_end (body : jsstring) :
  strip_final_fence (body ++ fence) = body.
Proof.
  induction body as [|c body IH]; [done|].
  cbn [app strip_final_fence]. unfold jsstring_eqb.
  rewrite bool_decide_eq_false_2; [by rewrite IH|].
  intros H%(f_equal length). rewrite length_cons, length_app in H.
  change (length fence) with 3 in H. lia.
Qed.


(** ** The claims about the orchestrator *)

(** C1 (as amended).  When every per-scene promise settles and exactly one
    of the image calls, the one for the scene at index [k], fails, the
    scene-image sequence has one entry per scene, aligned by index: the entry
    is null exactly at [k] and at the indices of blank scenes, and every other
    entry is the image returned for the scene at that index.  The
    master-synthesis request is still sent, as the last request, and the run
    ends as the service answers it: with the storyboard when it answers, with
    the generic failure when it does not. *)
Theorem failed_scene_image_is_null_at_its_index (NM : NumberModel) (svc : Service)
  (scenes : list jsstring) (imageFile : option File) (selectedStyle : jsstring)
  (promptFormat : PromptFormat) (k : nat) (failed reason : jsstring) :
  every_promise_settles svc scenes →
  scenes !! k = Some failed →
  nonblank failed = true →
  scene_call svc imageFile selectedStyle k failed = Rejected reason →
  (∀ i s, i ≠ k → scenes !! i = Some s → nonblank s = true →
          ∃ image, scene_call svc imageFile selectedStyle i s = Fulfilled image) →
  let run := handleGenerateStoryboard NM svc scenes imageFile selectedStyle promptFormat in
  ∃ images request,
    length images = length scenes
    ∧ (∀ i s, scenes !! i = Some s →
         images !! i
         = Some (if nonblank s then
                   match scene_call svc imageFile selectedStyle i s with
                   | Fulfilled image => Some image
                   | Rejected _ => None
                   end
                 else None))
    ∧ (∀ i s, scenes !! i = Some s →
         (images !! i = Some None ↔ i = k ∨ nonblank s = false))
    ∧ list.last (calls run) = Some (GenerateContent request)
    ∧ is_master_call (GenerateContent request) = true
    ∧ completion run
      = match generateContent svc request with
        | Fulfilled text =>
            Returned {| prompts := postprocess NM promptFormat text;
                        sceneImages := images |}
        | Rejected _ => Threw storyboard_failure_message
        end.
Proof.
  intros Hsettle Hk Hfailed Hrej Hothers run.
  pose proof (handleGenerateStoryboard_settled NM svc scenes imageFile selectedStyle
                promptFormat (nonblank_scene_passes_validation _ _ _ Hk Hfailed) Hsettle)
    as Hrun.
  cbv zeta in Hrun. fold run in Hrun.
  set (kw := imageStyleKeywords_of svc imageFile selectedStyle) in *.
  set (images := imap (scene_image svc selectedStyle kw) scenes) in *.
  assert (∀ i s, scenes !! i = Some s →
            images !! i
            = Some (if nonblank s then
                      match scene_call svc imageFile selectedStyle i s with
                      | Fulfilled image => Some image
                      | Rejected _ => None
                      end
                    else None)) as Himages.
  { intros i s Hi. unfold images. rewrite list_lookup_imap, Hi. simpl.
    unfold kw. by rewrite scene_image_spec. }
  eexists images, _.
  split; [apply length_imap|]. split; [exact Himages|]. split.
  { intros i s Hi. rewrite (Himages i s Hi). split.
    - intros Hnull. destruct (nonblank s) eqn:Hs; [|by right].
      destruct (decide (i = k)) as [->|Hne]; [by left|].
      destruct (Hothers i s Hne Hi Hs) as [image Himage]. by rewrite Himage in Hnull.
    - intros [->|Hblank]; [|by rewrite Hblank].
      assert (s = failed) as -> by congruence. by rewrite Hfailed, Hrej. }
  split; [rewrite Hrun; simpl; rewrite app_assoc; apply last_snoc|].
  split; [done|]. by rewrite Hrun.
Qed.

(** C2 (as amended).  The orchestrator sends exactly one image request per
    non-blank scene, in scene order, and none for a blank scene; when every
    promise settles the scene-image sequence has one entry per scene of the
    array, blank or not. *)
Theorem one_image_call_per_nonblank_scene (NM : NumberModel) (svc : Service)
  (scenes : list jsstring) (imageFile : option File) (selectedStyle : jsstring)
  (promptFormat : PromptFormat) :
  List.filter nonblank scenes ≠ [] →
  every_promise_settles svc scenes →
  let run := handleGenerateStoryboard NM svc scenes imageFile selectedStyle promptFormat in
  List.filter is_GenerateImages (calls run)
  = (λ s, GenerateImages
            (image_request
               (fullPrompt selectedStyle
                  (imageStyleKeywords_of svc imageFile selectedStyle) s) Ratio_4_3))
      <$> List.filter nonblank scenes
  ∧ length (List.filter is_GenerateImages (calls run))
    = length (List.filter nonblank scenes)
  ∧ ∃ images request,
      length images = length scenes
      ∧ (length images = length (List.filter is_GenerateImages (calls run))
         ↔ Forall (λ s, nonblank s = true) scenes)
      ∧ completion run
        = match generateContent svc request with
          | Fulfilled text =>
              Returned {| prompts := postprocess NM promptFormat text;
                          sceneImages := images |}
          | Rejected _ => Threw storyboard_failure_message
          end.
Proof.
  intros Hsome Hsettle run.
  pose proof (image_calls_of_run NM svc scenes imageFile selectedStyle promptFormat) as Hcalls.
  fold run in Hcalls. split; [exact Hcalls|]. split.
  { by rewrite Hcalls, length_fmap. }
  pose proof (handleGenerateStoryboard_settled NM svc scenes imageFile selectedStyle
                promptFormat Hsome Hsettle) as Hrun.
  cbv zeta in Hrun. fold run in Hrun.
  eexists _, _. split; [apply length_imap|]. split; [|by rewrite Hrun].
  rewrite length_imap, Hcalls, length_fmap. apply filter_keeps_all.
Qed.

(** C3.  When every scene is empty or white space only, the orchestrator
    fails at once with the message asking for at least one scene, leaves that
    message as the error state, and sends no request at all. *)
Theorem blank_storyboard_is_rejected_without_any_request (NM : NumberModel)
  (svc : Service) (scenes : list jsstring) (imageFile : option File)
  (selectedStyle : jsstring) (promptFormat : PromptFormat) :
  Forall (λ s, all_white_space s = true) scenes →
  handleGenerateStoryboard NM svc scenes imageFile selectedStyle promptFormat
  = {| completion := Threw (lit "Please add at least one scene to the storyboard.");
       generationError := Some [lit "Please add at least one scene to the storyboard."];
       calls := [] |}.
Proof.
  intros Hblank. unfold handleGenerateStoryboard.
  by rewrite (filter_nonblank_nil scenes Hblank).
Qed.

(** C4.  When the master-synthesis request of a run is rejected, the run
    throws the generic error, the error state holds the two fixed lines, and
    the page is left with an empty master prompt and an empty visual
    storyboard. *)
Theorem master_synthesis_failure_is_fatal (NM : NumberModel) (svc : Service)
  (scenes : list jsstring) (imageFile : option File) (selectedStyle : jsstring)
  (promptFormat : PromptFormat) (request : ContentRequest) (reason : jsstring) :
  let run := handleGenerateStoryboard NM svc scenes imageFile selectedStyle promptFormat in
  GenerateContent request ∈ calls run →
  is_master_call (GenerateContent request) = true →
  generateContent svc request = Rejected reason →
  completion run = Threw (lit "Could not generate storyboard.")
  ∧ generationError run
    = Some [lit "Failed to generate storyboard.";
            lit "Please check your connection or API key and try again."]
  ∧ fst (panel_handleGenerateStoryboard NM svc scenes imageFile selectedStyle promptFormat)
    = {| masterPrompt := []; visualStoryboard := []; isGenerating := false |}.
Proof.
  intros run Hin Hmaster Hrej. unfold panel_handleGenerateStoryboard. fold run.
  destruct (handleGenerateStoryboard_cases NM svc scenes imageFile selectedStyle promptFormat)
    as [[_ Hrun]|[[_ Hrun]|[_ Hrun]]]; fold run in Hrun; rewrite Hrun in Hin |- *;
    cbn [calls completion generationError] in Hin |- *.
  - by apply elem_of_nil in Hin.
  - apply sent_before_master in Hin. by rewrite Hmaster in Hin.
  - apply elem_of_app in Hin as [Hin|Hin].
    { apply sent_before_master in Hin. by rewrite Hmaster in Hin. }
    apply list_elem_of_singleton in Hin. injection Hin as <-. by rewrite Hrej.
Qed.

Lemma no_style_not_in_fixed_words (t : jsstring) :
  occurs_in No_Style (lit "cinematic shot depicting " ++ t) → occurs_in No_Style t.
Proof.
  intros (a & b & H). apply app_eq_inv in H as [(k & Hp & Hk)|(k & -> & ->)].
  - destruct k as [|c k]; [by exists [], b|].
    injection Hk as <- _.
    assert (78%N ∉ lit "cinematic shot depicting ") as Hnot
      by (apply (bool_decide_unpack _); vm_compute; exact I).
    destruct Hnot. rewrite Hp. apply elem_of_app. right. apply elem_of_cons. by left.
  - by exists k, b.
Qed.

(** C5.  When the analysis of the reference image fails, the run goes on
    as it does when every promise settles: after the failed analysis come the
    image requests of the non-blank scenes, whose prompts carry no
    image-derived keywords, then the master request, whose style guidance is
    the one of the selected style alone; the run ends as the service answers
    the master request.  For a named style the guidance reads
    [Cinematic Style: <name>.] and every image prompt starts with the name. *)
Theorem style_analysis_failure_is_not_fatal (NM : NumberModel) (svc : Service)
  (scenes : list jsstring) (file : File) (selectedStyle : jsstring)
  (promptFormat : PromptFormat) (reason : jsstring) :
  fst (analyzeImageStyle svc file) = Rejected reason →
  List.filter nonblank scenes ≠ [] →
  every_promise_settles svc scenes →
  let run :=
    handleGenerateStoryboard NM svc scenes (Some file) selectedStyle promptFormat in
  ∃ images,
    let request :=
      master_request promptFormat
        (TextPart framing_instruction
         :: TextPart (lit "--- STYLE GUIDANCE ---" ++ [LF] ++ named_style_guide selectedStyle)
         :: concat (imap (scene_parts images) scenes)) in
    calls run
    = snd (analyzeImageStyle svc file)
      ++ ((λ s, GenerateImages (image_request (fullPrompt selectedStyle [] s) Ratio_4_3))
            <$> List.filter nonblank scenes)
      ++ [GenerateContent request]
    ∧ completion run
      = match generateContent svc request with
        | Fulfilled text =>
            Returned {| prompts := postprocess NM promptFormat text;
                        sceneImages := images |}
        | Rejected _ => Threw storyboard_failure_message
        end
    ∧ (selectedStyle ≠ No_Style →
       named_style_guide selectedStyle = lit "Cinematic Style: " ++ selectedStyle ++ lit "."
       ∧ ∀ scene,
           fullPrompt selectedStyle [] scene
           = (if nonempty selectedStyle then selectedStyle ++ lit ", " else [])
             ++ lit "cinematic shot depicting " ++ trim scene).
Proof.
  intros Hfail Hsome Hsettle run.
  pose proof (handleGenerateStoryboard_settled NM svc scenes (Some file) selectedStyle
                promptFormat Hsome Hsettle) as Hrun.
  cbv zeta in Hrun. fold run in Hrun.
  assert (style_step svc (Some file) selectedStyle
          = (named_style_guide selectedStyle, [], snd (analyzeImageStyle svc file))) as Hstep.
  { unfold style_step. destruct (analyzeImageStyle svc file) as [[?|?] ?]; simpl in *; congruence. }
  unfold styleGuide_of, imageStyleKeywords_of in Hrun. rewrite Hstep in Hrun. simpl in Hrun.
  rewrite sent_by_scenes in Hrun.
  rewrite build_promptParts_spec in Hrun by apply scene_images_truthy.
  eexists. cbv zeta.
  split; [by rewrite Hrun|]. split; [by rewrite Hrun|].
  intros Hnamed. unfold named_style_guide, fullPrompt, styleForPrompt, jsstring_eqb.
  rewrite bool_decide_eq_false_2 by done. split; [done|]. intros scene. simpl.
  by destruct selectedStyle.
Qed.

(** The request sent with a system instruction is the master request built
    from the style guide and the scene images of the run. *)
Lemma master_call_of_run (NM : NumberModel) (svc : Service)
  (scenes : list jsstring) (imageFile : option File) (selectedStyle : jsstring)
  (promptFormat : PromptFormat) (request : ContentRequest) :
  let run := handleGenerateStoryboard NM svc scenes imageFile selectedStyle promptFormat in
  let images :=
    imap (scene_image svc selectedStyle
            (imageStyleKeywords_of svc imageFile selectedStyle)) scenes in
  GenerateContent request ∈ calls run →
  is_master_call (GenerateContent request) = true →
  request
  = master_request promptFormat
      (build_promptParts (styleGuide_of svc imageFile selectedStyle) scenes images)
  ∧ ∀ result, completion run = Returned result → sceneImages result = images.
Proof.
  intros run images Hin Hmaster.
  destruct (handleGenerateStoryboard_cases NM svc scenes imageFile selectedStyle promptFormat)
    as [[_ Hrun]|[[_ Hrun]|[_ Hrun]]]; fold run in Hrun; fold images in Hrun;
    rewrite Hrun in Hin |- *; cbn [calls completion generationError] in Hin |- *.
  - by apply elem_of_nil in Hin.
  - apply sent_before_master in Hin. by rewrite Hmaster in Hin.
  - apply elem_of_app in Hin as [Hin|Hin].
    { apply sent_before_master in Hin. by rewrite Hmaster in Hin. }
    apply list_elem_of_singleton in Hin. injection Hin as ->. split; [done|].
    intros result. destruct (generateContent svc _); [|done]. by intros [= <-].
Qed.

(** C7.  The master-synthesis request of a run consists of the framing
    instruction, the style guidance, and then, scene by scene in the order
    of the array, nothing for a blank scene and for any other scene its text
    followed by its preview image exactly when the scene-image sequence, the
    one the run returns, holds an image at the scene's index. *)
Theorem master_request_parts (NM : NumberModel) (svc : Service)
  (scenes : list jsstring) (imageFile : option File) (selectedStyle : jsstring)
  (promptFormat : PromptFormat) (request : ContentRequest) :
  let run := handleGenerateStoryboard NM svc scenes imageFile selectedStyle promptFormat in
  let images :=
    imap (scene_image svc selectedStyle
            (imageStyleKeywords_of svc imageFile selectedStyle)) scenes in
  GenerateContent request ∈ calls run →
  is_master_call (GenerateContent request) = true →
  content_parts request
  = TextPart framing_instruction
    :: TextPart (lit "--- STYLE GUIDANCE ---" ++ [LF]
                 ++ styleGuide_of svc imageFile selectedStyle)
    :: concat
         (imap (λ index scene,
                  if nonblank scene then
                    TextPart (lit "Scene " ++ nat_to_string (index + 1)
                              ++ lit ": " ++ trim scene)
                    :: match images !! index with
                       | Some (Some imageBase64) =>
                           [InlineData (lit "image/jpeg") imageBase64]
                       | _ => []
                       end
                  else []) scenes)
  ∧ ∀ result, completion run = Returned result → sceneImages result = images.
Proof.
  intros run images Hin Hmaster.
  destruct (master_call_of_run NM svc scenes imageFile selectedStyle promptFormat request
              Hin Hmaster) as [-> Hresult].
  split; [|exact Hresult]. cbn [master_request content_parts].
  by rewrite build_promptParts_spec by apply scene_images_truthy.
Qed.

(** C9.  With the "No Style" sentinel selected and no image-derived
    keywords, the image request of every non-blank scene has the prompt
    [cinematic shot depicting ] followed by the trimmed scene text and nothing
    else, so the sentinel occurs in a prompt only where the scene text itself
    contains it; the style guidance of the master request starts with the
    fallback sentence. *)
Theorem no_style_prompt_is_the_bare_scene (NM : NumberModel) (svc : Service)
  (scenes : list jsstring) (imageFile : option File) (promptFormat : PromptFormat) :
  imageStyleKeywords_of svc imageFile No_Style = [] →
  let run := handleGenerateStoryboard NM svc scenes imageFile No_Style promptFormat in
  List.filter is_GenerateImages (calls run)
  = (λ s, GenerateImages
            (image_request (lit "cinematic shot depicting " ++ trim s) Ratio_4_3))
      <$> List.filter nonblank scenes
  ∧ (∀ s, occurs_in (lit "No Style") (lit "cinematic shot depicting " ++ trim s) →
          occurs_in (lit "No Style") (trim s))
  ∧ (∀ request,
       GenerateContent request ∈ calls run →
       is_master_call (GenerateContent request) = true →
       ∃ more,
         content_parts request !! 1
         = Some (TextPart (lit "--- STYLE GUIDANCE ---" ++ [LF]
                           ++ lit "No specific cinematic style has been selected; rely on the reference image (if provided) and scene descriptions for style cues."
                           ++ more))).
Proof.
  intros Hkw run. split; [|split].
  - unfold run. rewrite image_calls_of_run, Hkw. done.
  - intros s. apply no_style_not_in_fixed_words.
  - intros request Hin Hmaster.
    destruct (master_call_of_run NM svc scenes imageFile No_Style promptFormat request
                Hin Hmaster) as [-> _].
    cbn [master_request content_parts].
    rewrite build_promptParts_spec by apply scene_images_truthy.
    assert (named_style_guide No_Style = no_style_sentence) as Hguide by done.
    assert (∀ (a b : Part) r, (a :: b :: r) !! 1 = Some b) as -> by done.
    unfold styleGuide_of, style_step. destruct imageFile as [file|]; cbn [fst snd].
    + destruct (analyzeImageStyle svc file) as [[imageStyle|?] ?]; cbn [fst snd];
        rewrite Hguide.
      * eexists. reflexivity.
      * exists []. by rewrite app_nil_r.
    + exists []. rewrite Hguide. by rewrite app_nil_r.
Qed.

(** ** The claims about the example-scene button *)

(** C8.  For a text that is not JSON and holds two blocks, the first one
    starting on the line after the marker [--- SCENE 1 ---] and running to the
    marker [--- SCENE 2 ---], with no marker before or inside it, the prompt
    extracted is the first block, trimmed.  The shapes are tried in a fixed
    order: a JSON array whose first element carries [generation_prompt], then
    a JSON object whose [scenes] array does, and marker splitting for a text
    that is not JSON. *)
Theorem first_prompt_extraction (NM : NumberModel) :
  (∀ (before block' after : jsstring) (lt : N),
     let block := lt :: block' in
     let text :=
       before ++ lit "--- SCENE 1 ---" ++ block ++ lit "--- SCENE 2 ---" ++ after in
     JSON_parse NM text = None →
     (∀ i, i < length before → match_marker (drop i text) = None) →
     is_line_terminator lt = true →
     (∀ i, i < length block →
           match_marker (drop i (block ++ lit "--- SCENE 2 ---" ++ after)) = None) →
     extracted_prompt NM text = JString (trim block)
     ∧ ∀ videoType logoFile,
         handleGenerateScene NM text videoType logoFile
         = Animate (if nonempty (trim block) then trim block else text)
                   (match videoType with logo => logoFile | _ => None end))
  ∧ (∀ text props rest prompt,
       JSON_parse NM text = Some (JArray (JObject props :: rest)) →
       get_own (lit "generation_prompt") props = Some (JString prompt) →
       prompt ≠ [] →
       extracted_prompt NM text = JString prompt)
  ∧ (∀ text props first rest prompt,
       JSON_parse NM text = Some (JObject props) →
       get_own (lit "scenes") props = Some (JArray (JObject first :: rest)) →
       get_own (lit "generation_prompt") first = Some (JString prompt) →
       prompt ≠ [] →
       extracted_prompt NM text = JString prompt)
  ∧ (∀ text,
       JSON_parse NM text = None →
       extracted_prompt NM text
       = JString (match split_markers text with
                  | _ :: first :: _ => trim first
                  | _ => text
                  end)).
Proof.
  split; [|split; [|split]].
  - intros before block' after lt block text Hjson Hbefore Hlt Hblock.
    destruct (split_two_blocks before block' after lt Hbefore Hlt Hblock) as [rest Hsplit].
    fold block text in Hsplit.
    assert (extracted_prompt NM text = JString (trim block)) as Hextracted.
    { unfold extracted_prompt, marker_prompt. by rewrite Hjson, Hsplit. }
    split; [exact Hextracted|]. intros videoType logoFile.
    unfold handleGenerateScene. rewrite Hextracted, trim_idempotent.
    destruct (nonempty text) eqn:Htext; [done|].
    destruct before; discriminate.
  - intros text props rest prompt Hparse Hprompt Hne.
    unfold extracted_prompt. rewrite Hparse. cbn [firstScenePrompt generation_prompt_of].
    rewrite Hprompt. cbn [truthy]. by destruct prompt.
  - intros text props first rest prompt Hparse Hscenes Hprompt Hne.
    unfold extracted_prompt. rewrite Hparse.
    cbn [firstScenePrompt scenes_of]. rewrite Hscenes.
    cbn [length_positive first_of generation_prompt_of]. rewrite Hprompt.
    cbn [truthy]. by destruct prompt.
  - intros text Hparse. unfold extracted_prompt. by rewrite Hparse.
Qed.

(** C10.  For a non-empty master prompt the prompt handed to image
    generation is never empty: it is either the extracted prompt, which then
    has text left after trimming, or the whole master prompt; an extracted
    prompt that is empty or white space only is replaced by the unchanged
    master prompt.  The click either sends exactly one image request, with
    that prompt, or (when the extracted value is not a string) stops with an
    uncaught type error and sends nothing. *)
Theorem preview_prompt_is_never_empty (NM : NumberModel) (svc : Service)
  (masterPrompt : jsstring) (videoType : VideoType) (logoFile : option File) :
  masterPrompt ≠ [] →
  (∀ finalPrompt imageFile,
     handleGenerateScene NM masterPrompt videoType logoFile = Animate finalPrompt imageFile →
     finalPrompt ≠ []
     ∧ (finalPrompt = masterPrompt ∨ trim finalPrompt ≠ [])
     ∧ preview_calls NM svc masterPrompt videoType logoFile
       = [GenerateImages (image_request finalPrompt Ratio_16_9)])
  ∧ (∀ extracted,
       extracted_prompt NM masterPrompt = JString extracted →
       handleGenerateScene NM masterPrompt videoType logoFile
       = Animate (if nonempty (trim extracted) then extracted else masterPrompt)
                 (match videoType with logo => logoFile | _ => None end)
       ∧ (all_white_space extracted = true →
          handleGenerateScene NM masterPrompt videoType logoFile
          = Animate masterPrompt (match videoType with logo => logoFile | _ => None end)))
  ∧ (∀ request,
       GenerateImages request ∈ preview_calls NM svc masterPrompt videoType logoFile →
       images_prompt request ≠ [])
  ∧ ((∀ extracted, extracted_prompt NM masterPrompt ≠ JString extracted) →
     handleGenerateScene NM masterPrompt videoType logoFile = UncaughtTypeError
     ∧ preview_calls NM svc masterPrompt videoType logoFile = []).
Proof.
  intros Hmaster.
  assert (nonempty masterPrompt = true) as Hne by (by destruct masterPrompt).
  assert (∀ finalPrompt imageFile,
            handleGenerateScene NM masterPrompt videoType logoFile
            = Animate finalPrompt imageFile →
            finalPrompt ≠ [] ∧ (finalPrompt = masterPrompt ∨ trim finalPrompt ≠ [])) as Hfinal.
  { intros finalPrompt imageFile. unfold handleGenerateScene. rewrite Hne.
    destruct (extracted_prompt NM masterPrompt) as [| | |p| |]; try done.
    destruct (nonempty (trim p)) eqn:Hp; intros [= <- _].
    - split; [|right]; intros Hnil; [subst p|rewrite Hnil in Hp]; done.
    - split; [done|by left]. }
  assert (∀ finalPrompt imageFile,
            animate_calls (handleAnimate svc finalPrompt imageFile)
            = [GenerateImages (image_request finalPrompt Ratio_16_9)]) as Hcalls.
  { intros finalPrompt imageFile. unfold handleAnimate.
    by destruct (generateImage svc 0 finalPrompt Ratio_16_9). }
  split; [|split; [|split]].
  - intros finalPrompt imageFile Hscene.
    destruct (Hfinal finalPrompt imageFile Hscene) as [H1 H2].
    split; [exact H1|]. split; [exact H2|].
    unfold preview_calls. rewrite Hscene. apply Hcalls.
  - intros extracted Hextracted. unfold handleGenerateScene.
    rewrite Hne, Hextracted. split; [done|].
    intros Hblank. by rewrite (trim_white_space extracted Hblank).
  - intros request. unfold preview_calls.
    destruct (handleGenerateScene NM masterPrompt videoType logoFile)
      as [| |finalPrompt imageFile] eqn:Hscene;
      [intros Hin; by apply elem_of_nil in Hin..|].
    rewrite Hcalls. intros Hin%list_elem_of_singleton. injection Hin as ->.
    by destruct (Hfinal finalPrompt imageFile eq_refl).
  - intros Hother. unfold preview_calls, handleGenerateScene. rewrite Hne.
    destruct (extracted_prompt NM masterPrompt) as [| | |p| |] eqn:Hp; try done.
    by destruct (Hother p).
Qed.

(** ** The claim about the JSON post-processing *)

(** C6 (as amended).  For the JSON format the model's text is first cleaned:
    the first opening marker (three back-ticks and [json], with the line feed
    after it) is removed, then three back-ticks at the very end, then leading
    and trailing white space, so a JSON text wrapped between such markers is
    unwrapped.  When the cleaned text is valid JSON the result is its
    serialization with two-space indentation, and that parses back to the
    same value provided every number in it is one that the runtime prints as
    a number that reads back unchanged.  When the cleaned text is not valid
    JSON the result is the cleaned text itself.  In neither case does the
    orchestrator surface an error. *)
Theorem json_postprocessing (NM : NumberModel) (text : jsstring) :
  let cleaned := trim (strip_final_fence (strip_json_fence text)) in
  (∀ v, JSON_parse NM cleaned = Some v →
        postprocess NM json text = JSON_stringify NM v
        ∧ (numbers_reread v → JSON_parse NM (postprocess NM json text) = Some v))
  ∧ (JSON_parse NM cleaned = None → postprocess NM json text = cleaned)
  ∧ (∀ body, clean_json_text (lit "```json" ++ [LF] ++ body ++ lit "```") = trim body)
  ∧ (∀ svc scenes imageFile selectedStyle result,
       completion (handleGenerateStoryboard NM svc scenes imageFile selectedStyle json)
       = Returned result →
       generationError (handleGenerateStoryboard NM svc scenes imageFile selectedStyle json)
       = None
       ∧ ∃ response, prompts result = postprocess NM json response).
Proof.
  intros cleaned. split; [|split; [|split]].
  - intros v Hparse. unfold postprocess, clean_json_text. fold cleaned. rewrite Hparse.
    split; [done|]. intros Hnum.
    apply JSON_parse_stringify; [by eapply JSON_parse_ordered|done].
  - intros Hparse. unfold postprocess, clean_json_text. fold cleaned. by rewrite Hparse.
  - intros body. unfold clean_json_text.
    change (lit "```json" ++ [LF] ++ body ++ lit "```")
      with (json_fence ++ LF :: (body ++ fence)).
    by rewrite strip_json_fence_start, strip_final_fence_end.
  - intros svc scenes imageFile selectedStyle result.
    destruct (handleGenerateStoryboard_cases NM svc scenes imageFile selectedStyle json)
      as [[_ ->]|[[_ ->]|[_ ->]]]; cbn [completion generationError]; try done.
    destruct (generateContent svc _) as [response|]; [|done].
    intros [= <-]. split; [done|]. by exists response.
Qed.


(** ** The claims on the scenario of the specification *)

Ltac slot_cases i :=
  destruct i as [|[|[|i]]]; [..|simpl in *; lia].

Lemma scenario_promises_settle (analysis master : Outcome jsstring) :
  every_promise_settles (scenario_service analysis master) scenario_scenes.
Proof.
  intros i Hi. simpl. slot_cases i; rewrite !elem_of_cons; auto.
Qed.

Lemma scenario_other_images (analysis master : Outcome jsstring) (imageFile : option File) :
  ∀ i s, i ≠ 0 → scenario_scenes !! i = Some s → nonblank s = true →
    ∃ image,
      scene_call (scenario_service analysis master) imageFile scenario_style i s
      = Fulfilled image.
Proof.
  intros i s Hi Hs Hn. exists (lit "SU1H").
  destruct i as [|[|[|i]]]; try done; injection Hs as <-; done.
Qed.

(** C1, on the scenario: the candle's image call is the one that fails. *)
Lemma failed_scene_image_scenario :
  every_promise_settles service_refusing_one_image scenario_scenes
  ∧ scenario_scenes !! 0 = Some (lit "a lit candle in a dark room")
  ∧ nonblank (lit "a lit candle in a dark room") = true
  ∧ scene_call service_refusing_one_image None scenario_style 0
      (lit "a lit candle in a dark room") = Rejected (lit "quota exceeded")
  ∧ ∃ (images : list (option jsstring)) request,
      length images = 3
      ∧ images !! 0 = Some None
      ∧ list.last (calls (handleGenerateStoryboard WholeNumbers service_refusing_one_image
                            scenario_scenes None scenario_style classic))
        = Some (GenerateContent request).
Proof.
  split; [apply scenario_promises_settle|].
  split; [reflexivity|]. split; [reflexivity|]. split; [reflexivity|].
  destruct (failed_scene_image_is_null_at_its_index WholeNumbers service_refusing_one_image
              scenario_scenes None scenario_style classic 0
              (lit "a lit candle in a dark room") (lit "quota exceeded")
              (scenario_promises_settle _ _) eq_refl eq_refl eq_refl
              (scenario_other_images _ _ None))
    as (images & request & Hlen & _ & Hnull & Hlast & _).
  exists images, request. split; [exact Hlen|]. split; [|exact Hlast].
  apply (Hnull 0 _ eq_refl). by left.
Defined.

(** C1 as stated fails: with one blank scene next to the failed one, the
    single image call issued fails and the sequence holds two null entries. *)
Lemma blank_scene_is_a_second_null_entry :
  List.filter is_GenerateImages
    (calls (handleGenerateStoryboard WholeNumbers service_refusing_one_image
              candle_and_blank None scenario_style classic))
  = [GenerateImages
       (image_request
          (lit "Noir Thriller, cinematic shot depicting a lit candle in a dark room")
          Ratio_4_3)]
  ∧ scene_call service_refusing_one_image None scenario_style 0
      (lit "a lit candle in a dark room") = Rejected (lit "quota exceeded")
  ∧ completion (handleGenerateStoryboard WholeNumbers service_refusing_one_image
                  candle_and_blank None scenario_style classic)
    = Returned {| prompts := classic_answer; sceneImages := [None; None] |}.
Proof. split; [|split]; vm_compute; reflexivity. Qed.

(** C2, on the scenario: two image requests for three scenes. *)
Lemma one_image_call_per_nonblank_scene_scenario :
  List.filter nonblank scenario_scenes ≠ []
  ∧ every_promise_settles service_refusing_one_image scenario_scenes
  ∧ length (List.filter is_GenerateImages
              (calls (handleGenerateStoryboard WholeNumbers service_refusing_one_image
                        scenario_scenes None scenario_style classic)))
    = 2.
Proof.
  assert (List.filter nonblank scenario_scenes ≠ []) as Hsome by (vm_compute; discriminate).
  split; [exact Hsome|]. split; [apply scenario_promises_settle|].
  destruct (one_image_call_per_nonblank_scene WholeNumbers service_refusing_one_image
              scenario_scenes None scenario_style classic Hsome
              (scenario_promises_settle _ _)) as (_ & Hcount & _).
  rewrite Hcount. reflexivity.
Defined.

(** C2 as stated fails: one image call for an array of two scenes, and a
    scene-image sequence of length two. *)
Lemma blank_scene_gets_no_image_call :
  length (List.filter is_GenerateImages
            (calls (handleGenerateStoryboard WholeNumbers service_refusing_one_image
                      candle_and_blank None scenario_style classic))) = 1
  ∧ length candle_and_blank = 2
  ∧ ∃ result,
      completion (handleGenerateStoryboard WholeNumbers service_refusing_one_image
                    candle_and_blank None scenario_style classic) = Returned result
      ∧ length (sceneImages result) = 2.
Proof.
  split; [vm_compute; reflexivity|]. split; [reflexivity|].
  eexists. split; vm_compute; reflexivity.
Qed.

(** C3, on a storyboard of an empty and a blank scene. *)
Lemma blank_storyboard_scenario :
  Forall (λ s, all_white_space s = true) [[]; lit "   "]
  ∧ handleGenerateStoryboard WholeNumbers service_refusing_one_image
      [[]; lit "   "] None scenario_style classic
    = {| completion := Threw (lit "Please add at least one scene to the storyboard.");
         generationError := Some [lit "Please add at least one scene to the storyboard."];
         calls := [] |}.
Proof.
  assert (Forall (λ s, all_white_space s = true) [[]; lit "   "]) as Hblank
    by (repeat constructor).
  split; [exact Hblank|].
  exact (blank_storyboard_is_rejected_without_any_request WholeNumbers
           service_refusing_one_image _ None scenario_style classic Hblank).
Defined.

Lemma scenario_master_call (NM : NumberModel) (analysis master : Outcome jsstring)
  (imageFile : option File) (selectedStyle : jsstring) (promptFormat : PromptFormat) :
  ∃ request,
    GenerateContent request
    ∈ calls (handleGenerateStoryboard NM (scenario_service analysis master)
               scenario_scenes imageFile selectedStyle promptFormat)
    ∧ is_master_call (GenerateContent request) = true
    ∧ generateContent (scenario_service analysis master) request = master.
Proof.
  assert (List.filter nonblank scenario_scenes ≠ []) as Hsome by (vm_compute; discriminate).
  pose proof (handleGenerateStoryboard_settled NM (scenario_service analysis master)
                scenario_scenes imageFile selectedStyle promptFormat Hsome
                (scenario_promises_settle _ _)) as Hrun.
  cbv zeta in Hrun. eexists. rewrite Hrun. cbn [calls]. split; [|split].
  - rewrite !elem_of_app. right. right. apply list_elem_of_singleton. reflexivity.
  - reflexivity.
  - reflexivity.
Defined.

(** C4, on the scenario with the master synthesis refused. *)
Lemma master_synthesis_failure_scenario :
  ∃ request,
    GenerateContent request
    ∈ calls (handleGenerateStoryboard WholeNumbers service_refusing_master
               scenario_scenes None scenario_style classic)
    ∧ is_master_call (GenerateContent request) = true
    ∧ generateContent service_refusing_master request = Rejected (lit "unavailable")
    ∧ completion (handleGenerateStoryboard WholeNumbers service_refusing_master
                    scenario_scenes None scenario_style classic)
      = Threw (lit "Could not generate storyboard.").
Proof.
  destruct (scenario_master_call WholeNumbers (Fulfilled (lit "moody, high contrast"))
              (Rejected (lit "unavailable")) None scenario_style classic)
    as (request & Hin & Hmaster & Hrej).
  exists request. split; [exact Hin|]. split; [exact Hmaster|]. split; [exact Hrej|].
  exact (proj1 (master_synthesis_failure_is_fatal WholeNumbers service_refusing_master
                  scenario_scenes None scenario_style classic request _ Hin Hmaster Hrej)).
Defined.

(** C5, on the scenario with a reference image whose analysis is refused. *)
Lemma style_analysis_failure_scenario :
  fst (analyzeImageStyle service_refusing_analysis reference_image)
  = Rejected (lit "unavailable")
  ∧ List.filter nonblank scenario_scenes ≠ []
  ∧ every_promise_settles service_refusing_analysis scenario_scenes
  ∧ ∃ images,
      completion (handleGenerateStoryboard WholeNumbers service_refusing_analysis
                    scenario_scenes (Some reference_image) scenario_style classic)
      = Returned {| prompts := classic_answer; sceneImages := images |}
      ∧ named_style_guide scenario_style = lit "Cinematic Style: Noir Thriller.".
Proof.
  assert (List.filter nonblank scenario_scenes ≠ []) as Hsome by (vm_compute; discriminate).
  split; [reflexivity|]. split; [exact Hsome|]. split; [apply scenario_promises_settle|].
  destruct (style_analysis_failure_is_not_fatal WholeNumbers service_refusing_analysis
              scenario_scenes reference_image scenario_style classic (lit "unavailable")
              eq_refl Hsome (scenario_promises_settle _ _))
    as (images & _ & Hcompletion & Hnamed).
  exists images. split; [exact Hcompletion|].
  destruct Hnamed as [-> _]; [vm_compute; discriminate|reflexivity].
Defined.

(** C7, on the scenario: the candle has no image, the blank scene gives
    nothing, the sunrise gives its text and its image. *)
Lemma master_request_parts_scenario :
  ∃ request,
    GenerateContent request
    ∈ calls (handleGenerateStoryboard WholeNumbers service_refusing_one_image
               scenario_scenes None scenario_style classic)
    ∧ is_master_call (GenerateContent request) = true
    ∧ content_parts request
      = [TextPart framing_instruction;
         TextPart (lit "--- STYLE GUIDANCE ---" ++ [LF]
                   ++ lit "Cinematic Style: Noir Thriller.");
         TextPart (lit "Scene 1: a lit candle in a dark room");
         TextPart (lit "Scene 3: a sunrise over mountains");
         InlineData (lit "image/jpeg") (lit "SU1H")].
Proof.
  destruct (scenario_master_call WholeNumbers (Fulfilled (lit "moody, high contrast"))
              (Fulfilled classic_answer) None scenario_style classic)
    as (request & Hin & Hmaster & _).
  exists request. split; [exact Hin|]. split; [exact Hmaster|].
  rewrite (proj1 (master_request_parts WholeNumbers service_refusing_one_image
                    scenario_scenes None scenario_style classic request Hin Hmaster)).
  vm_compute. reflexivity.
Defined.

(** C9, on the scenario with no style selected and no reference image. *)
Lemma no_style_prompt_scenario :
  imageStyleKeywords_of service_refusing_one_image None No_Style = []
  ∧ List.filter is_GenerateImages
      (calls (handleGenerateStoryboard WholeNumbers service_refusing_one_image
                scenario_scenes None No_Style classic))
    = [GenerateImages
         (image_request (lit "cinematic shot depicting a lit candle in a dark room")
            Ratio_4_3);
       GenerateImages
         (image_request (lit "cinematic shot depicting a sunrise over mountains")
            Ratio_4_3)].
Proof.
  split; [reflexivity|].
  rewrite (proj1 (no_style_prompt_is_the_bare_scene WholeNumbers service_refusing_one_image
                    scenario_scenes None classic eq_refl)).
  vm_compute. reflexivity.
Defined.

(** C8, on a master prompt with two scene blocks. *)
Lemma first_prompt_extraction_example :
  JSON_parse WholeNumbers two_block_text = None
  ∧ is_line_terminator LF = true
  ∧ (∀ i, i < length (LF :: lit "A lit candle." ++ [LF]) →
          match_marker (drop i ((LF :: lit "A lit candle." ++ [LF])
                                ++ lit "--- SCENE 2 ---" ++ [LF] ++ lit "A sunrise."))
          = None)
  ∧ extracted_prompt WholeNumbers two_block_text = JString (lit "A lit candle.").
Proof.
  assert (∀ i, i < length (LF :: lit "A lit candle." ++ [LF]) →
            match_marker (drop i ((LF :: lit "A lit candle." ++ [LF])
                                  ++ lit "--- SCENE 2 ---" ++ [LF] ++ lit "A sunrise."))
            = None) as Hblock.
  { intros i Hi.
    do 15 (destruct i as [|i]; [vm_compute; reflexivity|]).
    exfalso. revert Hi. vm_compute. lia. }
  split; [vm_compute; reflexivity|]. split; [reflexivity|]. split; [exact Hblock|].
  refine (proj1 (proj1 (first_prompt_extraction WholeNumbers) []
                   (lit "A lit candle." ++ [LF]) ([LF] ++ lit "A sunrise.") LF
                   _ _ eq_refl Hblock)).
  - vm_compute. reflexivity.
  - intros i Hi. exfalso. revert Hi. simpl. lia.
Defined.

(** C10, on a JSON master prompt whose first generation prompt is blank. *)
Lemma preview_prompt_example :
  blank_prompt_json ≠ []
  ∧ extracted_prompt WholeNumbers blank_prompt_json = JString (lit "   ")
  ∧ handleGenerateScene WholeNumbers blank_prompt_json introOutro None
    = Animate blank_prompt_json None.
Proof.
  assert (blank_prompt_json ≠ []) as Hne by (vm_compute; discriminate).
  assert (extracted_prompt WholeNumbers blank_prompt_json = JString (lit "   "))
    as Hextracted by (vm_compute; reflexivity).
  split; [exact Hne|]. split; [exact Hextracted|].
  destruct (preview_prompt_is_never_empty WholeNumbers service_refusing_one_image
              blank_prompt_json introOutro None Hne) as (_ & Hblank & _).
  exact (proj2 (Hblank (lit "   ") Hextracted) eq_refl).
Defined.

(** C6, on a JSON answer between code fences. *)
Lemma json_postprocessing_example :
  ∃ v,
    JSON_parse WholeNumbers (trim (strip_final_fence (strip_json_fence fenced_json_answer)))
    = Some v
    ∧ numbers_reread v
    ∧ JSON_parse WholeNumbers (postprocess WholeNumbers json fenced_json_answer) = Some v.
Proof.
  assert (∃ v, JSON_parse WholeNumbers
                 (trim (strip_final_fence (strip_json_fence fenced_json_answer))) = Some v
               ∧ numbers_reread v) as (v & Hparse & Hnum).
  { eexists. split; [vm_compute; reflexivity|].
    cbn [numbers_reread snd]. repeat split; vm_compute; reflexivity. }
  exists v. split; [exact Hparse|]. split; [exact Hnum|].
  exact (proj2 (proj1 (json_postprocessing WholeNumbers fenced_json_answer) v Hparse) Hnum).
Defined.

(** C6 as stated fails: a text that is not JSON and holds no code-fence
    marker comes back without its surrounding white space, not unchanged. *)
Lemma invalid_json_text_is_trimmed :
  JSON_parse WholeNumbers (clean_json_text (lit " not json ")) = None
  ∧ strip_final_fence (strip_json_fence (lit " not json ")) = lit " not json "
  ∧ postprocess WholeNumbers json (lit " not json ") = lit "not json"
  ∧ postprocess WholeNumbers json (lit " not json ")
    ≠ strip_final_fence (strip_json_fence (lit " not json ")).
Proof.
  split; [vm_compute; reflexivity|]. split; [vm_compute; reflexivity|].
  split; [vm_compute; reflexivity|]. vm_compute. discriminate.
Qed.

(** * Further properties of the code *)

(** ** White space *)

Lemma trimStart_nil (s : jsstring) : trimStart s = [] → all_white_space s = true.
Proof.
  induction s as [|c r IH]; [done|].
  cbn [trimStart all_white_space forallb]. destruct (is_white_space c); [|done].
  intros H. by apply IH.
Qed.

Lemma all_white_space_rev (s : jsstring) :
  all_white_space (rev s) = all_white_space s.
Proof.
  unfold all_white_space. induction s as [|c r IH]; [done|].
  cbn [rev forallb]. rewrite forallb_app, IH. cbn [forallb].
  destruct (is_white_space c), (forallb is_white_space r); done.
Qed.

Lemma trimEnd_nil (s : jsstring) : trimEnd s = [] → all_white_space s = true.
Proof.
  unfold trimEnd. intros H.
  rewrite <- all_white_space_rev. apply trimStart_nil.
  apply (f_equal (@rev N)) in H. by rewrite rev_involutive in H.
Qed.

(** [s.trim()] is empty exactly when [s] is made of white space only. *)
Lemma trim_nil_iff (s : jsstring) : trim s = [] ↔ all_white_space s = true.
Proof.
  split; [|apply trim_white_space].
  unfold trim. intros H. apply trimEnd_nil in H.
  destruct (trimStart_head s) as [Hs|(c & r & Hs & Hc)].
  - by apply trimStart_nil.
  - rewrite Hs in H. cbn [all_white_space forallb] in H. by rewrite Hc in H.
Qed.

Lemma nonblank_false (s : jsstring) : nonblank s = false ↔ all_white_space s = true.
Proof.
  rewrite <- trim_nil_iff. unfold nonblank. by destruct (trim s).
Qed.

Lemma filter_nonblank_nil_iff (scenes : list jsstring) :
  List.filter nonblank scenes = [] ↔ Forall (λ s, all_white_space s = true) scenes.
Proof.
  induction scenes as [|s r IH]; [by split|].
  cbn [List.filter]. rewrite list.Forall_cons, <- IH, <- nonblank_false.
  destruct (nonblank s); [|tauto]. split; [done|]. by intros [? _].
Qed.

(** ** The joint wait *)

Lemma allSettled_slots {A} (promises : list (Outcome A)) order i :
  foldl (settle promises) (replicate (length promises) None) order !! i
  = if decide (i ∈ order) then Some <$> promises !! i
    else replicate (length promises) None !! i.
Proof. apply settle_lookup. by rewrite length_replicate. Qed.


(** The joint promise depends on which slots settle, not on their order. *)
Lemma allSettled_order {A} (promises : list (Outcome A)) order order' :
  (∀ i, i < length promises → (i ∈ order ↔ i ∈ order')) →
  allSettled promises order = allSettled promises order'.
Proof.
  intros Hsame. unfold allSettled. f_equal. apply list_eq. intros i.
  rewrite !allSettled_slots.
  destruct (decide (i < length promises)) as [Hi|Hi].
  - specialize (Hsame i Hi).
    destruct (decide (i ∈ order)), (decide (i ∈ order')); tauto.
  - rewrite (lookup_ge_None_2 promises i) by lia.
    rewrite (lookup_ge_None_2 (replicate _ _) i) by (rewrite length_replicate; lia).
    by destruct (decide (i ∈ order)), (decide (i ∈ order')).
Qed.


Lemma length_imagePromises (svc : Service) selectedStyle kw (scenes : list jsstring) :
  length (fst <$> imap (imagePromise svc selectedStyle kw) scenes) = length scenes.
Proof. by rewrite length_fmap, length_imap. Qed.

(** ** Further properties of the storyboard orchestrator *)

Lemma failure_messages_differ : storyboard_failure_message ≠ add_scene_message.
Proof. vm_compute. discriminate. Qed.

Lemma image_requests_nil (svc : Service) selectedStyle kw (scenes : list jsstring) :
  concat (snd <$> imap (imagePromise svc selectedStyle kw) scenes) = [] ↔
  List.filter nonblank scenes = [].
Proof.
  rewrite sent_by_scenes. split.
  - intros H. by apply fmap_nil_inv in H.
  - by intros ->.
Qed.

(** The run is refused exactly when no scene is left after trimming. *)
Lemma refused_run_iff (NM : NumberModel) (svc : Service) (scenes : list jsstring)
  (imageFile : option File) (selectedStyle : jsstring) (promptFormat : PromptFormat) :
  completion (handleGenerateStoryboard NM svc scenes imageFile selectedStyle promptFormat)
  = Threw add_scene_message
  ↔ List.filter nonblank scenes = [].
Proof.
  destruct (handleGenerateStoryboard_cases NM svc scenes imageFile selectedStyle promptFormat)
    as [[Hnil Hrun]|[[Hsome Hrun]|[Hsome Hrun]]]; rewrite Hrun; cbn [completion].
  - done.
  - done.
  - split; [|done]. destruct (generateContent svc _); [done|].
    intros H. exfalso. injection H as H. by destruct failure_messages_differ.
Qed.

(** X1.  The orchestrator refuses a storyboard, with the message asking for
    at least one scene, exactly when every scene is made of white space
    only; and these are the only runs that send no request at all. *)
Theorem storyboard_is_refused_exactly_when_blank (NM : NumberModel) (svc : Service)
  (scenes : list jsstring) (imageFile : option File) (selectedStyle : jsstring)
  (promptFormat : PromptFormat) :
  let run := handleGenerateStoryboard NM svc scenes imageFile selectedStyle promptFormat in
  (completion run = Threw (lit "Please add at least one scene to the storyboard.")
   ↔ Forall (λ s, all_white_space s = true) scenes)
  ∧ (generationError run = Some [lit "Please add at least one scene to the storyboard."]
     ↔ Forall (λ s, all_white_space s = true) scenes)
  ∧ (calls run = [] ↔ Forall (λ s, all_white_space s = true) scenes).
Proof.
  intros run. rewrite <- filter_nonblank_nil_iff.
  destruct (handleGenerateStoryboard_cases NM svc scenes imageFile selectedStyle promptFormat)
    as [[Hnil Hrun]|[[Hsome Hrun]|[Hsome Hrun]]];
    subst run; rewrite Hrun; cbn [completion generationError calls].
  - done.
  - split; [done|]. split; [done|]. split; [|done].
    intros H. apply app_eq_nil in H as [_ H]. by apply image_requests_nil in H.
  - split; [|split].
    + split; [|done]. destruct (generateContent svc _); [done|].
      intros H. exfalso. injection H as H. by destruct failure_messages_differ.
    + split; [|done]. destruct (generateContent svc _); [done|].
      intros H. exfalso. injection H as H. revert H. vm_compute. discriminate.
    + split; [|done]. intros H. by apply app_eq_nil in H as [_ H].
Qed.

(** X2.  The run does not depend on the order in which the per-scene
    promises settle, only on which of them do: with another order that
    settles the same promises the orchestrator ends the same way, with the
    same scene images at the same indices, and sends the same requests. *)
Theorem settle_order_is_irrelevant (NM : NumberModel) (svc : Service) (order : list nat)
  (scenes : list jsstring) (imageFile : option File) (selectedStyle : jsstring)
  (promptFormat : PromptFormat) :
  (∀ i, i < length scenes → (i ∈ settle_order svc ↔ i ∈ order)) →
  handleGenerateStoryboard NM (with_settle_order svc order) scenes imageFile selectedStyle
    promptFormat
  = handleGenerateStoryboard NM svc scenes imageFile selectedStyle promptFormat.
Proof.
  intros Hsame. unfold handleGenerateStoryboard.
  change (style_step (with_settle_order svc order)) with (style_step svc).
  destruct (style_step svc imageFile selectedStyle) as [[styleGuide kw] sent1].
  change (imagePromise (with_settle_order svc order)) with (imagePromise svc).
  change (settle_order (with_settle_order svc order)) with order.
  rewrite (allSettled_order _ order (settle_order svc)); [done|].
  intros i Hi. rewrite length_imagePromises in Hi. symmetry. by apply Hsame.
Qed.


Lemma nonblank_trim (s : jsstring) : nonblank (trim s) = nonblank s.
Proof. unfold nonblank. by rewrite trim_idempotent. Qed.

Lemma filter_trimmed (scenes : list jsstring) :
  length (List.filter (λ s, nonempty (trim s)) (trim <$> scenes))
  = length (List.filter (λ s, nonempty (trim s)) scenes).
Proof.
  induction scenes as [|s r IH]; [done|].
  cbn [fmap list_fmap List.filter]. rewrite trim_idempotent.
  destruct (nonempty (trim s)); cbn [length]; by rewrite IH.
Qed.

Lemma imagePromise_trim (svc : Service) selectedStyle kw index (scene : jsstring) :
  imagePromise svc selectedStyle kw index (trim scene)
  = imagePromise svc selectedStyle kw index scene.
Proof. unfold imagePromise, fullPrompt. by rewrite trim_idempotent. Qed.

Lemma push_scenes_trim images (scenes : list jsstring) : ∀ index promptParts,
  push_scenes images index (trim <$> scenes) promptParts
  = push_scenes images index scenes promptParts.
Proof.
  induction scenes as [|s r IH]; intros index promptParts; [done|].
  cbn [fmap list_fmap push_scenes]. rewrite trim_idempotent. apply IH.
Qed.

(** X4.  White space around a scene text never matters: the orchestrator
    run on the trimmed scene texts ends the same way and sends the same
    requests as on the texts as typed. *)
Theorem white_space_around_a_scene_is_ignored (NM : NumberModel) (svc : Service)
  (scenes : list jsstring) (imageFile : option File) (selectedStyle : jsstring)
  (promptFormat : PromptFormat) :
  handleGenerateStoryboard NM svc (trim <$> scenes) imageFile selectedStyle promptFormat
  = handleGenerateStoryboard NM svc scenes imageFile selectedStyle promptFormat.
Proof.
  unfold handleGenerateStoryboard. rewrite filter_trimmed.
  destruct (style_step svc imageFile selectedStyle) as [[styleGuide kw] sent1].
  assert (imap (imagePromise svc selectedStyle kw) (trim <$> scenes)
          = imap (imagePromise svc selectedStyle kw) scenes) as ->.
  { rewrite imap_fmap. apply imap_ext. intros i s _. apply imagePromise_trim. }
  destruct (allSettled _ _) as [imageResults|]; [|done].
  unfold build_promptParts. by rewrite push_scenes_trim.
Qed.

(** The parts a scene contributes when the scene images are the ones of a
    run. *)
Lemma scene_parts_of_run (svc : Service) selectedStyle kw (scenes : list jsstring) :
  imap (scene_parts (imap (scene_image svc selectedStyle kw) scenes)) scenes
  = imap (λ i s,
            if nonblank s then
              TextPart (lit "Scene " ++ nat_to_string (i + 1) ++ lit ": " ++ trim s)
              :: match scene_image svc selectedStyle kw i s with
                 | Some imageBase64 => [InlineData (lit "image/jpeg") imageBase64]
                 | None => []
                 end
            else []) scenes.
Proof.
  apply imap_ext. intros i s Hs. unfold scene_parts.
  by rewrite list_lookup_imap, Hs.
Qed.

Lemma scene_image_blank (svc : Service) selectedStyle kw i (s : jsstring) :
  nonblank s = false → scene_image svc selectedStyle kw i s = None.
Proof.
  unfold scene_image, imagePromise, nonblank. by intros ->.
Qed.

Lemma count_scene_parts (t : nat → jsstring → Part)
  (f : nat → jsstring → option jsstring) (scenes : list jsstring) :
  (∀ i s, is_image_part (t i s) = false) →
  (∀ i s, nonblank s = false → f i s = None) →
  let parts :=
    concat (imap (λ i s,
                    if nonblank s then
                      t i s
                      :: match f i s with
                         | Some imageBase64 => [InlineData (lit "image/jpeg") imageBase64]
                         | None => []
                         end
                    else []) scenes) in
  length parts
  = length (List.filter nonblank scenes) + length (List.filter is_image (imap f scenes))
  ∧ length (List.filter is_image_part parts)
    = length (List.filter is_image (imap f scenes)).
Proof.
  revert t f. induction scenes as [|s r IH]; intros t f Htext Hblank; [done|].
  cbn zeta. cbn [imap concat List.filter].
  destruct (IH (t ∘ S) (f ∘ S)) as [IH1 IH2];
    [intros i u; apply Htext|intros i u; apply Hblank|].
  cbn zeta in IH1, IH2.
  change (imap ((λ i s0, if nonblank s0
                   then t i s0
                        :: match f i s0 with
                           | Some imageBase64 => [InlineData (lit "image/jpeg") imageBase64]
                           | None => []
                           end
                   else []) ∘ S) r)
    with (imap (λ i s0, if nonblank s0
                   then (t ∘ S) i s0
                        :: match (f ∘ S) i s0 with
                           | Some imageBase64 => [InlineData (lit "image/jpeg") imageBase64]
                           | None => []
                           end
                   else []) r).
  rewrite length_app, filter_app, length_app, IH1, IH2.
  destruct (nonblank s) eqn:Hs.
  - destruct (f 0 s); cbn [length List.filter is_image is_image_part app];
      rewrite (Htext 0 s); cbn [length]; lia.
  - rewrite (Hblank 0 s Hs). cbn [length List.filter is_image is_image_part app]. lia.
Qed.

(** X5.  The master request of a run has two fixed parts, then one text
    part per non-blank scene and one image part per scene image the run
    holds: its image parts are as many as the non-null entries of the
    scene-image sequence. *)
Theorem master_request_part_count (NM : NumberModel) (svc : Service)
  (scenes : list jsstring) (imageFile : option File) (selectedStyle : jsstring)
  (promptFormat : PromptFormat) (request : ContentRequest) :
  let run := handleGenerateStoryboard NM svc scenes imageFile selectedStyle promptFormat in
  let images :=
    imap (scene_image svc selectedStyle
            (imageStyleKeywords_of svc imageFile selectedStyle)) scenes in
  GenerateContent request ∈ calls run →
  is_master_call (GenerateContent request) = true →
  length (content_parts request)
  = 2 + length (List.filter nonblank scenes) + length (List.filter is_image images)
  ∧ length (List.filter is_image_part (content_parts request))
    = length (List.filter is_image images)
  ∧ ∀ result, completion run = Returned result → sceneImages result = images.
Proof.
  intros run images Hsent Hmaster.
  destruct (master_call_of_run NM svc scenes imageFile selectedStyle promptFormat request
              Hsent Hmaster) as [-> Hresult].
  cbn [content_parts master_request].
  rewrite build_promptParts_spec by apply scene_images_truthy.
  rewrite scene_parts_of_run.
  destruct (count_scene_parts
              (λ i s, TextPart (lit "Scene " ++ nat_to_string (i + 1) ++ lit ": " ++ trim s))
              (scene_image svc selectedStyle
                 (imageStyleKeywords_of svc imageFile selectedStyle)) scenes)
    as [Hall Himages]; [done|intros i s; apply scene_image_blank|].
  cbn zeta in Hall, Himages. fold images in Hall, Himages.
  split; [|split; [|exact Hresult]].
  - cbn [length]. rewrite Hall. lia.
  - cbn [List.filter is_image_part]. exact Himages.
Qed.



Lemma fullPrompt_with_keywords (selectedStyle keywords scene : jsstring) :
  keywords ≠ [] →
  fullPrompt selectedStyle keywords scene
  = (if decide (selectedStyle = No_Style ∨ selectedStyle = []) then keywords
     else selectedStyle ++ lit ", " ++ keywords)
    ++ lit ", cinematic shot depicting " ++ trim scene.
Proof.
  intros Hkw. unfold fullPrompt, styleForPrompt, jsstring_eqb.
  destruct keywords as [|k kw]; [done|].
  destruct (decide (selectedStyle = No_Style)) as [->|Hnamed].
  - rewrite bool_decide_eq_true_2 by done. rewrite decide_True by auto.
    cbn [List.filter nonempty join]. by rewrite <- !app_assoc.
  - rewrite bool_decide_eq_false_2 by done.
    destruct selectedStyle as [|c r].
    + rewrite decide_True by auto. cbn [List.filter nonempty join].
      by rewrite <- !app_assoc.
    + rewrite decide_False by (intros [?|?]; done).
      cbn [List.filter nonempty join app]. by rewrite <- !app_assoc.
Qed.

(** X6.  When the analysis of the reference image answers, its keywords
    reach both kinds of prompt: the style guidance of the master request gets
    the line [Reference Image Style: <keywords>] after the guidance of the
    selected style, and every image prompt is the selected style (unless it
    is "No Style" or empty), the keywords and the shot sentence, joined by
    commas.  An empty answer still adds the line to the guidance. *)
Theorem style_analysis_feeds_both_prompts (NM : NumberModel) (svc : Service)
  (scenes : list jsstring) (file : File) (selectedStyle : jsstring)
  (promptFormat : PromptFormat) (keywords : jsstring) :
  fst (analyzeImageStyle svc file) = Fulfilled keywords →
  let run :=
    handleGenerateStoryboard NM svc scenes (Some file) selectedStyle promptFormat in
  List.filter is_GenerateImages (calls run)
  = (λ s, GenerateImages (image_request (fullPrompt selectedStyle keywords s) Ratio_4_3))
      <$> List.filter nonblank scenes
  ∧ (∀ request,
       GenerateContent request ∈ calls run →
       is_master_call (GenerateContent request) = true →
       content_parts request !! 1
       = Some (TextPart (lit "--- STYLE GUIDANCE ---" ++ [LF]
                         ++ named_style_guide selectedStyle
                         ++ [LF] ++ lit "Reference Image Style: " ++ keywords)))
  ∧ (keywords ≠ [] →
     ∀ scene,
       fullPrompt selectedStyle keywords scene
       = (if decide (selectedStyle = No_Style ∨ selectedStyle = []) then keywords
          else selectedStyle ++ lit ", " ++ keywords)
         ++ lit ", cinematic shot depicting " ++ trim scene).
Proof.
  intros Hanalysis run.
  assert (imageStyleKeywords_of svc (Some file) selectedStyle = keywords
          ∧ styleGuide_of svc (Some file) selectedStyle
            = named_style_guide selectedStyle
              ++ [LF] ++ lit "Reference Image Style: " ++ keywords) as [Hkw Hguide].
  { unfold imageStyleKeywords_of, styleGuide_of, style_step.
    destruct (analyzeImageStyle svc file) as [[text|e] sent]; [|done].
    cbn [fst] in Hanalysis. by injection Hanalysis as ->. }
  split; [|split].
  - subst run. rewrite image_calls_of_run. by rewrite Hkw.
  - intros request Hsent Hmaster.
    destruct (master_call_of_run NM svc scenes (Some file) selectedStyle promptFormat
                request Hsent Hmaster) as [-> _].
    cbn [content_parts master_request].
    rewrite build_promptParts_spec by apply scene_images_truthy.
    by rewrite Hguide.
  - intros Hsome scene. by apply fullPrompt_with_keywords.
Qed.

(** ** Where a JSON text ends *)

Lemma skip_ws_suffix (s r : jsstring) (c : N) : skip_ws s = c :: r → (c :: r) `suffix_of` s.
Proof.
  induction s as [|a s IH]; [done|]. cbn [skip_ws].
  destruct (is_json_space a).
  - intros H. apply suffix_cons_r. by apply IH.
  - by intros <-.
Qed.

Lemma strip_prefix_split (p s r : jsstring) : strip_prefix p s = Some r → s = p ++ r.
Proof.
  revert s. induction p as [|a p IH]; intros s; cbn [strip_prefix].
  - by intros [= ->].
  - destruct s as [|b s]; [done|]. destruct (a =? b)%N eqn:Hab; [|done].
    apply N.eqb_eq in Hab as ->. intros H. cbn [app]. f_equal. by apply IH.
Qed.

Lemma parse_string_body_suffix (n : nat) : ∀ s acc t r,
  length s ≤ n → parse_string_body s acc = Some (t, r) → (34%N :: r) `suffix_of` s.
Proof.
  induction n as [|n IH]; intros s acc t r Hn.
  { destruct s; [done|]. cbn [length] in Hn. lia. }
  destruct s as [|c s]; [done|]. cbn [length] in Hn. cbn [parse_string_body].
  destruct (c =? 34)%N eqn:Hquote.
  { apply N.eqb_eq in Hquote as ->. by intros [= _ ->]. }
  destruct (c =? 92)%N.
  - destruct s as [|e s]; [done|]. cbn [length] in Hn.
    destruct (e =? 117)%N.
    + destruct s as [|h1 [|h2 [|h3 [|h4 s]]]]; try done. cbn [length] in Hn.
      destruct (hex4_value _ _ _ _); [|done]. intros H.
      apply IH in H; [|lia]. by do 6 apply suffix_cons_r.
    + destruct (simple_escape e); [|done]. intros H.
      apply IH in H; [|lia]. by do 2 apply suffix_cons_r.
  - destruct (c <? 32)%N; [done|]. intros H.
    apply IH in H; [|lia]. by apply suffix_cons_r.
Qed.

Lemma digits_prefix_split (s d r : jsstring) :
  digits_prefix s = (d, r) → s = d ++ r ∧ Forall (λ c, is_digit c = true) d.
Proof.
  revert d r. induction s as [|c s IH]; intros d r; cbn [digits_prefix].
  - by intros [= <- <-].
  - destruct (is_digit c) eqn:Hc.
    + destruct (digits_prefix s) as [d' r'] eqn:Hs. intros [= <- <-].
      destruct (IH d' r' eq_refl) as [-> Hd]. split; [done|]. by constructor.
    + by intros [= <- <-].
Qed.

Lemma digit_closes_value (c : N) : is_digit c = true → closes_value c = true.
Proof. intros H. unfold closes_value. rewrite H. by rewrite !orb_true_r. Qed.

Lemma closes_value_cases (c : N) :
  closes_value c = true →
  c = 93%N ∨ c = 125%N ∨ c = 34%N ∨ (48 <= c <= 57)%N ∨ c = 101%N ∨ c = 108%N.
Proof.
  unfold closes_value, is_digit.
  rewrite !orb_true_iff, andb_true_iff, !N.eqb_eq, !N.leb_le. tauto.
Qed.

Lemma closes_value_no_backtick (c : N) : closes_value c = true → c ≠ 96%N.
Proof. intros H ->. by vm_compute in H. Qed.

(** A character that closes a value is not white space. *)
Lemma closes_value_no_white_space (c : N) :
  closes_value c = true → is_white_space c = false.
Proof.
  intros H. apply closes_value_cases in H.
  destruct H as [-> |[-> |[-> |[Hdigit|[-> | ->]]]]]; try reflexivity.
  unfold is_white_space.
  rewrite !orb_false_iff, !andb_false_iff, !N.eqb_neq, !N.leb_gt. lia.
Qed.

Lemma ends_before_digits (pre d r : jsstring) :
  d ≠ [] → Forall (λ c, is_digit c = true) d → ends_before (pre ++ d ++ r) r.
Proof.
  intros Hd Hall. destruct (exists_last Hd) as (t & c & ->).
  apply list.Forall_app in Hall as [_ Hc]. apply list.Forall_cons in Hc as [Hc _].
  exists (pre ++ t), c. rewrite <- !app_assoc. split; [done|]. by apply digit_closes_value.
Qed.

Lemma lex_number_ends (s tok r : jsstring) :
  lex_number s = Some (tok, r) → ends_before s r.
Proof.
  unfold lex_number.
  destruct (lex_minus s) as [sg s1] eqn:Hsign.
  assert (s = sg ++ s1) as ->.
  { unfold lex_minus in Hsign. destruct s as [|c s]; [by injection Hsign as <- <-|].
    destruct (c =? 45)%N; by injection Hsign as <- <-. }
  cbn [mbind option_bind].
  destruct (lex_int s1) as [[i s2]|] eqn:Hint; [|done]. cbn [mbind option_bind].
  destruct (lex_frac s2) as [[f s3]|] eqn:Hfrac; [|done]. cbn [mbind option_bind].
  destruct (lex_exp s3) as [[e s4]|] eqn:Hexp; [|done]. cbn [mbind option_bind].
  intros [= _ <-].
  assert (∃ d, d ≠ [] ∧ Forall (λ c, is_digit c = true) d ∧ ∃ pre, s1 = pre ++ d ++ s2)
    as (di & Hdi & Hdigits & prei & ->).
  { unfold lex_int in Hint. destruct s1 as [|c s1]; [done|].
    destruct (c =? 48)%N eqn:Hzero.
    - injection Hint as <- <-. apply N.eqb_eq in Hzero as ->.
      exists [48%N]. split; [done|]. split; [by repeat constructor|]. by exists [].
    - destruct (is_digit c) eqn:Hc; [|done].
      destruct (digits_prefix s1) as [d r'] eqn:Hd. injection Hint as <- <-.
      apply digits_prefix_split in Hd as [-> Hd].
      exists (c :: d). split; [done|]. split; [by constructor|]. by exists []. }
  assert (s2 = s3 ∨ ∃ d, d ≠ [] ∧ Forall (λ c, is_digit c = true) d
                        ∧ ∃ pre, s2 = pre ++ d ++ s3) as Hs2.
  { unfold lex_frac in Hfrac. destruct s2 as [|c s2]; [left; by injection Hfrac as <- <-|].
    destruct (c =? 46)%N; [|left; by injection Hfrac as <- <-].
    destruct (digits_prefix s2) as [d r'] eqn:Hd.
    apply digits_prefix_split in Hd as [-> Hd].
    destruct d as [|d0 d]; [done|]. injection Hfrac as <- <-.
    right. exists (d0 :: d). split; [done|]. split; [done|]. by exists [c]. }
  assert (s3 = s4 ∨ ∃ d, d ≠ [] ∧ Forall (λ c, is_digit c = true) d
                        ∧ ∃ pre, s3 = pre ++ d ++ s4) as Hs3.
  { unfold lex_exp in Hexp. destruct s3 as [|c s3]; [left; by injection Hexp as <- <-|].
    destruct ((c =? 101) || (c =? 69))%N; [|left; by injection Hexp as <- <-].
    destruct (lex_sign s3) as [sgn r1] eqn:Hsgn.
    assert (s3 = sgn ++ r1) as ->.
    { unfold lex_sign in Hsgn. destruct s3 as [|c' s3]; [by injection Hsgn as <- <-|].
      destruct ((c' =? 43) || (c' =? 45))%N; by injection Hsgn as <- <-. }
    destruct (digits_prefix r1) as [d r'] eqn:Hd.
    apply digits_prefix_split in Hd as [-> Hd].
    destruct d as [|d0 d]; [done|]. injection Hexp as <- <-.
    right. exists (d0 :: d). split; [done|]. split; [done|]. by exists (c :: sgn). }
  destruct Hs3 as [<-|(de & Hde & Hdige & pree & ->)].
  - destruct Hs2 as [<-|(df & Hdf & Hdigf & pref & ->)].
    + rewrite app_assoc. by apply ends_before_digits.
    + replace (sg ++ prei ++ di ++ pref ++ df ++ s3)
        with ((sg ++ prei ++ di ++ pref) ++ df ++ s3) by by rewrite <- !app_assoc.
      by apply ends_before_digits.
  - destruct Hs2 as [->|(df & Hdf & Hdigf & pref & ->)].
    + replace (sg ++ prei ++ di ++ pree ++ de ++ s4)
        with ((sg ++ prei ++ di ++ pree) ++ de ++ s4) by by rewrite <- !app_assoc.
      by apply ends_before_digits.
    + replace (sg ++ prei ++ di ++ pref ++ df ++ pree ++ de ++ s4)
        with ((sg ++ prei ++ di ++ pref ++ df ++ pree) ++ de ++ s4)
        by by rewrite <- !app_assoc.
      by apply ends_before_digits.
Qed.

Lemma ends_before_suffix (s s' r : jsstring) :
  ends_before s' r → s' `suffix_of` s → ends_before s r.
Proof.
  intros (consumed & c & -> & Hc) [k ->]. exists (k ++ consumed), c.
  by rewrite <- app_assoc.
Qed.

Lemma ends_before_unit (s r : jsstring) (c : N) :
  (c :: r) `suffix_of` s → closes_value c = true → ends_before s r.
Proof. intros [k ->] Hc. by exists k, c. Qed.

Lemma ends_before_is_suffix (s r : jsstring) : ends_before s r → r `suffix_of` s.
Proof. intros (consumed & c & -> & _). exists (consumed ++ [c]). by rewrite <- app_assoc. Qed.

Lemma ends_before_word (word s r : jsstring) (c : N) (t : jsstring) :
  strip_prefix word s = Some r → word = t ++ [c] → closes_value c = true →
  ends_before s r.
Proof.
  intros H -> Hc. apply strip_prefix_split in H as ->. exists t, c.
  by rewrite <- app_assoc.
Qed.

Section ParserEnd.
Context (NM : NumberModel).

(** What the parser reads ends with a character that closes a value. *)
Lemma parse_ends (fuel : nat) :
  (∀ s v r, parse_value NM fuel s = Parsed v r → ends_before s r)
  ∧ (∀ acc s v r, parse_elements NM fuel acc s = Parsed v r → ends_before s r)
  ∧ (∀ acc s v r, parse_members NM fuel acc s = Parsed v r → ends_before s r).
Proof.
  induction fuel as [|fuel (IHv & IHe & IHm)]; [done|].
  split; [|split].
  - intros s v r. cbn [parse_value].
    destruct (skip_ws s) as [|c s1] eqn:Hs; [done|]. apply skip_ws_suffix in Hs.
    assert (s1 `suffix_of` s) as Hs1 by (by apply suffix_cons_l in Hs).
    destruct (c =? 123)%N.
    { destruct (skip_ws s1) as [|c' s2] eqn:Hs2; [done|]. apply skip_ws_suffix in Hs2.
      destruct (c' =? 125)%N eqn:Hc'.
      - apply N.eqb_eq in Hc' as ->. intros [= _ <-].
        apply (ends_before_unit _ _ 125%N); [by etrans|done].
      - intros H. apply IHm in H. by apply (ends_before_suffix _ s1). }
    destruct (c =? 91)%N.
    { destruct (skip_ws s1) as [|c' s2] eqn:Hs2; [done|]. apply skip_ws_suffix in Hs2.
      destruct (c' =? 93)%N eqn:Hc'.
      - apply N.eqb_eq in Hc' as ->. intros [= _ <-].
        apply (ends_before_unit _ _ 93%N); [by etrans|done].
      - intros H. apply IHe in H. by apply (ends_before_suffix _ s1). }
    destruct (c =? 34)%N.
    { destruct (parse_string_body s1 []) as [[t r']|] eqn:Hbody; [|done].
      intros [= _ <-]. apply (parse_string_body_suffix (length s1)) in Hbody; [|done].
      apply (ends_before_unit _ _ 34%N); [by etrans|done]. }
    destruct (strip_prefix (lit "true") (c :: s1)) as [r'|] eqn:Htrue.
    { intros [= _ <-]. apply (ends_before_suffix _ (c :: s1)); [|done].
      by apply (ends_before_word (lit "true") _ _ 101%N (lit "tru")). }
    destruct (strip_prefix (lit "false") (c :: s1)) as [r'|] eqn:Hfalse.
    { intros [= _ <-]. apply (ends_before_suffix _ (c :: s1)); [|done].
      by apply (ends_before_word (lit "false") _ _ 101%N (lit "fals")). }
    destruct (strip_prefix (lit "null") (c :: s1)) as [r'|] eqn:Hnull.
    { intros [= _ <-]. apply (ends_before_suffix _ (c :: s1)); [|done].
      by apply (ends_before_word (lit "null") _ _ 108%N (lit "nul")). }
    destruct (lex_number (c :: s1)) as [[t r']|] eqn:Hnumber; [|done].
    intros [= _ <-]. apply (ends_before_suffix _ (c :: s1)); [|done].
    by apply (lex_number_ends _ t).
  - intros acc s v r. cbn [parse_elements].
    destruct (parse_value NM fuel s) as [x s1| |] eqn:Hx; [|done|done].
    apply IHv, ends_before_is_suffix in Hx.
    destruct (skip_ws s1) as [|c s2] eqn:Hs1; [done|]. apply skip_ws_suffix in Hs1.
    destruct (c =? 44)%N.
    { intros H. apply IHe in H. apply (ends_before_suffix _ s2); [done|].
      etrans; [|exact Hx]. by apply suffix_cons_l in Hs1. }
    destruct (c =? 93)%N eqn:Hc; [|done]. apply N.eqb_eq in Hc as ->.
    intros [= _ <-]. apply (ends_before_unit _ _ 93%N); [by etrans|done].
  - intros acc s v r. cbn [parse_members].
    destruct (skip_ws s) as [|q s1] eqn:Hs; [done|]. apply skip_ws_suffix in Hs.
    destruct (q =? 34)%N; [|done].
    destruct (parse_string_body s1 []) as [[k s2]|] eqn:Hkey; [|done].
    apply (parse_string_body_suffix (length s1)) in Hkey; [|done].
    destruct (skip_ws s2) as [|c1 s3] eqn:Hs2; [done|]. apply skip_ws_suffix in Hs2.
    destruct (c1 =? 58)%N; [|done].
    destruct (parse_value NM fuel s3) as [x s4| |] eqn:Hx; [|done|done].
    apply IHv, ends_before_is_suffix in Hx.
    destruct (skip_ws s4) as [|c3 s5] eqn:Hs4; [done|]. apply skip_ws_suffix in Hs4.
    assert ((c3 :: s5) `suffix_of` s) as Hend.
    { etrans; [exact Hs4|]. etrans; [exact Hx|]. apply suffix_cons_l in Hs2.
      etrans; [exact Hs2|]. apply suffix_cons_l in Hkey. etrans; [exact Hkey|].
      by apply suffix_cons_l in Hs. }
    destruct (c3 =? 44)%N.
    { intros H. apply IHm in H. apply (ends_before_suffix _ s5); [done|].
      by apply suffix_cons_l in Hend. }
    destruct (c3 =? 125)%N eqn:Hc; [|done]. apply N.eqb_eq in Hc as ->.
    intros [= _ <-]. by apply (ends_before_unit _ _ 125%N).
Qed.

Lemma skip_ws_last (s : jsstring) (c : N) :
  is_json_space c = false → skip_ws (s ++ [c]) ≠ [].
Proof.
  intros Hc. induction s as [|a s IH]; cbn [app skip_ws].
  - by rewrite Hc.
  - by destruct (is_json_space a).
Qed.

(** A text that ends with a back-tick is not JSON. *)
Lemma JSON_parse_backtick_end (s : jsstring) : JSON_parse NM (s ++ [96%N]) = None.
Proof.
  unfold JSON_parse.
  destruct (parse_value NM _ _) as [v rest| |] eqn:Hparse; [|done|done].
  apply (proj1 (parse_ends _)) in Hparse as (consumed & c & Heq & Hc).
  destruct (exists_last (l := rest)) as (rest' & last & ->).
  { intros ->. apply app_inj_tail in Heq as [_ Heq].
    by destruct (closes_value_no_backtick c Hc). }
  replace (consumed ++ c :: rest' ++ [last]) with ((consumed ++ c :: rest') ++ [last])
    in Heq by (by rewrite <- app_assoc).
  apply app_inj_tail in Heq as [_ <-].
  destruct (skip_ws (rest' ++ [96%N])) eqn:Hskip; [|done].
  by destruct (skip_ws_last rest' 96%N).
Qed.

(** A text that starts with a back-tick is not JSON. *)
Lemma JSON_parse_backtick_start (s : jsstring) : JSON_parse NM (96%N :: s) = None.
Proof.
  unfold JSON_parse. cbn [parse_value skip_ws is_json_space].
  change (is_json_space 96) with false. cbv iota.
  change (96 =? 123)%N with false. change (96 =? 91)%N with false.
  change (96 =? 34)%N with false. cbv iota.
  change (strip_prefix (lit "true") (96%N :: s)) with (@None jsstring).
  change (strip_prefix (lit "false") (96%N :: s)) with (@None jsstring).
  change (strip_prefix (lit "null") (96%N :: s)) with (@None jsstring).
  change (lex_number (96%N :: s)) with (@None (jsstring * jsstring)).
  done.
Qed.

End ParserEnd.

(** ** Further properties of the JSON post-processing *)

Lemma trimStart_app_white (ws s : jsstring) :
  all_white_space ws = true → trimStart (ws ++ s) = trimStart s.
Proof.
  induction ws as [|c ws IH]; [done|]. cbn [all_white_space forallb app trimStart].
  destruct (is_white_space c); [|done]. apply IH.
Qed.

Lemma trimStart_snoc (s : jsstring) (c : N) :
  is_white_space c = false → trimStart (s ++ [c]) = trimStart s ++ [c].
Proof.
  intros Hc. induction s as [|a s IH]; cbn [app trimStart].
  - by rewrite Hc.
  - by destruct (is_white_space a).
Qed.

Lemma trimEnd_app_white (s ws : jsstring) :
  all_white_space ws = true → trimEnd (s ++ ws) = trimEnd s.
Proof.
  intros Hws. unfold trimEnd. rewrite rev_app_distr, trimStart_app_white; [done|].
  by rewrite all_white_space_rev.
Qed.

Lemma trimEnd_snoc (s : jsstring) (c : N) :
  is_white_space c = false → trimEnd (s ++ [c]) = s ++ [c].
Proof.
  intros Hc. unfold trimEnd. rewrite rev_app_distr. cbn [rev app trimStart].
  rewrite Hc. cbn [rev]. by rewrite rev_involutive.
Qed.

(** White space at the end of a text does not change what [trim] gives. *)
Lemma trim_app_white (s ws : jsstring) :
  all_white_space ws = true → trim (s ++ ws) = trim s.
Proof.
  intros Hws. unfold trim.
  destruct (trimStart_split s) as (lead & Hs & Hlead).
  rewrite Hs at 1. rewrite <- app_assoc, trimStart_app_white by done.
  destruct (trimStart_head s) as [Hnil|(c & r & Hcr & Hc)].
  - rewrite Hnil. cbn [app]. rewrite (trimStart_white_space ws Hws). done.
  - rewrite Hcr. cbn [app trimStart]. rewrite Hc.
    by rewrite (app_comm_cons r ws c), trimEnd_app_white.
Qed.

(** A text that ends with a character other than white space keeps it. *)
Lemma trim_snoc (s : jsstring) (c : N) :
  is_white_space c = false → trim (s ++ [c]) = trimStart s ++ [c].
Proof.
  intros Hc. unfold trim. by rewrite trimStart_snoc, trimEnd_snoc.
Qed.

Lemma trimStart_keeps_end (s t : jsstring) :
  trimStart t = t → ∃ kept, trimStart (s ++ t) = kept ++ t.
Proof.
  intros Ht. induction s as [|a s IH]; [by exists []|].
  cbn [app trimStart]. destruct (is_white_space a); [done|]. by exists (a :: s).
Qed.

Lemma fence_last (s : jsstring) (c : N) :
  list.last s = Some c → c ≠ 96%N → jsstring_eqb s fence = false.
Proof.
  intros Hlast Hc. unfold jsstring_eqb. apply bool_decide_eq_false_2. intros ->.
  vm_compute in Hlast. by injection Hlast as <-.
Qed.

(** The closing marker is removed only where the text ends with it. *)
Lemma strip_final_fence_other_end (s : jsstring) (c : N) :
  list.last s = Some c → c ≠ 96%N → strip_final_fence s = s.
Proof.
  intros Hlast Hc. induction s as [|a s IH]; [done|].
  cbn [strip_final_fence]. rewrite (fence_last (a :: s) c Hlast Hc).
  f_equal. destruct s as [|b s]; [done|]. apply IH. by rewrite last_cons_cons in Hlast.
Qed.

Lemma white_space_is_no_backtick (c : N) : is_white_space c = true → c ≠ 96%N.
Proof. intros H ->. by vm_compute in H. Qed.

(** X8.  A closing code-fence marker that is followed by white space, such
    as a final line break, is not removed: [$] matches at the very end of the
    text only.  The opening marker and the white space go, the closing marker
    stays, so the text is not JSON and is handed back as it is then, without
    an error. *)
Theorem closing_fence_before_white_space_is_kept (NM : NumberModel)
  (body ws : jsstring) :
  ws ≠ [] → all_white_space ws = true →
  let text := lit "```json" ++ [LF] ++ body ++ lit "```" ++ ws in
  strip_final_fence (strip_json_fence text) = body ++ lit "```" ++ ws
  ∧ JSON_parse NM (clean_json_text text) = None
  ∧ postprocess NM json text = trim (body ++ lit "```")
  ∧ ∃ kept, postprocess NM json text = kept ++ lit "```".
Proof.
  intros Hws Hwhite text.
  assert (strip_final_fence (strip_json_fence text) = body ++ lit "```" ++ ws) as Hstrip.
  { subst text. change (lit "```json" ++ [LF] ++ body ++ lit "```" ++ ws)
      with (json_fence ++ LF :: (body ++ lit "```" ++ ws)).
    rewrite strip_json_fence_start.
    destruct (exists_last Hws) as (ws' & c & ->).
    apply (strip_final_fence_other_end _ c).
    - by rewrite !app_assoc, last_snoc.
    - apply white_space_is_no_backtick.
      unfold all_white_space in Hwhite. rewrite forallb_app in Hwhite.
      apply andb_true_iff in Hwhite as [_ Hc]. cbn [forallb] in Hc.
      by destruct (is_white_space c). }
  assert (clean_json_text text = trimStart (body ++ lit "``") ++ [96%N]) as Hclean.
  { unfold clean_json_text. rewrite Hstrip, app_assoc, trim_app_white by done.
    change (lit "```") with (lit "``" ++ [96%N]). rewrite app_assoc.
    by apply trim_snoc. }
  assert (trim (body ++ lit "```") = trimStart (body ++ lit "``") ++ [96%N]) as Htrim.
  { change (lit "```") with (lit "``" ++ [96%N]). rewrite app_assoc. by apply trim_snoc. }
  assert (JSON_parse NM (clean_json_text text) = None) as Hparse.
  { rewrite Hclean. apply JSON_parse_backtick_end. }
  split; [exact Hstrip|]. split; [exact Hparse|].
  assert (postprocess NM json text = trim (body ++ lit "```")) as Hpost.
  { unfold postprocess. rewrite Hparse. by rewrite Hclean, Htrim. }
  split; [exact Hpost|].
  rewrite Hpost, Htrim.
  destruct (trimStart_keeps_end body (lit "``")) as [kept ->]; [done|].
  exists kept. by rewrite <- app_assoc.
Qed.

Lemma strip_json_fence_absent (s : jsstring) :
  ¬ occurs_in json_fence s → strip_json_fence s = s.
Proof.
  induction s as [|c s IH]; intros Habsent; [done|].
  rewrite strip_json_fence_eq.
  destruct (strip_prefix json_fence (c :: s)) as [r|] eqn:Hprefix.
  - destruct Habsent. apply strip_prefix_split in Hprefix. by exists [], r.
  - f_equal. apply IH. intros (before & after & ->). apply Habsent.
    by exists (c :: before), after.
Qed.

Section Stable.
Context (NM : NumberModel).

Lemma stringify_first (v : JSValue NM) :
  numbers_reread v →
  ∃ c r, JSON_stringify NM v = c :: r ∧ is_white_space c = false.
Proof.
  intros Hnum. unfold JSON_stringify.
  destruct v as [|[]|n|s|[|x l]|[|[k x] ps]]; try (by eexists _, _).
  destruct Hnum as (Hfinite & Hlex & _). cbn [serialize]. rewrite Hfinite.
  destruct (lex_number_head _ _ _ Hlex) as (c & t & -> & [-> |Hdigit]).
  - by eexists _, _.
  - exists c, t. split; [done|].
    by apply closes_value_no_white_space, digit_closes_value.
Qed.

Lemma stringify_last (v : JSValue NM) :
  properties_ordered v → numbers_reread v →
  ∃ t c, JSON_stringify NM v = t ++ [c] ∧ closes_value c = true.
Proof.
  intros Hordered Hnum.
  pose proof (serialize_parses_back NM v [] [] (S (2 * length (JSON_stringify NM v)))
                Hordered Hnum) as Hparse.
  rewrite app_nil_r in Hparse.
  apply (proj1 (parse_ends NM _)) in Hparse as (t & c & Heq & Hc).
  - by exists t, c.
  - by constructor.
  - done.
  - unfold JSON_stringify. lia.
Qed.

(** The serialization of a parsed value is left as it is by the clean-up. *)
Lemma clean_stringify (v : JSValue NM) :
  properties_ordered v → numbers_reread v →
  ¬ occurs_in json_fence (JSON_stringify NM v) →
  clean_json_text (JSON_stringify NM v) = JSON_stringify NM v.
Proof.
  intros Hordered Hnum Habsent. unfold clean_json_text.
  rewrite strip_json_fence_absent by done.
  destruct (stringify_last v Hordered Hnum) as (t & c & Hlast & Hc).
  destruct (stringify_first v Hnum) as (c0 & r & Hfirst & Hc0).
  rewrite (strip_final_fence_other_end _ c).
  - unfold trim. rewrite Hfirst, (trimStart_fixed c0 r Hc0), <- Hfirst, Hlast.
    by apply trimEnd_snoc, closes_value_no_white_space.
  - by rewrite Hlast, last_snoc.
  - by apply closes_value_no_backtick.
Qed.

End Stable.

(** X24.  The post-processing leaves its own result alone: when the cleaned
    answer is valid JSON whose numbers read back, and its pretty-printed form
    holds no opening code-fence marker (inside a string, say), running the
    post-processing on that form gives it back unchanged. *)
Theorem json_postprocessing_is_idempotent (NM : NumberModel) (text : jsstring)
  (v : JSValue NM) :
  JSON_parse NM (clean_json_text text) = Some v →
  numbers_reread v →
  ¬ occurs_in (lit "```json") (postprocess NM json text) →
  postprocess NM json (postprocess NM json text) = postprocess NM json text.
Proof.
  intros Hparse Hnum Habsent.
  assert (postprocess NM json text = JSON_stringify NM v) as Hpost.
  { unfold postprocess. by rewrite Hparse. }
  rewrite Hpost in Habsent |- *.
  pose proof (JSON_parse_ordered NM _ v Hparse) as Hordered.
  unfold postprocess. rewrite (clean_stringify NM v Hordered Hnum Habsent).
  by rewrite (JSON_parse_stringify NM v Hordered Hnum).
Qed.

(** ** Marker lines and the pieces of a split *)

Lemma digits_prefix_digits (digits s : jsstring) :
  Forall (λ c, is_digit c = true) digits →
  digits_prefix (digits ++ s)
  = (digits ++ fst (digits_prefix s), snd (digits_prefix s)).
Proof.
  induction 1 as [|c digits Hc _ IH]; cbn [app digits_prefix].
  - by destruct (digits_prefix s).
  - rewrite Hc, IH. done.
Qed.

Lemma three_dashes_at_line_end (lt : N) (s : jsstring) :
  is_line_terminator lt = true →
  last_dashes_end (lit "---" ++ lt :: s) = Some 3.
Proof.
  intros Hlt. pose proof (dashes_before_line_end lt s Hlt) as H.
  change (last_dashes_end ([32; 45; 45; 45]%N ++ lt :: s))
    with (match last_dashes_end (lit "---" ++ lt :: s) with
          | Some n => Some (S n)
          | None => None
          end) in H.
  destruct (last_dashes_end (lit "---" ++ lt :: s)) as [n|]; [|done].
  by injection H as ->.
Qed.

Lemma match_marker_word (word rest : jsstring) :
  marker_word word →
  match_marker (lit "--- " ++ word ++ lit " " ++ rest)
  = match digits_prefix rest with
    | ([], _) => None
    | (d, s4) =>
        match last_dashes_end s4 with
        | Some n => Some (4 + length word + 1 + length d + n)
        | None => None
        end
    end.
Proof.
  intros [-> | ->]; unfold match_marker;
    change (lit "--- ") with [45; 45; 45; 32]%N;
    change (lit "SCENE") with [83; 67; 69; 78; 69]%N;
    change (lit "PROMPT") with [80; 82; 79; 77; 80; 84]%N;
    change (lit " ") with [32]%N;
    cbn [app strip_prefix N.eqb Pos.eqb mbind option_bind length];
    destruct (digits_prefix rest) as [[|d0 d] s4]; try done;
    by destruct (last_dashes_end s4).
Qed.

Lemma no_line_terminator_Forall (s : jsstring) :
  no_line_terminator s = true ↔ Forall (λ c, is_line_terminator c = false) s.
Proof.
  unfold no_line_terminator. induction s as [|c s IH]; [by split|].
  cbn [forallb]. by rewrite andb_true_iff, negb_true_iff, list.Forall_cons, IH.
Qed.

Lemma forallb_digits (s : jsstring) :
  forallb is_digit s = true ↔ Forall (λ c, is_digit c = true) s.
Proof.
  induction s as [|c s IH]; [by split|].
  cbn [forallb]. by rewrite andb_true_iff, list.Forall_cons, IH.
Qed.

(** The match of the marker expression at a marker line: the greedy [.*]
    runs to the last [---] of the line. *)
Lemma match_marker_at_line (m rest : jsstring) :
  is_marker_line m →
  (∃ n, match_marker (m ++ rest) = Some (S n))
  ∧ ∀ lt s, rest = lt :: s → is_line_terminator lt = true →
            match_marker (m ++ rest) = Some (length m).
Proof.
  intros (word & digits & title & -> & Hword & Hsome & Hdigits & Htitle).
  apply forallb_digits in Hdigits. apply no_line_terminator_Forall in Htitle.
  unfold marker_line. rewrite <- !app_assoc, (match_marker_word word) by done.
  rewrite digits_prefix_digits by done.
  destruct (digits_prefix title) as [dt rt] eqn:Hprefix.
  pose proof (digits_prefix_split _ _ _ Hprefix) as [-> Hdt].
  rewrite (digits_prefix_app (dt ++ rt) dt rt (lit "---" ++ rest) Hprefix)
    by (intros _; exact eq_refl).
  cbn [fst snd].
  apply list.Forall_app in Htitle as [_ Hrt].
  destruct digits as [|d0 digits]; [done|]. cbn [app].
  split.
  - destruct (dashes_found (lit "---" ++ rest) eq_refl) as [n Hn].
    rewrite (last_dashes_end_app rt _ n Hn Hrt). eexists. reflexivity.
  - intros lt s -> Hlt.
    rewrite (last_dashes_end_app rt _ 3 (three_dashes_at_line_end lt s Hlt) Hrt).
    f_equal. rewrite !length_app. cbn [length].
    change (length (lit "--- ")) with 4. change (length (lit " ")) with 1.
    rewrite !length_app. change (length (lit "---")) with 3. lia.
Qed.

Lemma marker_line_cons (m : jsstring) : is_marker_line m → ∃ m', m = 45%N :: m'.
Proof. intros (word & digits & title & -> & _). eexists. reflexivity. Qed.

(** The pieces of a text with two marker lines: what precedes the first
    one, the block between them, and at least one more piece. *)
Lemma split_marked_blocks (m1 m2 before block' after : jsstring) (lt : N) :
  let block := lt :: block' in
  let text := before ++ m1 ++ block ++ m2 ++ after in
  is_marker_line m1 → is_marker_line m2 →
  is_line_terminator lt = true →
  (∀ i, i < length before → match_marker (drop i text) = None) →
  (∀ i, i < length block → match_marker (drop i (block ++ m2 ++ after)) = None) →
  ∃ rest, split_markers text = before :: block :: rest.
Proof.
  intros block text Hm1 Hm2 Hlt Hbefore Hblock. unfold split_markers, text.
  rewrite split_go_no_marker by exact Hbefore. rewrite app_nil_r.
  destruct (match_marker_at_line m1 (block ++ m2 ++ after) Hm1) as [_ Hfirst].
  specialize (Hfirst lt _ eq_refl Hlt).
  destruct (marker_line_cons m1 Hm1) as [m1' ->]. cbn [app length] in Hfirst |- *.
  rewrite (split_go_at_match _ _ (length m1')) by exact Hfirst.
  rewrite split_go_skip by (rewrite length_app; lia).
  rewrite drop_app_length.
  rewrite split_go_no_marker by exact Hblock. rewrite app_nil_r.
  destruct (match_marker_at_line m2 after Hm2) as [[n Hsecond] _].
  destruct (marker_line_cons m2 Hm2) as [m2' ->]. cbn [app] in Hsecond |- *.
  rewrite (split_go_at_match _ _ n) by exact Hsecond.
  rewrite !rev_involutive. eauto.
Qed.

(** A text without a match is one piece. *)
Lemma split_without_marker (text : jsstring) :
  no_marker text → split_markers text = [text].
Proof.
  intros Hnone. unfold split_markers.
  rewrite <- (app_nil_r text) at 1.
  rewrite split_go_no_marker.
  - cbn [split_go]. by rewrite app_nil_r, rev_involutive.
  - intros i Hi. rewrite app_nil_r. by apply Hnone.
Qed.

Lemma occurs_in_refl (s : jsstring) : occurs_in s s.
Proof. exists [], []. by rewrite app_nil_r. Qed.

Lemma occurs_in_app (p before s after : jsstring) :
  occurs_in p s → occurs_in p (before ++ s ++ after).
Proof.
  intros (b & a & ->). exists (before ++ b), (a ++ after). by rewrite <- !app_assoc.
Qed.

Lemma occurs_in_trans (p q s : jsstring) : occurs_in p q → occurs_in q s → occurs_in p s.
Proof. intros Hpq (b & a & ->). by apply occurs_in_app. Qed.

(** Every piece of a split is a part of the text. *)
Lemma split_go_pieces (s : jsstring) : ∀ skip piece p,
  skip = 0 ∨ piece = [] →
  p ∈ split_go s skip piece → occurs_in p (rev piece ++ s).
Proof.
  induction s as [|c s IH]; intros skip piece p Hstate; cbn [split_go].
  - intros ->%list_elem_of_singleton. rewrite app_nil_r. apply occurs_in_refl.
  - destruct skip as [|k].
    + destruct (match_marker (c :: s)) as [[|n]|].
      * intros Hp. apply (IH 0 (c :: piece) p (or_introl eq_refl)) in Hp.
        cbn [rev] in Hp. by rewrite <- app_assoc in Hp.
      * intros [-> | Hp]%elem_of_cons.
        -- exists [], (c :: s). done.
        -- apply (IH n [] p (or_intror eq_refl)) in Hp. cbn [rev app] in Hp.
           apply (occurs_in_app p (rev piece ++ [c]) s []) in Hp.
           by rewrite app_nil_r, <- app_assoc in Hp.
      * intros Hp. apply (IH 0 (c :: piece) p (or_introl eq_refl)) in Hp.
        cbn [rev] in Hp. by rewrite <- app_assoc in Hp.
    + destruct Hstate as [| ->]; [done|]. intros Hp.
      apply (IH k [] p (or_intror eq_refl)) in Hp. cbn [rev app] in Hp |- *.
      apply (occurs_in_app p [c] s []) in Hp. by rewrite app_nil_r in Hp.
Qed.

Lemma trim_occurs (s : jsstring) : occurs_in (trim s) s.
Proof.
  unfold trim. destruct (trimStart_split s) as (lead & Hs & _).
  destruct (trimStart_split (rev (trimStart s))) as (tail & Ht & _).
  exists lead, (rev tail). unfold trimEnd.
  rewrite <- rev_app_distr, <- Ht, rev_involutive. done.
Qed.

Lemma marker_prompt_occurs (text : jsstring) : occurs_in (marker_prompt text) text.
Proof.
  unfold marker_prompt.
  destruct (split_markers text) as [|p0 [|p1 rest]] eqn:Hsplit;
    [apply occurs_in_refl|apply occurs_in_refl|].
  apply (occurs_in_trans _ p1); [apply trim_occurs|].
  assert (p1 ∈ split_markers text) as Hin.
  { rewrite Hsplit. apply elem_of_cons. right. apply elem_of_cons. by left. }
  apply (split_go_pieces text 0 [] p1 (or_introl eq_refl)) in Hin. by cbn [rev app] in Hin.
Qed.

(** ** Further properties of the example-scene button *)

Lemma JSON_parse_nonempty (NM : NumberModel) (text : jsstring) parsed :
  JSON_parse NM text = Some parsed → nonempty text = true.
Proof. by destruct text. Qed.

Lemma handleGenerateScene_of_string (NM : NumberModel) (text extracted : jsstring)
  (videoType : VideoType) (logoFile : option File) :
  text ≠ [] →
  extracted_prompt NM text = JString extracted →
  handleGenerateScene NM text videoType logoFile
  = Animate (if nonempty (trim extracted) then extracted else text)
            (match videoType with logo => logoFile | _ => None end).
Proof.
  intros Htext Hextracted. unfold handleGenerateScene. rewrite Hextracted.
  by destruct text.
Qed.

Lemma extracted_prompt_not_json (NM : NumberModel) (text : jsstring) :
  JSON_parse NM text = None → extracted_prompt NM text = JString (marker_prompt text).
Proof. intros H. unfold extracted_prompt. by rewrite H. Qed.

Lemma marker_prompt_without_marker (text : jsstring) :
  no_marker text → marker_prompt text = text.
Proof. intros H. unfold marker_prompt. by rewrite split_without_marker. Qed.

(** X9.  A master prompt that is not JSON and holds no marker line is sent
    whole, as it is, to image generation. *)
Theorem text_without_marker_is_sent_whole (NM : NumberModel) (text : jsstring)
  (videoType : VideoType) (logoFile : option File) :
  text ≠ [] →
  JSON_parse NM text = None →
  no_marker text →
  handleGenerateScene NM text videoType logoFile
  = Animate text (match videoType with logo => logoFile | _ => None end).
Proof.
  intros Htext Hparse Hnone.
  rewrite (handleGenerateScene_of_string NM text text) by
    (try done; by rewrite extracted_prompt_not_json, marker_prompt_without_marker).
  by destruct (nonempty (trim text)).
Qed.

Lemma extracted_marked_block (NM : NumberModel)
  (m1 m2 before block' after : jsstring) (lt : N) :
  let block := lt :: block' in
  let text := before ++ m1 ++ block ++ m2 ++ after in
  is_marker_line m1 → is_marker_line m2 →
  is_line_terminator lt = true →
  JSON_parse NM text = None →
  (∀ i, i < length before → match_marker (drop i text) = None) →
  (∀ i, i < length block → match_marker (drop i (block ++ m2 ++ after)) = None) →
  text ≠ [] ∧ extracted_prompt NM text = JString (trim block).
Proof.
  intros block text Hm1 Hm2 Hlt Hparse Hbefore Hblock.
  destruct (split_marked_blocks m1 m2 before block' after lt Hm1 Hm2 Hlt Hbefore Hblock)
    as [rest Hsplit].
  split; [by destruct before, m1|].
  rewrite extracted_prompt_not_json by done. unfold marker_prompt.
  fold block text in Hsplit. by rewrite Hsplit.
Qed.

(** X10.  For a text that is not JSON and holds two marker lines, of scenes
    or of prompts, with any title after the number, the prompt extracted is
    the block between the two lines, trimmed: the first block starts on the
    line after its marker line, and no marker is matched before or inside
    it. *)
Theorem marked_block_is_extracted (NM : NumberModel)
  (m1 m2 before block' after : jsstring) (lt : N)
  (videoType : VideoType) (logoFile : option File) :
  let block := lt :: block' in
  let text := before ++ m1 ++ block ++ m2 ++ after in
  is_marker_line m1 → is_marker_line m2 →
  is_line_terminator lt = true →
  JSON_parse NM text = None →
  (∀ i, i < length before → match_marker (drop i text) = None) →
  (∀ i, i < length block → match_marker (drop i (block ++ m2 ++ after)) = None) →
  extracted_prompt NM text = JString (trim block)
  ∧ handleGenerateScene NM text videoType logoFile
    = Animate (if nonempty (trim block) then trim block else text)
              (match videoType with logo => logoFile | _ => None end).
Proof.
  intros block text Hm1 Hm2 Hlt Hparse Hbefore Hblock.
  destruct (extracted_marked_block NM m1 m2 before block' after lt Hm1 Hm2 Hlt Hparse
              Hbefore Hblock) as [Htext Hextracted].
  split; [exact Hextracted|].
  rewrite (handleGenerateScene_of_string NM text (trim block)) by done.
  by rewrite trim_idempotent.
Qed.

Lemma firstScenePrompt_of_first_scene (NM : NumberModel) (parsed : JSValue NM) props :
  first_scene parsed = Some props →
  firstScenePrompt NM parsed = Value (get_own (lit "generation_prompt") props).
Proof.
  unfold first_scene, firstScenePrompt.
  destruct parsed as [| | | |[|[] l]|wrapper]; try done.
  - by intros [= ->].
  - unfold scenes_of. destruct (get_own (lit "scenes") wrapper) as [[| | | |[|[] l]|]|];
      try done. by intros [= ->].
Qed.

(** X11.  When the first scene of a JSON master prompt carries a
    [generation_prompt] that is truthy but not a string (a number other than
    zero, [true], an array, an object), the click ends in a type error that
    nothing catches, and no image is requested. *)
Theorem truthy_non_string_prompt_is_an_uncaught_error (NM : NumberModel) (svc : Service)
  (text : jsstring) (parsed : JSValue NM) (properties : list (jsstring * JSValue NM))
  (value : JSValue NM) (videoType : VideoType) (logoFile : option File) :
  JSON_parse NM text = Some parsed →
  first_scene parsed = Some properties →
  get_own (lit "generation_prompt") properties = Some value →
  truthy NM (Some value) = true →
  (∀ s, value ≠ JString s) →
  handleGenerateScene NM text videoType logoFile = UncaughtTypeError
  ∧ preview_calls NM svc text videoType logoFile = [].
Proof.
  intros Hparse Hfirst Hprompt Htruthy Hstring.
  assert (handleGenerateScene NM text videoType logoFile = UncaughtTypeError) as Hclick.
  { unfold handleGenerateScene, extracted_prompt.
    rewrite (JSON_parse_nonempty NM text parsed Hparse), Hparse.
    rewrite (firstScenePrompt_of_first_scene NM parsed properties Hfirst), Hprompt, Htruthy.
    destruct value; try done. by destruct (Hstring s). }
  split; [exact Hclick|]. unfold preview_calls. by rewrite Hclick.
Qed.

Lemma firstScenePrompt_of_null (NM : NumberModel) (parsed : JSValue NM) :
  first_scene_is_null parsed → firstScenePrompt NM parsed = TypeError.
Proof.
  unfold first_scene_is_null, firstScenePrompt.
  destruct parsed as [| | | |[|[] l]|wrapper]; try done.
  unfold scenes_of. by destruct (get_own (lit "scenes") wrapper) as [[| | | |[|[] l]|]|].
Qed.

(** X12.  When the first scene of a JSON master prompt is [null], reading
    its [generation_prompt] throws inside the [try] block, and the text is
    then treated like one that is not JSON: split at the marker lines, and
    sent whole when it holds none. *)
Theorem null_first_scene_falls_back_to_markers (NM : NumberModel) (text : jsstring)
  (parsed : JSValue NM) (videoType : VideoType) (logoFile : option File) :
  JSON_parse NM text = Some parsed →
  first_scene_is_null parsed →
  extracted_prompt NM text = JString (marker_prompt text)
  ∧ handleGenerateScene NM text videoType logoFile
    = Animate (if nonempty (trim (marker_prompt text)) then marker_prompt text else text)
              (match videoType with logo => logoFile | _ => None end)
  ∧ (no_marker text →
     handleGenerateScene NM text videoType logoFile
     = Animate text (match videoType with logo => logoFile | _ => None end)).
Proof.
  intros Hparse Hnull.
  assert (extracted_prompt NM text = JString (marker_prompt text)) as Hextracted.
  { unfold extracted_prompt. by rewrite Hparse, (firstScenePrompt_of_null NM parsed Hnull). }
  assert (text ≠ []) as Htext by (intros ->; done).
  split; [exact Hextracted|].
  rewrite (handleGenerateScene_of_string NM text _ videoType logoFile Htext Hextracted).
  split; [done|]. intros Hnone. rewrite marker_prompt_without_marker by done.
  by destruct (nonempty (trim text)).
Qed.

(** X13.  A master prompt that is valid JSON but of neither shape ([null],
    a boolean, a number, a string, an empty array, an object without scenes)
    is sent whole; it is not split at marker lines, whatever it holds. *)
Theorem json_of_unknown_shape_is_sent_whole (NM : NumberModel) (text : jsstring)
  (parsed : JSValue NM) (videoType : VideoType) (logoFile : option File) :
  JSON_parse NM text = Some parsed →
  unrecognised parsed →
  extracted_prompt NM text = JString text
  ∧ handleGenerateScene NM text videoType logoFile
    = Animate text (match videoType with logo => logoFile | _ => None end).
Proof.
  intros Hparse Hshape.
  assert (extracted_prompt NM text = JString text) as Hextracted.
  { unfold extracted_prompt. rewrite Hparse.
    assert (firstScenePrompt NM parsed = Value (Some (JString []))) as ->; [|done].
    unfold unrecognised in Hshape. unfold firstScenePrompt, scenes_of.
    destruct parsed as [| | | |[|x l]|wrapper]; try done.
    by destruct Hshape as [-> | ->]. }
  assert (text ≠ []) as Htext by (intros ->; done).
  split; [exact Hextracted|].
  rewrite (handleGenerateScene_of_string NM text _ videoType logoFile Htext Hextracted).
  by destruct (nonempty (trim text)).
Qed.

(** X14.  From a master prompt that is not JSON the click only selects: the
    prompt sent to image generation is a contiguous part of the master
    prompt. *)
Theorem classic_prompt_is_a_part_of_the_master_prompt (NM : NumberModel)
  (text finalPrompt : jsstring) (videoType : VideoType) (logoFile imageFile : option File) :
  JSON_parse NM text = None →
  handleGenerateScene NM text videoType logoFile = Animate finalPrompt imageFile →
  occurs_in finalPrompt text.
Proof.
  intros Hparse. unfold handleGenerateScene.
  rewrite extracted_prompt_not_json by done.
  destruct (nonempty text); [|done].
  destruct (nonempty (trim (marker_prompt text))); intros [= <- _].
  - apply marker_prompt_occurs.
  - apply occurs_in_refl.
Qed.

(** ** Image generation for the preview *)

(** X15.  [handleAnimate] sends exactly one image request, for the prompt
    it is given at 16:9, whatever image file comes with it, and ends in one
    of two states: a result, whose source is the data URL of a non-empty
    payload the service returned, with no error; or no result and the two
    fixed error lines, which is what happens whenever the service refuses
    or its answer holds no image data. *)
Theorem image_generation_ends_in_a_result_or_an_error (svc : Service)
  (prompt : jsstring) (imageFile : option File) :
  let outcome := handleAnimate svc prompt imageFile in
  let request := image_request prompt Ratio_16_9 in
  animate_calls outcome = [GenerateImages request]
  ∧ handleAnimate svc prompt None = outcome
  ∧ ((∃ image,
        image ≠ []
        ∧ generateImages svc 0 request = Fulfilled (Some image)
        ∧ generatedResult outcome = Some (lit "data:image/jpeg;base64," ++ image, prompt)
        ∧ animate_generationError outcome = None)
     ∨ (generatedResult outcome = None
        ∧ animate_generationError outcome
          = Some [lit "Image generation failed.";
                  lit "Please check your API key or try a different prompt."]
        ∧ ∀ image, generateImages svc 0 request = Fulfilled (Some image) → image = [])).
Proof.
  intros outcome request. subst outcome. unfold handleAnimate, generateImage.
  fold request.
  destruct (generateImages svc 0 request) as [[[|c image]|]|e];
    cbn [nonempty animate_calls generatedResult animate_generationError].
  - split; [done|]. split; [done|]. right. split; [done|]. split; [done|].
    by intros image [= <-].
  - split; [done|]. split; [done|]. left. by exists (c :: image).
  - split; [done|]. split; [done|]. right. by split.
  - split; [done|]. split; [done|]. right. by split.
Qed.

(** X16.  The logo file is handed to [onAnimate] for the logo type only,
    and it never reaches the service: the image request of the preview is
    the same whatever the video type and the logo file are. *)
Theorem preview_request_ignores_the_logo_file (NM : NumberModel) (svc : Service)
  (masterPrompt : jsstring) (videoType videoType' : VideoType)
  (logoFile logoFile' : option File) :
  preview_calls NM svc masterPrompt videoType logoFile
  = preview_calls NM svc masterPrompt videoType' logoFile'
  ∧ (∀ finalPrompt file,
       handleGenerateScene NM masterPrompt videoType logoFile
       = Animate finalPrompt (Some file) →
       videoType = logo ∧ logoFile = Some file)
  ∧ (∀ request,
       GenerateImages request ∈ preview_calls NM svc masterPrompt videoType logoFile →
       ∃ finalPrompt, request = image_request finalPrompt Ratio_16_9).
Proof.
  assert (∀ request : ImagesRequest, GenerateImages request ∉ []) as Hnil.
  { intros request H. by apply elem_of_nil in H. }
  unfold preview_calls, handleGenerateScene.
  destruct (nonempty masterPrompt); [|by split; [|split; [|intros request H%Hnil]]].
  destruct (extracted_prompt NM masterPrompt) as [| | |finalPrompt| |];
    try (by split; [|split; [|intros request H%Hnil]]).
  split; [|split].
  - unfold handleAnimate. by destruct (generateImage svc 0 _ Ratio_16_9).
  - intros prompt file [= _ Hfile]. by destruct videoType.
  - intros request. unfold handleAnimate.
    destruct (generateImage svc 0 _ Ratio_16_9); cbn [animate_calls];
      intros [= ->]%list_elem_of_singleton; eauto.
Qed.

(** ** The scene list of the storyboard panel *)

Lemma filter_index_later {A} (index : nat) (l : list A) : ∀ k,
  index < k → filter_index (λ i, negb (i =? index)) k l = l.
Proof.
  induction l as [|x l IH]; intros k Hk; [done|]. cbn [filter_index].
  rewrite (proj2 (Nat.eqb_neq k index)) by lia. cbn [negb]. f_equal. apply IH. lia.
Qed.

(** Filtering on [i !== index] deletes the element at [index]. *)
Lemma filter_index_delete {A} (l : list A) : ∀ k n,
  filter_index (λ i, negb (i =? k + n)) k l = delete n l.
Proof.
  induction l as [|x l IH]; intros k n; [done|]. cbn [filter_index].
  destruct n as [|n].
  - rewrite Nat.add_0_r, Nat.eqb_refl. cbn [negb].
    rewrite filter_index_later by lia. done.
  - rewrite (proj2 (Nat.eqb_neq k (k + S n))) by lia. cbn [negb delete list_delete].
    f_equal. replace (k + S n) with (S k + n) by lia. apply IH.
Qed.

Lemma delete_out_of_range {A} (l : list A) : ∀ i, length l ≤ i → delete i l = l.
Proof.
  induction l as [|x l IH]; intros i Hi; [done|]. cbn [length] in Hi.
  destruct i as [|i]; [lia|]. cbn [delete list_delete]. f_equal. apply IH. lia.
Qed.

Lemma handleDeleteScene_delete (scenes : list jsstring)
  (visualStoryboard : list (option jsstring)) (index : nat) :
  handleDeleteScene scenes visualStoryboard index
  = if decide (delete index scenes = []) then ([[]], [])
    else (delete index scenes, delete index visualStoryboard).
Proof.
  unfold handleDeleteScene.
  pose proof (filter_index_delete scenes 0 index) as Hscenes.
  pose proof (filter_index_delete visualStoryboard 0 index) as Hvisuals.
  cbn [Nat.add] in Hscenes, Hvisuals. rewrite Hscenes, Hvisuals.
  destruct (delete index scenes) as [|s r]; [done|].
  by rewrite decide_False.
Qed.

(** X17.  Deleting a scene removes the scene at that index and the image
    at the same index, so every scene left keeps its own image; the scene
    list is never left empty: deleting the only scene leaves one empty scene
    and no image.  An index that is not in the list leaves the scenes as they
    are. *)
Theorem deleting_a_scene_deletes_its_image (scenes : list jsstring)
  (visualStoryboard : list (option jsstring)) (index : nat) :
  let after := handleDeleteScene scenes visualStoryboard index in
  after.1 ≠ []
  ∧ (index < length scenes → 1 < length scenes →
     after = (delete index scenes, delete index visualStoryboard)
     ∧ length after.1 = length scenes - 1
     ∧ ∀ j, after.1 !! j = scenes !! (if decide (j < index) then j else S j)
            ∧ after.2 !! j = visualStoryboard !! (if decide (j < index) then j else S j))
  ∧ (index < length scenes → length scenes = 1 → after = ([[]], []))
  ∧ (length scenes ≤ index → scenes ≠ [] → after.1 = scenes).
Proof.
  intros after. subst after. rewrite handleDeleteScene_delete.
  split; [|split; [|split]].
  - by destruct (decide (delete index scenes = [])).
  - intros Hin Hmore.
    assert (length (delete index scenes) = length scenes - 1) as Hlen.
    { rewrite length_delete; [done|]. by apply lookup_lt_is_Some_2. }
    rewrite decide_False; [|intros Hnil; rewrite Hnil in Hlen; cbn [length] in Hlen; lia].
    split; [done|]. split; [exact Hlen|]. intros j. cbn [fst snd].
    destruct (decide (j < index)).
    + by rewrite !list_lookup_delete_lt.
    + by rewrite !list_lookup_delete_ge by lia.
  - intros Hin Hone. destruct scenes as [|s [|s' r]]; try done.
    cbn [length] in Hin. by replace index with 0 by lia.
  - intros Hout Hsome. rewrite delete_out_of_range by done.
    by rewrite decide_False.
Qed.

Lemma handleSceneChange_in_range (scenes : list jsstring) (index : nat) (value : jsstring) :
  index < length scenes →
  handleSceneChange scenes index value = Some <$> <[index := value]> scenes.
Proof.
  intros Hin. unfold handleSceneChange.
  replace (S index - length scenes) with 0 by lia. cbn [replicate].
  by rewrite app_nil_r, list_fmap_insert.
Qed.

(** X18.  Changing the text of a scene that is in the list changes that
    entry only and leaves no hole; and whatever the user does with the
    controls of the panel, and whatever is generated, starting from the one
    empty scene the panel opens with, the scene list never gets empty. *)
Theorem scene_list_is_never_empty (edits : list SceneEdit)
  (state : list jsstring * list (option jsstring)) :
  edit_all initial_scenes edits = Some state →
  state.1 ≠ []
  ∧ ∀ index value,
      index < length state.1 →
      edit_scenes state (ChangeScene index value)
      = Some (<[index := value]> state.1, state.2).
Proof.
  assert (∀ state index value,
            index < length state.1 →
            edit_scenes state (ChangeScene index value)
            = Some (<[index := value]> state.1, state.2)) as Hchange.
  { intros [scenes visuals] index value Hin. cbn [edit_scenes fst snd] in *.
    rewrite decide_True by done. rewrite handleSceneChange_in_range by done.
    by rewrite mapM_id_Some. }
  intros Hedits. split; [|apply Hchange].
  assert (initial_scenes.1 ≠ []) as Hinit by done.
  revert Hedits Hinit. generalize initial_scenes as start.
  induction edits as [|e edits IH]; intros start; cbn [edit_all].
  { by intros [= ->]. }
  destruct (edit_scenes start e) as [next|] eqn:Hstep; [|done].
  intros Hrest Hstart. apply (IH next Hrest).
  destruct e as [index value| |index|visuals]; cbn [edit_scenes] in Hstep;
    [| | |by injection Hstep as <-].
  - destruct (decide (index < length start.1)) as [Hin|]; [|done].
    rewrite handleSceneChange_in_range, mapM_id_Some in Hstep by done.
    injection Hstep as <-. cbn [fst]. intros Hnil.
    apply (f_equal length) in Hnil. rewrite length_insert in Hnil.
    destruct (start.1); [done|done].
  - injection Hstep as <-. cbn [fst]. unfold handleAddScene. by destruct (start.1).
  - destruct (decide (index < length start.1)); [|done]. injection Hstep as <-.
    rewrite handleDeleteScene_delete. by destruct (decide (delete index start.1 = [])).
Qed.

Lemma allScenesEmpty_iff (scenes : list jsstring) :
  allScenesEmpty scenes = true ↔ List.filter nonblank scenes = [].
Proof.
  unfold allScenesEmpty. induction scenes as [|s r IH]; [done|].
  cbn [forallb List.filter]. rewrite andb_true_iff, IH.
  unfold nonblank, jsstring_eqb. destruct (trim s) as [|c t]; cbn [nonempty].
  - rewrite bool_decide_eq_true_2 by done. tauto.
  - rewrite bool_decide_eq_false_2 by done. split; [by intros [? _]|done].
Qed.

(** X19.  The generate button of the storyboard panel is disabled exactly
    for the scene lists the orchestrator would refuse: with the button
    enabled a run never ends with the message asking for a scene, and sends
    at least one request. *)
Theorem generate_button_matches_the_validation (NM : NumberModel) (svc : Service)
  (scenes : list jsstring) (imageFile : option File) (selectedStyle : jsstring)
  (promptFormat : PromptFormat) :
  let run := handleGenerateStoryboard NM svc scenes imageFile selectedStyle promptFormat in
  (allScenesEmpty scenes = true
   ↔ completion run = Threw (lit "Please add at least one scene to the storyboard."))
  ∧ (allScenesEmpty scenes = false → calls run ≠ [])
  ∧ (allScenesEmpty scenes = true ↔ Forall (λ s, all_white_space s = true) scenes).
Proof.
  intros run. split; [|split].
  - rewrite allScenesEmpty_iff. symmetry. apply refused_run_iff.
  - intros Henabled Hcalls.
    assert (List.filter nonblank scenes ≠ []) as Hsome.
    { intros Hnil. apply allScenesEmpty_iff in Hnil. congruence. }
    destruct (handleGenerateStoryboard_cases NM svc scenes imageFile selectedStyle
                promptFormat) as [[Hnil _]|[[_ Hrun]|[_ Hrun]]]; [done| |];
      subst run; rewrite Hrun in Hcalls; cbn [calls] in Hcalls.
    + apply app_eq_nil in Hcalls as [_ Hcalls]. by apply image_requests_nil in Hcalls.
    + by apply app_eq_nil in Hcalls as [_ Hcalls].
  - by rewrite allScenesEmpty_iff, filter_nonblank_nil_iff.
Qed.

(** ** The page: video types and outputs *)

Lemma enabled_card_renders_output (k : nat) (type : VideoTypeCard) :
  types !! k = Some type → card_enabled type = true →
  renders_output (card_id type) = true.
Proof.
  intros Hk. do 5 (destruct k as [|k]; [by injection Hk as <-|]). done.
Qed.

Lemma page_step_type (page : Page) (e : PageEvent) :
  renders_output (page_videoType page) = true →
  renders_output (page_videoType (page_step page e)) = true.
Proof.
  intros Hpage. destruct e as [k| | | |]; try done. cbn [page_step].
  destruct (types !! k) as [type|] eqn:Hk; [|done]. unfold click_card.
  destruct (card_enabled type) eqn:Henabled; [|done]. unfold select_video_type.
  destruct (decide (card_id type = page_videoType page)); [done|].
  cbn [page_videoType]. by apply (enabled_card_renders_output k).
Qed.

(** X20.  Whatever is clicked, typed or generated on the page, the video
    type stays one of the three enabled ones, so the prompt text area is
    always rendered.  A click on a card that changes the video type clears
    the master prompt and the visual storyboard; any other click on a card
    changes nothing. *)
Theorem only_enabled_video_types_are_selected (events : list PageEvent) :
  let page := foldl page_step initial_page events in
  renders_output (page_videoType page) = true
  ∧ page_videoType page ∈ [storyboard; logo; introOutro]
  ∧ ∀ k,
      (page_videoType (page_step page (ClickCard k)) ≠ page_videoType page →
       page_masterPrompt (page_step page (ClickCard k)) = []
       ∧ page_visualStoryboard (page_step page (ClickCard k)) = [])
      ∧ (page_videoType (page_step page (ClickCard k)) = page_videoType page →
         page_step page (ClickCard k) = page).
Proof.
  intros page.
  assert (renders_output (page_videoType page) = true) as Htype.
  { subst page. induction events as [|e events IH] using rev_ind; [done|].
    rewrite foldl_app. cbn [foldl]. by apply page_step_type. }
  split; [exact Htype|]. split.
  { destruct (page_videoType page); try done; rewrite !elem_of_cons; auto. }
  intros k. cbn [page_step]. destruct (types !! k) as [type|]; [|done].
  unfold click_card. destruct (card_enabled type); [|done].
  unfold select_video_type.
  destruct (decide (card_id type = page_videoType page)) as [Hsame|Hother]; [done|].
  cbn [page_videoType page_masterPrompt page_visualStoryboard]. split; [done|].
  intros Heq. by destruct Hother.
Qed.

(** ** The logo and intro recipes, from the request to the preview *)

(** X21.  The logo panel does nothing without a logo.  With one, the master
    prompt becomes the answer of the service as it is, or the empty text
    when reading the logo or the request fails, and then the example-scene
    click does nothing.  The request, sent only once the logo is read,
    carries the prompt text and the logo under its own media type.  When the
    answer holds two marker lines, the click after it asks for an image of
    the first block. *)
Theorem logo_prompt_reaches_the_preview (NM : NumberModel) (recipes : RecipeService)
  (svc : Service) (file : File) (animationStyle background sfx tagline : jsstring)
  (promptFormat : PromptFormat) (old : jsstring) :
  let answer :=
    fst (handleGenerateLogoPrompt recipes file animationStyle background sfx tagline
           promptFormat) in
  let generated :=
    LogoAnimator_handleGenerate recipes (Some file) animationStyle background sfx tagline
      promptFormat old in
  LogoAnimator_handleGenerate recipes None animationStyle background sfx tagline
    promptFormat old = (old, [])
  ∧ generated.2
    = match read_logo_data recipes file with
      | Fulfilled data =>
          [ {| recipe_model := lit "gemini-2.5-flash";
               recipe_parts :=
                 [TextPart (logo_promptText animationStyle background sfx tagline
                              promptFormat);
                  InlineData (file_type file) data];
               recipe_systemInstruction :=
                 (LogoAnimation,
                  match promptFormat with
                  | json => jsonSystemInstruction
                  | classic => classicSystemInstruction
                  end) |} ]
      | Rejected _ => []
      end
  ∧ (∀ text, answer = Fulfilled text → generated.1 = text)
  ∧ (∀ reason,
       answer = Rejected reason →
       generated.1 = []
       ∧ handleGenerateScene NM generated.1 logo (Some file) = NothingToDo
       ∧ preview_calls NM svc generated.1 logo (Some file) = [])
  ∧ (∀ m1 m2 block' after lt,
       let block := lt :: block' in
       let text := m1 ++ block ++ m2 ++ after in
       answer = Fulfilled text →
       is_marker_line m1 → is_marker_line m2 →
       is_line_terminator lt = true →
       JSON_parse NM text = None →
       (∀ i, i < length block → match_marker (drop i (block ++ m2 ++ after)) = None) →
       nonblank block = true →
       preview_calls NM svc generated.1 logo (Some file)
       = [GenerateImages (image_request (trim block) Ratio_16_9)]).
Proof.
  intros answer generated. subst answer generated.
  unfold LogoAnimator_handleGenerate, handleGenerateLogoPrompt.
  split; [done|].
  destruct (read_logo_data recipes file) as [data|e]; cbn [fst snd].
  - destruct (recipe_generateContent recipes _) as [text|e] eqn:Hanswer; cbn [fst snd].
    + split; [by destruct promptFormat|]. split; [by intros ? [= ->]|]. split; [done|].
      intros m1 m2 block' after lt [= ->] Hm1 Hm2 Hlt Hparse Hblock Hnonblank.
      destruct (extracted_marked_block NM m1 m2 [] block' after lt Hm1 Hm2 Hlt Hparse)
        as [Htext Hextracted]; [intros i Hi; cbn [length] in Hi; lia|exact Hblock|].
      cbn [app] in Htext, Hextracted.
      unfold preview_calls.
      rewrite (handleGenerateScene_of_string NM _ _ logo (Some file) Htext Hextracted).
      rewrite trim_idempotent. unfold nonblank in Hnonblank. rewrite Hnonblank.
      unfold handleAnimate. by destruct (generateImage svc 0 _ Ratio_16_9).
    + split; [by destruct promptFormat|]. split; [done|]. split; [|done].
      by intros reason _.
  - split; [done|]. split; [done|]. split; [|done]. by intros reason _.
Qed.

Lemma clean_fenced (body : jsstring) : clean_json_text (fenced body) = trim body.
Proof.
  unfold clean_json_text, fenced.
  change (lit "```json" ++ [LF] ++ body ++ lit "```")
    with (json_fence ++ LF :: (body ++ fence)).
  by rewrite strip_json_fence_start, strip_final_fence_end.
Qed.

(** X22.  The answers of the intro recipe are not cleaned: a JSON answer
    that comes between code-fence markers becomes the master prompt with
    its markers, is therefore not read as JSON by the example-scene click,
    and (holding no marker line) is sent whole to image generation; the
    clean-up of the storyboard orchestrator would have unwrapped it. *)
Theorem fenced_intro_answer_is_previewed_whole (NM : NumberModel)
  (recipes : RecipeService) (svc : Service)
  (channelName videoTopic visualStyle energy specificElements : jsstring)
  (promptFormat : PromptFormat) (body : jsstring) :
  fst (handleGenerateYouTubeIntroPrompt recipes channelName videoTopic visualStyle energy
         specificElements promptFormat) = Fulfilled (fenced body) →
  no_marker (fenced body) →
  let generated :=
    YouTubeIntroGenerator_handleGenerate recipes channelName videoTopic visualStyle energy
      specificElements promptFormat in
  generated.1 = fenced body
  ∧ generated.2
    = [ {| recipe_model := lit "gemini-2.5-flash";
           recipe_parts :=
             [TextPart (intro_promptText channelName videoTopic visualStyle energy
                          specificElements promptFormat)];
           recipe_systemInstruction :=
             (YouTubeIntro,
              match promptFormat with
              | json => jsonSystemInstruction
              | classic => classicSystemInstruction
              end) |} ]
  ∧ JSON_parse NM generated.1 = None
  ∧ preview_calls NM svc generated.1 introOutro None
    = [GenerateImages (image_request (fenced body) Ratio_16_9)]
  ∧ clean_json_text (fenced body) = trim body.
Proof.
  intros Hanswer Hnone generated. subst generated.
  unfold YouTubeIntroGenerator_handleGenerate.
  unfold handleGenerateYouTubeIntroPrompt in *. cbn [fst] in Hanswer. rewrite Hanswer.
  cbn [fst snd].
  assert (JSON_parse NM (fenced body) = None) as Hparse
    by apply (JSON_parse_backtick_start NM).
  split; [done|]. split; [by destruct promptFormat|]. split; [exact Hparse|].
  split; [|apply clean_fenced].
  unfold preview_calls.
  assert (handleGenerateScene NM (fenced body) introOutro None = Animate (fenced body) None)
    as ->.
  { rewrite (handleGenerateScene_of_string NM (fenced body) (fenced body)); [|done|].
    - by destruct (nonempty (trim (fenced body))).
    - by rewrite extracted_prompt_not_json, marker_prompt_without_marker. }
  unfold handleAnimate. by destruct (generateImage svc 0 _ Ratio_16_9).
Qed.

(** ** What the storyboard panel reports *)


(** ** The further properties on examples *)

Lemma marker_free_no_marker (s : jsstring) : marker_free s = true → no_marker s.
Proof.
  unfold marker_free. rewrite forallb_forall. intros Hall i Hi.
  assert (In i (seq 0 (length s))) as Hin by (apply in_seq; lia).
  specialize (Hall i Hin). by destruct (match_marker (drop i s)).
Qed.

Lemma is_marker_line_intro : is_marker_line intro_marker.
Proof.
  exists (lit "PROMPT"), (lit "1"), (lit ": Intro (0-2s) ").
  split; [reflexivity|]. split; [by right|]. split; [done|]. by split.
Qed.

Lemma is_marker_line_reveal : is_marker_line reveal_marker.
Proof.
  exists (lit "PROMPT"), (lit "2"), (lit ": Reveal (2-4s) ").
  split; [reflexivity|]. split; [by right|]. split; [done|]. by split.
Qed.

Lemma intro_block_has_no_marker :
  ∀ i, i < length (LF :: intro_block) →
       match_marker (drop i ((LF :: intro_block) ++ reveal_marker
                             ++ [LF] ++ lit "- Setting: light.")) = None.
Proof.
  intros i Hi.
  do 26 (destruct i as [|i]; [vm_compute; reflexivity|]).
  exfalso. revert Hi. vm_compute. lia.
Qed.

(** X2, on the scenario: the promises settle in the order 0, 1, 2 instead
    of 2, 0, 1. *)
Lemma settle_order_scenario :
  handleGenerateStoryboard WholeNumbers
    (with_settle_order service_refusing_one_image [0; 1; 2]) scenario_scenes None
    scenario_style classic
  = handleGenerateStoryboard WholeNumbers service_refusing_one_image scenario_scenes None
      scenario_style classic.
Proof.
  apply (settle_order_is_irrelevant WholeNumbers service_refusing_one_image [0; 1; 2]).
  intros i Hi. cbn [settle_order service_refusing_one_image scenario_service
                    scripted_service].
  destruct i as [|[|[|i]]]; [..|cbn in Hi; lia]; rewrite !elem_of_cons; split; auto.
Defined.

(** X5, on the scenario: two fixed parts, two scene texts and the one image
    that was generated. *)
Lemma master_request_part_count_scenario :
  ∃ request,
    list.last (calls (handleGenerateStoryboard WholeNumbers service_refusing_one_image
                        scenario_scenes None scenario_style classic))
    = Some (GenerateContent request)
    ∧ length (content_parts request) = 5
    ∧ length (List.filter is_image_part (content_parts request)) = 1.
Proof.
  assert (∃ request,
            list.last (calls (handleGenerateStoryboard WholeNumbers
                                service_refusing_one_image scenario_scenes None
                                scenario_style classic))
            = Some (GenerateContent request)
            ∧ is_master_call (GenerateContent request) = true)
    as (request & Hlast & Hmaster).
  { eexists. split; [vm_compute; reflexivity|reflexivity]. }
  exists request. split; [exact Hlast|].
  destruct (master_request_part_count WholeNumbers service_refusing_one_image
              scenario_scenes None scenario_style classic request
              (last_Some_elem_of _ _ Hlast) Hmaster) as (Hparts & Himages & _).
  split; [exact Hparts|exact Himages].
Defined.

(** X6, on the scenario with a reference image whose analysis answers. *)
Lemma style_analysis_scenario :
  fst (analyzeImageStyle service_refusing_one_image reference_image)
  = Fulfilled (lit "moody, high contrast")
  ∧ List.filter is_GenerateImages
      (calls (handleGenerateStoryboard WholeNumbers service_refusing_one_image
                scenario_scenes (Some reference_image) scenario_style classic))
    = [GenerateImages
         (image_request
            (lit "Noir Thriller, moody, high contrast, cinematic shot depicting a lit candle in a dark room")
            Ratio_4_3);
       GenerateImages
         (image_request
            (lit "Noir Thriller, moody, high contrast, cinematic shot depicting a sunrise over mountains")
            Ratio_4_3)].
Proof.
  split; [reflexivity|].
  destruct (style_analysis_feeds_both_prompts WholeNumbers service_refusing_one_image
              scenario_scenes reference_image scenario_style classic
              (lit "moody, high contrast") eq_refl) as (Hcalls & _).
  rewrite Hcalls. vm_compute. reflexivity.
Defined.

(** X8, on a fenced array that ends with a line break. *)
Lemma closing_fence_example :
  all_white_space [LF] = true
  ∧ postprocess WholeNumbers json fenced_with_line_break = lit "[1]" ++ [LF] ++ lit "```".
Proof.
  split; [reflexivity|].
  destruct (closing_fence_before_white_space_is_kept WholeNumbers (lit "[1]" ++ [LF]) [LF])
    as (_ & _ & Hpost & _); [done|reflexivity|].
  unfold fenced_with_line_break. rewrite Hpost. vm_compute. reflexivity.
Defined.

Lemma occurs_in_occurs (pattern s : jsstring) :
  occurs_in pattern s → occurs pattern s = true.
Proof.
  intros (before & after & ->). induction before as [|c before IH].
  - cbn [app]. destruct (pattern ++ after) eqn:Heq; cbn [occurs]; rewrite <- ?Heq;
      unfold starts_with; by rewrite strip_prefix_app.
  - cbn [app occurs]. rewrite IH. apply orb_true_r.
Qed.

(** X24, on the JSON answer between code fences. *)
Lemma idempotent_postprocessing_example :
  postprocess WholeNumbers json (postprocess WholeNumbers json fenced_json_answer)
  = postprocess WholeNumbers json fenced_json_answer
  ∧ postprocess WholeNumbers json fenced_json_answer ≠ fenced_json_answer.
Proof.
  split; [|vm_compute; discriminate].
  assert (∃ v, JSON_parse WholeNumbers (clean_json_text fenced_json_answer) = Some v
               ∧ numbers_reread v) as (v & Hparse & Hnum).
  { eexists. split; [vm_compute; reflexivity|].
    cbn [numbers_reread snd]. repeat split; vm_compute; reflexivity. }
  apply (json_postprocessing_is_idempotent WholeNumbers fenced_json_answer v Hparse Hnum).
  intros Hoccurs. apply occurs_in_occurs in Hoccurs. revert Hoccurs.
  vm_compute. discriminate.
Defined.

(** X9, on a sentence. *)
Lemma text_without_marker_example :
  JSON_parse WholeNumbers (lit "A lit candle.") = None
  ∧ marker_free (lit "A lit candle.") = true
  ∧ handleGenerateScene WholeNumbers (lit "A lit candle.") introOutro None
    = Animate (lit "A lit candle.") None.
Proof.
  split; [vm_compute; reflexivity|]. split; [vm_compute; reflexivity|].
  apply (text_without_marker_is_sent_whole WholeNumbers (lit "A lit candle.") introOutro None).
  - done.
  - vm_compute. reflexivity.
  - apply marker_free_no_marker. vm_compute. reflexivity.
Defined.

(** X10, on a classic answer of the logo recipe. *)
Lemma marked_block_example :
  JSON_parse WholeNumbers logo_answer = None
  ∧ extracted_prompt WholeNumbers logo_answer = JString (lit "- Setting: a dark stage.").
Proof.
  assert (JSON_parse WholeNumbers logo_answer = None) as Hparse by (vm_compute; reflexivity).
  split; [exact Hparse|].
  destruct (marked_block_is_extracted WholeNumbers intro_marker reveal_marker []
              intro_block ([LF] ++ lit "- Setting: light.") LF logo None
              is_marker_line_intro is_marker_line_reveal eq_refl Hparse)
    as [Hextracted _].
  - intros i Hi. cbn [length] in Hi. lia.
  - exact intro_block_has_no_marker.
  - exact Hextracted.
Defined.

(** X11, on a generation prompt that is the number 5. *)
Lemma number_prompt_example :
  JSON_parse WholeNumbers number_prompt_json
  = Some (JArray [JObject [(lit "generation_prompt", @JNumber WholeNumbers 5%Z)]])
  ∧ handleGenerateScene WholeNumbers number_prompt_json introOutro None = UncaughtTypeError.
Proof.
  assert (JSON_parse WholeNumbers number_prompt_json
          = Some (JArray [JObject [(lit "generation_prompt",
                                    @JNumber WholeNumbers 5%Z)]])) as Hparse
    by (vm_compute; reflexivity).
  split; [exact Hparse|].
  refine (proj1 (truthy_non_string_prompt_is_an_uncaught_error WholeNumbers
                   service_refusing_one_image number_prompt_json _ _ _ introOutro None
                   Hparse eq_refl eq_refl eq_refl _)).
  intros s. discriminate.
Defined.

(** X12, on an array that holds [null]. *)
Lemma null_first_scene_example :
  JSON_parse WholeNumbers (lit "[null]") = Some (JArray [JNull])
  ∧ handleGenerateScene WholeNumbers (lit "[null]") introOutro None
    = Animate (lit "[null]") None.
Proof.
  assert (JSON_parse WholeNumbers (lit "[null]") = Some (JArray [JNull])) as Hparse
    by (vm_compute; reflexivity).
  split; [exact Hparse|].
  destruct (null_first_scene_falls_back_to_markers WholeNumbers (lit "[null]") _
              introOutro None Hparse I) as (_ & _ & Hwhole).
  apply Hwhole, marker_free_no_marker. vm_compute. reflexivity.
Defined.

(** X13, on a JSON string that holds a marker line. *)
Lemma unknown_shape_example :
  JSON_parse WholeNumbers marker_in_json_string
  = Some (JString (lit "--- SCENE 1 --- a candle"))
  ∧ split_markers marker_in_json_string = [[34%N]; lit " a candle" ++ [34%N]]
  ∧ handleGenerateScene WholeNumbers marker_in_json_string introOutro None
    = Animate marker_in_json_string None.
Proof.
  assert (JSON_parse WholeNumbers marker_in_json_string
          = Some (JString (lit "--- SCENE 1 --- a candle"))) as Hparse
    by (vm_compute; reflexivity).
  split; [exact Hparse|]. split; [vm_compute; reflexivity|].
  exact (proj2 (json_of_unknown_shape_is_sent_whole WholeNumbers marker_in_json_string _
                  introOutro None Hparse I)).
Defined.

(** X14, on the master prompt with two scene blocks. *)
Lemma classic_prompt_part_example :
  handleGenerateScene WholeNumbers two_block_text introOutro None
  = Animate (lit "A lit candle.") None
  ∧ occurs_in (lit "A lit candle.") two_block_text.
Proof.
  assert (handleGenerateScene WholeNumbers two_block_text introOutro None
          = Animate (lit "A lit candle.") None) as Hclick by (vm_compute; reflexivity).
  split; [exact Hclick|].
  apply (classic_prompt_is_a_part_of_the_master_prompt WholeNumbers two_block_text
           (lit "A lit candle.") introOutro None None); [|exact Hclick].
  vm_compute. reflexivity.
Defined.

(** X18, on four edits: a scene is added and filled in, then both scenes
    are deleted. *)
Lemma scene_edits_example :
  edit_all initial_scenes
    [AddScene; ChangeScene 1 (lit "a sunrise"); DeleteScene 0; DeleteScene 0]
  = Some ([[]], [])
  ∧ ([[]] : list jsstring) ≠ [].
Proof.
  assert (edit_all initial_scenes
            [AddScene; ChangeScene 1 (lit "a sunrise"); DeleteScene 0; DeleteScene 0]
          = Some ([[]], [])) as Hedits by (vm_compute; reflexivity).
  split; [exact Hedits|].
  exact (proj1 (scene_list_is_never_empty _ _ Hedits)).
Defined.

(** X21, on the classic answer with two segments. *)
Lemma logo_preview_example :
  preview_calls WholeNumbers service_refusing_one_image
    (LogoAnimator_handleGenerate (scripted_recipes (Fulfilled logo_answer)) (Some logo_file)
       (lit "Simple Fade") (lit "A clean background.") (lit "A chime.") [] classic []).1
    logo (Some logo_file)
  = [GenerateImages (image_request (lit "- Setting: a dark stage.") Ratio_16_9)].
Proof.
  destruct (logo_prompt_reaches_the_preview WholeNumbers
              (scripted_recipes (Fulfilled logo_answer)) service_refusing_one_image
              logo_file (lit "Simple Fade") (lit "A clean background.") (lit "A chime.") []
              classic []) as (_ & _ & _ & _ & Hpreview).
  rewrite (Hpreview intro_marker reveal_marker intro_block ([LF] ++ lit "- Setting: light.")
             LF eq_refl is_marker_line_intro is_marker_line_reveal eq_refl).
  - vm_compute. reflexivity.
  - vm_compute. reflexivity.
  - exact intro_block_has_no_marker.
  - vm_compute. reflexivity.
Defined.

(** X22, on a fenced array. *)
Lemma fenced_intro_answer_example :
  marker_free (fenced (lit "[1]")) = true
  ∧ preview_calls WholeNumbers service_refusing_one_image
      (YouTubeIntroGenerator_handleGenerate (scripted_recipes (Fulfilled (fenced (lit "[1]"))))
         (lit "Pixel Pioneers") (lit "Retro games") (lit "Gaming / Neon")
         (lit "Calm & Relaxing") [] json).1
      introOutro None
    = [GenerateImages (image_request (fenced (lit "[1]")) Ratio_16_9)]
  ∧ clean_json_text (fenced (lit "[1]")) = lit "[1]".
Proof.
  split; [vm_compute; reflexivity|].
  destruct (fenced_intro_answer_is_previewed_whole WholeNumbers
              (scripted_recipes (Fulfilled (fenced (lit "[1]")))) service_refusing_one_image
              (lit "Pixel Pioneers") (lit "Retro games") (lit "Gaming / Neon")
              (lit "Calm & Relaxing") [] json (lit "[1]") eq_refl)
    as (_ & _ & _ & Hpreview & Hclean).
  - apply marker_free_no_marker. vm_compute. reflexivity.
  - split; [exact Hpreview|]. rewrite Hclean. vm_compute. reflexivity.
Defined.
